(** * Okra expression engine ([core/dsl.go]): shallow embedding and
    verification of its specification.

    The development follows the layout of [dsl.go]: dynamic values and the
    reflection contract, the Go library functions the code calls, coercions
    and operator semantics, AST evaluation, lexer, parser, engine.

    Conventions.
    - A Go [string] is a sequence of bytes: [string] (a list of [ascii]).
    - [int64] is a [Z] kept in range by [wrap64]; [float64] is a
      [spec_float] with the binary64 operations of [SpecFloat].
    - A Go result [(any, error)] is a pair [(value * option error)]; a
      run-time panic is the separate outcome [Panic].
    - Facts of the host program that the source reads through [reflect]
      or [fmt] (method sets, assignability of user types, printing of
      composites, the clock) are fields of a [Host] record. *)

From Stdlib Require Import ZArith List Bool Ascii String Lia.
From Stdlib Require Import Floats.SpecFloat.
From stdpp Require Import base option gmap strings.

Import ListNotations.
Set Warnings "-register-all".
Local Open Scope string_scope.
Local Open Scope Z_scope.

(* ================================================================== *)
(** ** Bytes and strings *)
(* ================================================================== *)

Definition byte_val (c : ascii) : Z := Z.of_N (N_of_ascii c).
Definition byte_of (z : Z) : ascii := ascii_of_N (Z.to_N (z mod 256)).

(** The double quote character. *)
Definition dquote : ascii := "034"%char.

Definition byte_in (lo hi c : ascii) : bool :=
  (byte_val lo <=? byte_val c) && (byte_val c <=? byte_val hi).

Definition is_digit (c : ascii) : bool := byte_in "0" "9" c.

Fixpoint str_take (n : nat) (s : string) : string :=
  match n, s with
  | S n', String c s' => String c (str_take n' s')
  | _, _ => EmptyString
  end.

Fixpoint str_drop (n : nat) (s : string) : string :=
  match n, s with
  | S n', String _ s' => str_drop n' s'
  | _, _ => s
  end.

Fixpoint str_repeat (s : string) (n : nat) : string :=
  match n with
  | O => EmptyString
  | S n' => s +:+ str_repeat s n'
  end.

Definition str_len (s : string) : Z := Z.of_nat (String.length s).

(** [strings.HasPrefix]. *)
Definition HasPrefix (s p : string) : bool := String.prefix p s.

(** [strings.Contains] for a one-byte needle. *)
Fixpoint contains_byte (c : ascii) (s : string) : bool :=
  match s with
  | EmptyString => false
  | String d s' => Ascii.eqb c d || contains_byte c s'
  end.

(* ================================================================== *)
(** ** Machine integers and binary64 *)
(* ================================================================== *)

Definition MaxInt64 : Z := 9223372036854775807.
Definition MinInt64 : Z := -9223372036854775808.
Definition MaxUint64 : Z := 18446744073709551615.

(** Two's-complement wrap-around of [int64] arithmetic. *)
Definition wrap64 (z : Z) : Z := (z + 2 ^ 63) mod 2 ^ 64 - 2 ^ 63.

Definition float64 := spec_float.

Definition f64_prec : Z := 53.
Definition f64_emax : Z := 1024.

Definition f64_zero : float64 := S754_zero false.
Definition f64_add : float64 -> float64 -> float64 := SFadd f64_prec f64_emax.
Definition f64_sub : float64 -> float64 -> float64 := SFsub f64_prec f64_emax.
Definition f64_mul : float64 -> float64 -> float64 := SFmul f64_prec f64_emax.
Definition f64_div : float64 -> float64 -> float64 := SFdiv f64_prec f64_emax.
Definition f64_neg : float64 -> float64 := SFopp.
Definition f64_eqb : float64 -> float64 -> bool := SFeqb.
Definition f64_ltb : float64 -> float64 -> bool := SFltb.
Definition f64_leb : float64 -> float64 -> bool := SFleb.

(** The conversion [float64(i)] of an [int64]: round to nearest even. *)
Definition f64_of_int (i : Z) : float64 :=
  binary_normalize f64_prec f64_emax i 0 false.

(** Nearest binary64 to the rational [num / den] ([num >= 0], [den > 0]),
    ties to even.  The quotient is taken with enough extra bits that one
    sticky bit decides the rounding, also in the subnormal range. *)
Definition f64_of_ratio (neg : bool) (num den : Z) : float64 :=
  if num =? 0 then S754_zero neg
  else
    let s := Z.max 1100 (Z.log2 den + 66) in
    let q := (num * 2 ^ s) / den in
    let r := (num * 2 ^ s) mod den in
    let m := 2 * q + (if r =? 0 then 0 else 1) in
    binary_normalize f64_prec f64_emax (if neg then - m else m) (- (s + 1)) neg.

Definition f64_is_inf (f : float64) : bool :=
  match f with S754_infinity _ => true | _ => false end.

(* ================================================================== *)
(** ** Go library functions used by the source *)
(* ================================================================== *)

(** *** [unicode] on a byte converted to a rune

    The lexer tests [unicode.IsSpace(rune(b))], [IsDigit] and [IsLetter]
    on single bytes, so only the Latin-1 range is ever asked. *)

Definition IsSpace (c : ascii) : bool :=
  let v := byte_val c in
  ((9 <=? v) && (v <=? 13)) || (v =? 32) || (v =? 133) || (v =? 160).

Definition IsDigit (c : ascii) : bool := is_digit c.

Definition IsLetter (c : ascii) : bool :=
  let v := byte_val c in
  ((65 <=? v) && (v <=? 90)) || ((97 <=? v) && (v <=? 122))
  || (v =? 170) || (v =? 181) || (v =? 186)
  || ((192 <=? v) && (v <=? 214)) || ((216 <=? v) && (v <=? 246))
  || ((248 <=? v) && (v <=? 255)).

(** *** [strconv.ParseUint(s, 10, 64)], [ParseInt(s, 10, 64)], [Atoi] *)

Inductive numerr : Type := NumOk | NumSyntax | NumRange.

Definition numerr_ok (e : numerr) : bool :=
  match e with NumOk => true | _ => false end.

(** The digit loop of [ParseUint]: the first offending byte decides
    between a syntax and a range error. *)
Fixpoint parse_uint_loop (s : string) (n : Z) : Z * numerr :=
  match s with
  | EmptyString => (n, NumOk)
  | String c s' =>
      if is_digit c then
        if MaxUint64 / 10 + 1 <=? n then (MaxUint64, NumRange)
        else
          let n1 := n * 10 + (byte_val c - 48) in
          if MaxUint64 <? n1 then (MaxUint64, NumRange)
          else parse_uint_loop s' n1
      else (0, NumSyntax)
  end.

Definition ParseUint (s : string) : Z * numerr :=
  match s with
  | EmptyString => (0, NumSyntax)
  | _ => parse_uint_loop s 0
  end.

Definition ParseInt (s : string) : Z * numerr :=
  match s with
  | EmptyString => (0, NumSyntax)
  | String c s' =>
      let '(neg, digits) :=
        if Ascii.eqb c "+" then (false, s')
        else if Ascii.eqb c "-" then (true, s')
        else (false, s) in
      let '(un, err) := ParseUint digits in
      match err with
      | NumSyntax => (0, NumSyntax)
      | _ =>
          let cutoff := 2 ^ 63 in
          if negb neg && (cutoff <=? un) then (cutoff - 1, NumRange)
          else if neg && (cutoff <? un) then (- cutoff, NumRange)
          else (if neg then - un else un, NumOk)
      end
  end.

(** [strconv.Atoi] agrees with [ParseInt(s, 10, 0)] on a 64-bit
    platform in value and in whether it fails. *)
Definition Atoi (s : string) : Z * numerr := ParseInt s.

(** *** [strconv.ParseFloat(s, 64)] *)

(** [lower(c) = c | ('x' - 'X')]. *)
Definition lower (c : ascii) : ascii := byte_of (Z.lor (byte_val c) 32).

Definition ascii_lower (c : ascii) : ascii :=
  if byte_in "A" "Z" c then byte_of (byte_val c + 32) else c.

Fixpoint commonPrefixLenIgnoreCase (s pre : string) : nat :=
  match s, pre with
  | String c s', String p pre' =>
      if Ascii.eqb (ascii_lower c) p then S (commonPrefixLenIgnoreCase s' pre')
      else O
  | _, _ => O
  end.

Definition f64_inf (neg : bool) : float64 := S754_infinity neg.

(** [special]: the strings "inf", "infinity", "nan", any case, the first
    two with an optional sign.  Returns the value and the bytes consumed. *)
Definition special (s : string) : option (float64 * nat) :=
  let inf_case (neg : bool) (nsign : nat) (t : string) :=
    let n := commonPrefixLenIgnoreCase t "infinity" in
    let n := if (3 <? n)%nat && (n <? 8)%nat then 3%nat else n in
    if (n =? 3)%nat || (n =? 8)%nat then Some (f64_inf neg, (nsign + n)%nat)
    else None in
  match s with
  | EmptyString => None
  | String c s' =>
      if Ascii.eqb c "+" then inf_case false 1%nat s'
      else if Ascii.eqb c "-" then inf_case true 1%nat s'
      else if Ascii.eqb c "i" || Ascii.eqb c "I" then inf_case false 0%nat s
      else if Ascii.eqb c "n" || Ascii.eqb c "N" then
        if (commonPrefixLenIgnoreCase s "nan" =? 3)%nat
        then Some (S754_nan, 3%nat) else None
      else None
  end.

(** State of the mantissa loop of [readFloat].  The mantissa is kept in
    full ([rfMant] has [rfNd] digits); Go keeps 19 digits and a flag and
    re-reads the text on its slow path, to the same correctly rounded
    value. *)
Record rf_state : Type := mkRf {
  rfSawdot : bool; rfSawdigits : bool; rfUnderscores : bool;
  rfNd : Z; rfDp : Z; rfMant : Z }.

Definition hex_digit_val (c : ascii) : option Z :=
  if is_digit c then Some (byte_val c - 48)
  else if byte_in "a" "f" (lower c) then Some (byte_val (lower c) - 97 + 10)
  else None.

Fixpoint readFloat_digits (hex : bool) (s : string) (st : rf_state)
  : rf_state * string :=
  match s with
  | EmptyString => (st, s)
  | String c s' =>
      if Ascii.eqb c "_" then
        readFloat_digits hex s'
          (mkRf (rfSawdot st) (rfSawdigits st) true (rfNd st) (rfDp st) (rfMant st))
      else if Ascii.eqb c "." then
        if rfSawdot st then (st, s)
        else readFloat_digits hex s'
               (mkRf true (rfSawdigits st) (rfUnderscores st) (rfNd st) (rfNd st) (rfMant st))
      else if is_digit c then
        if Ascii.eqb c "0" && (rfNd st =? 0) then
          readFloat_digits hex s'
            (mkRf (rfSawdot st) true (rfUnderscores st) (rfNd st) (rfDp st - 1) (rfMant st))
        else
          readFloat_digits hex s'
            (mkRf (rfSawdot st) true (rfUnderscores st) (rfNd st + 1) (rfDp st)
                  (rfMant st * (if hex then 16 else 10) + (byte_val c - 48)))
      else if hex && byte_in "a" "f" (lower c) then
        readFloat_digits hex s'
          (mkRf (rfSawdot st) true (rfUnderscores st) (rfNd st + 1) (rfDp st)
                (rfMant st * 16 + (byte_val (lower c) - 97 + 10)))
      else (st, s)
  end.

(** The digits of the exponent; [e] stops growing at 10000. *)
Fixpoint readFloat_exp (s : string) (e : Z) (us : bool) : Z * bool * string :=
  match s with
  | EmptyString => (e, us, s)
  | String c s' =>
      if Ascii.eqb c "_" then readFloat_exp s' e true
      else if is_digit c then
        readFloat_exp s' (if e <? 10000 then e * 10 + (byte_val c - 48) else e) us
      else (e, us, s)
  end.

(** [underscoreOK]: an underscore only between digits, or between a base
    prefix and a digit.  [saw] is the class of the previous byte. *)
Inductive us_saw : Type := SawStart | SawDigit | SawUnderscore | SawOther.

Fixpoint underscoreOK_loop (hex : bool) (s : string) (saw : us_saw) : bool :=
  match s with
  | EmptyString => match saw with SawUnderscore => false | _ => true end
  | String c s' =>
      if is_digit c || (hex && byte_in "a" "f" (lower c)) then
        underscoreOK_loop hex s' SawDigit
      else if Ascii.eqb c "_" then
        match saw with
        | SawDigit => underscoreOK_loop hex s' SawUnderscore
        | _ => false
        end
      else
        match saw with
        | SawUnderscore => false
        | _ => underscoreOK_loop hex s' SawOther
        end
  end.

Definition underscoreOK (s : string) : bool :=
  let s := match s with
           | String c s' => if Ascii.eqb c "-" || Ascii.eqb c "+" then s' else s
           | _ => s
           end in
  match s with
  | String c0 (String c1 s'') =>
      if Ascii.eqb c0 "0"
         && (Ascii.eqb (lower c1) "b" || Ascii.eqb (lower c1) "o"
             || Ascii.eqb (lower c1) "x")
      then underscoreOK_loop (Ascii.eqb (lower c1) "x") s'' SawDigit
      else underscoreOK_loop false s SawStart
  | _ => underscoreOK_loop false s SawStart
  end.

(** Result of [readFloat]: sign, base, the full mantissa, the exponent
    of the base ([10] or, for hexadecimal, [2]) and the unread rest. *)
Record rf_result : Type := mkRfRes {
  rrNeg : bool; rrHex : bool; rrMant : Z; rrNd : Z; rrExp : Z; rrRest : string }.

Definition readFloat (s : string) : option rf_result :=
  match s with
  | EmptyString => None
  | String c s' =>
      let '(neg, s1) :=
        if Ascii.eqb c "+" then (false, s')
        else if Ascii.eqb c "-" then (true, s')
        else (false, s) in
      let '(hex, s2) :=
        match s1 with
        | String d0 (String d1 (String d2 t)) =>
            if Ascii.eqb d0 "0" && Ascii.eqb (lower d1) "x"
            then (true, String d2 t) else (false, s1)
        | _ => (false, s1)
        end in
      let '(st, s3) := readFloat_digits hex s2 (mkRf false false false 0 0 0) in
      if negb (rfSawdigits st) then None
      else
        let dp := if rfSawdot st then rfDp st else rfNd st in
        let dp := if hex then dp * 4 else dp in
        let ndm := if hex then rfNd st * 4 else rfNd st in
        let finish (dp : Z) (us : bool) (rest : string) :=
          let consumed := (String.length s - String.length rest)%nat in
          if us && negb (underscoreOK (str_take consumed s)) then None
          else Some (mkRfRes neg hex (rfMant st) (rfNd st) (dp - ndm) rest) in
        match s3 with
        | String e s4 =>
            if Ascii.eqb (lower e) (if hex then "p" else "e")%char then
              match s4 with
              | EmptyString => None
              | String g s5 =>
                  let '(esign, s6) :=
                    if Ascii.eqb g "+" then (1, s5)
                    else if Ascii.eqb g "-" then (-1, s5)
                    else (1, s4) in
                  match s6 with
                  | String d _ =>
                      if is_digit d then
                        let '(ev, us, rest) := readFloat_exp s6 0 (rfUnderscores st) in
                        finish (dp + ev * esign) us rest
                      else None
                  | EmptyString => None
                  end
              end
            else if hex then None
            else finish dp (rfUnderscores st) s3
        | EmptyString =>
            if hex then None else finish dp (rfUnderscores st) s3
        end
  end.

(** The correctly rounded value of [mant * base^exp].  Decimal points
    beyond 310 overflow and below -330 vanish, as in Go's
    [decimal.floatBits]; this also keeps the powers small. *)
Definition atof_value (r : rf_result) : float64 :=
  let m := rrMant r in
  if m =? 0 then S754_zero (rrNeg r)
  else if rrHex r then
    binary_normalize f64_prec f64_emax (if rrNeg r then - m else m)
                     (rrExp r) (rrNeg r)
  else
    let dp := rrNd r + rrExp r in
    if 310 <? dp then f64_inf (rrNeg r)
    else if dp <? -330 then S754_zero (rrNeg r)
    else if 0 <=? rrExp r then f64_of_ratio (rrNeg r) (m * 10 ^ rrExp r) 1
    else f64_of_ratio (rrNeg r) m (10 ^ (- rrExp r)).

(** [ParseFloat]: the value and whether [err == nil].  A syntax error
    returns 0; a value out of range returns an infinity with an error. *)
Definition ParseFloat (s : string) : float64 * bool :=
  match special s with
  | Some (f, n) =>
      if (n =? String.length s)%nat then (f, true) else (f64_zero, false)
  | None =>
      match readFloat s with
      | None => (f64_zero, false)
      | Some r =>
          match rrRest r with
          | EmptyString =>
              let f := atof_value r in (f, negb (f64_is_inf f))
          | _ => (f64_zero, false)
          end
      end
  end.

(** *** [unicode/utf8] *)

Definition RuneError : Z := 65533.
Definition MaxRune : Z := 1114111.

Definition ValidRune (r : Z) : bool :=
  ((0 <=? r) && (r <? 55296)) || ((57343 <? r) && (r <=? MaxRune)).

Definition str_of_bytes (l : list Z) : string :=
  fold_right (fun b s => String (byte_of b) s) EmptyString l.

(** [utf8.AppendRune]: what [strings.Builder.WriteRune] writes. *)
Definition EncodeRune (r : Z) : string :=
  let cont (x : Z) := Z.lor 128 (Z.land x 63) in
  if (0 <=? r) && (r <=? 127) then str_of_bytes [r]
  else if (0 <=? r) && (r <=? 2047) then
    str_of_bytes [Z.lor 192 (Z.shiftr r 6); cont r]
  else if negb (ValidRune r) then str_of_bytes [239; 191; 189]
  else if r <=? 65535 then
    str_of_bytes [Z.lor 224 (Z.shiftr r 12); cont (Z.shiftr r 6); cont r]
  else
    str_of_bytes [Z.lor 240 (Z.shiftr r 18); cont (Z.shiftr r 12);
                  cont (Z.shiftr r 6); cont r].

(** [utf8.DecodeRuneInString] on a non-empty string: the rune and its
    width; an invalid or short encoding gives [(RuneError, 1)]. *)
Definition DecodeRune (s : string) : Z * nat :=
  let is_cont (lo hi : Z) (c : ascii) := (lo <=? byte_val c) && (byte_val c <=? hi) in
  let low6 (c : ascii) := Z.land (byte_val c) 63 in
  match s with
  | EmptyString => (RuneError, 0%nat)
  | String c0 t =>
      let b0 := byte_val c0 in
      if b0 <? 128 then (b0, 1%nat)
      else if (194 <=? b0) && (b0 <=? 223) then
        match t with
        | String c1 _ =>
            if is_cont 128 191 c1
            then (Z.lor (Z.shiftl (Z.land b0 31) 6) (low6 c1), 2%nat)
            else (RuneError, 1%nat)
        | _ => (RuneError, 1%nat)
        end
      else if (224 <=? b0) && (b0 <=? 239) then
        let lo := if b0 =? 224 then 160 else 128 in
        let hi := if b0 =? 237 then 159 else 191 in
        match t with
        | String c1 (String c2 _) =>
            if is_cont lo hi c1 && is_cont 128 191 c2
            then (Z.lor (Z.shiftl (Z.land b0 15) 12)
                        (Z.lor (Z.shiftl (low6 c1) 6) (low6 c2)), 3%nat)
            else (RuneError, 1%nat)
        | _ => (RuneError, 1%nat)
        end
      else if (240 <=? b0) && (b0 <=? 244) then
        let lo := if b0 =? 240 then 144 else 128 in
        let hi := if b0 =? 244 then 143 else 191 in
        match t with
        | String c1 (String c2 (String c3 _)) =>
            if is_cont lo hi c1 && is_cont 128 191 c2 && is_cont 128 191 c3
            then (Z.lor (Z.shiftl (Z.land b0 7) 18)
                        (Z.lor (Z.shiftl (low6 c1) 12)
                               (Z.lor (Z.shiftl (low6 c2) 6) (low6 c3))), 4%nat)
            else (RuneError, 1%nat)
        | _ => (RuneError, 1%nat)
        end
      else (RuneError, 1%nat)
  end.

(** *** [strconv.UnquoteChar] and [strconv.Quote] *)

Definition unhex (c : ascii) : option Z :=
  if is_digit c then Some (byte_val c - 48)
  else if byte_in "a" "f" c then Some (byte_val c - 97 + 10)
  else if byte_in "A" "F" c then Some (byte_val c - 65 + 10)
  else None.

(** [n] hexadecimal digits folded into [v]; [None] when the text is too
    short or holds a byte that is no hex digit. *)
Fixpoint read_hex (n : nat) (s : string) (v : Z) : option (Z * string) :=
  match n with
  | O => Some (v, s)
  | S n' =>
      match s with
      | String c s' =>
          match unhex c with
          | Some x => read_hex n' s' (Z.lor (Z.shiftl v 4) x)
          | None => None
          end
      | EmptyString => None
      end
  end.

Definition octal_val (c : ascii) : option Z :=
  if byte_in "0" "7" c then Some (byte_val c - 48) else None.

(** [UnquoteChar(s, quote)]: the first character or escape of [s] and
    the rest; [None] is [ErrSyntax].  The multibyte flag, which the lexer
    discards, is not returned. *)
Definition UnquoteChar (s : string) (quote : ascii) : option (Z * string) :=
  match s with
  | EmptyString => None
  | String c t =>
      if Ascii.eqb c quote && (Ascii.eqb quote "'" || Ascii.eqb quote dquote) then None
      else if 128 <=? byte_val c then
        let '(r, w) := DecodeRune s in Some (r, str_drop w s)
      else if negb (Ascii.eqb c "\") then Some (byte_val c, t)
      else
        match t with
        | EmptyString => None
        | String e u =>
            if Ascii.eqb e "a" then Some (7, u)
            else if Ascii.eqb e "b" then Some (8, u)
            else if Ascii.eqb e "f" then Some (12, u)
            else if Ascii.eqb e "n" then Some (10, u)
            else if Ascii.eqb e "r" then Some (13, u)
            else if Ascii.eqb e "t" then Some (9, u)
            else if Ascii.eqb e "v" then Some (11, u)
            else if Ascii.eqb e "x" then read_hex 2 u 0
            else if Ascii.eqb e "u" || Ascii.eqb e "U" then
              match read_hex (if Ascii.eqb e "u" then 4 else 8) u 0 with
              | Some (v, u') => if ValidRune v then Some (v, u') else None
              | None => None
              end
            else if byte_in "0" "7" e then
              match u with
              | String o1 (String o2 u') =>
                  match octal_val o1, octal_val o2 with
                  | Some x1, Some x2 =>
                      let v := Z.lor (Z.shiftl (Z.lor (Z.shiftl (byte_val e - 48) 3) x1) 3) x2 in
                      if 255 <? v then None else Some (v, u')
                  | _, _ => None
                  end
              | _ => None
              end
            else if Ascii.eqb e "\" then Some (92, u)
            else if Ascii.eqb e "'" || Ascii.eqb e dquote then
              if Ascii.eqb e quote then Some (byte_val e, u) else None
            else None
        end
  end.

Definition lowerhex (d : Z) : ascii :=
  if d <? 10 then byte_of (48 + d) else byte_of (97 + d - 10).

Fixpoint hex_digits (n : nat) (v : Z) : string :=
  match n with
  | O => EmptyString
  | S n' => hex_digits n' (Z.shiftr v 4) +:+ String (lowerhex (Z.land v 15)) EmptyString
  end.

(** [strconv.IsPrint]; the Unicode tables beyond Latin-1 are [hi]. *)
Definition IsPrint (hi : Z -> bool) (r : Z) : bool :=
  if r <=? 255 then
    if (32 <=? r) && (r <? 127) then true
    else if (161 <=? r) && (r <=? 255) then negb (r =? 173)
    else false
  else hi r.

(** [appendEscapedRune] as [Quote] calls it: the quote byte is the double
    quote and the output is not restricted to ASCII. *)
Definition appendEscapedRune (hi : Z -> bool) (r : Z) : string :=
  if (r =? 34) || (r =? 92) then String "\" (String (byte_of r) EmptyString)
  else if IsPrint hi r then EncodeRune r
  else if r =? 7 then "\a" else if r =? 8 then "\b"
  else if r =? 12 then "\f" else if r =? 10 then "\n"
  else if r =? 13 then "\r" else if r =? 9 then "\t"
  else if r =? 11 then "\v"
  else if (r <? 32) || (r =? 127) then "\x" +:+ hex_digits 2 r
  else if negb (ValidRune r) then "\u" +:+ hex_digits 4 RuneError
  else if r <? 65536 then "\u" +:+ hex_digits 4 r
  else "\U" +:+ hex_digits 8 r.

(** The loop of [appendQuotedWith]; [fuel] bounds the number of runes by
    the number of bytes. *)
Fixpoint quote_loop (hi : Z -> bool) (fuel : nat) (s : string) : string :=
  match fuel, s with
  | S fuel', String c t =>
      let '(r, w) := if 128 <=? byte_val c then DecodeRune s else (byte_val c, 1%nat) in
      if (w =? 1)%nat && (r =? RuneError) then
        "\x" +:+ hex_digits 2 (byte_val c) +:+ quote_loop hi fuel' t
      else appendEscapedRune hi r +:+ quote_loop hi fuel' (str_drop w s)
  | _, _ => EmptyString
  end.

Definition Quote (hi : Z -> bool) (s : string) : string :=
  String dquote (quote_loop hi (String.length s) s +:+ String dquote EmptyString).

(** *** [strings.ToLower]

    ASCII text is lowered byte by byte; text with a byte above 127 goes
    through [unicode.ToLower] rune by rune, which is [uni]. *)
Fixpoint isASCII (s : string) : bool :=
  match s with
  | EmptyString => true
  | String c s' => (byte_val c <? 128) && isASCII s'
  end.

Fixpoint map_bytes (f : ascii -> ascii) (s : string) : string :=
  match s with
  | EmptyString => EmptyString
  | String c s' => String (f c) (map_bytes f s')
  end.

Definition ToLower (uni : string -> string) (s : string) : string :=
  if isASCII s then map_bytes ascii_lower s else uni s.

(** Decimal text of an integer, as [fmt.Sprint] prints it.  The digits
    are produced from the last one; [fuel] bounds their number. *)
Fixpoint digits_aux (fuel : nat) (n : Z) (acc : string) : string :=
  match fuel with
  | O => acc
  | S fuel' =>
      let acc' := String (byte_of (48 + n mod 10)) acc in
      if n <? 10 then acc' else digits_aux fuel' (n / 10) acc'
  end.

Definition FormatUint (n : Z) : string :=
  digits_aux (S (Z.to_nat (Z.log2 n))) n EmptyString.

Definition FormatInt (z : Z) : string :=
  if z <? 0 then String "-" (FormatUint (- z)) else FormatUint z.

(* ================================================================== *)
(** ** Dynamic values ([any]) and the reflection contract *)
(* ================================================================== *)

(** [reflect.Kind]. *)
Inductive kind : Type :=
| Invalid | Bool | Int | Int8 | Int16 | Int32 | Int64
| Uint | Uint8 | Uint16 | Uint32 | Uint64 | Uintptr
| Float32 | Float64 | Complex64 | Complex128
| Array | Chan | Func | Interface | Map | Pointer | Slice
| String_ | Struct | UnsafePointer.

Definition kind_eqb (a b : kind) : bool :=
  match a, b with
  | Invalid, Invalid | Bool, Bool | Int, Int | Int8, Int8 | Int16, Int16
  | Int32, Int32 | Int64, Int64 | Uint, Uint | Uint8, Uint8
  | Uint16, Uint16 | Uint32, Uint32 | Uint64, Uint64 | Uintptr, Uintptr
  | Float32, Float32 | Float64, Float64 | Complex64, Complex64
  | Complex128, Complex128 | Array, Array | Chan, Chan | Func, Func
  | Interface, Interface | Map, Map | Pointer, Pointer | Slice, Slice
  | String_, String_ | Struct, Struct | UnsafePointer, UnsafePointer => true
  | _, _ => false
  end.

(** A [reflect.Type] as far as the source inspects one: its printed name
    and its kind.  Used for map key types and method parameter types. *)
Record rtype : Type := mkType { tName : string; tKind : kind }.

(** A struct field as [getStructMeta] reads it: name, the [okra] and
    [json] tags (empty when absent) and whether it is exported. *)
Record field : Type := mkField {
  fName : string; fTagOkra : string; fTagJson : string; fExported : bool }.

(** The value held by an [any].

    - [VInt k n]: an integer of kind [k] ([Int] .. [Uintptr]);
      [VFloat k f]: [Float32] or [Float64].
    - [VBool], [VString]: the predeclared types [bool] and [string].
    - [VNamed t v]: a value of the defined type named [t] whose
      representation is [v] (for instance [type Status string]); its kind
      is that of [v], and a type assertion to [string] or [bool] fails.
    - [VMap kt m]: a map with key type [kt] and entries [m].
    - [VPtr p]: a pointer, nil when [p = None].
    - [VOpaque k]: a value of kind [k] that the source never looks into
      (functions, channels, complex numbers, an interface-typed pointee). *)
Inductive value : Type :=
| VNil
| VBool (b : bool)
| VInt (k : kind) (n : Z)
| VFloat (k : kind) (f : float64)
| VString (s : string)
| VSlice (xs : list value)
| VArray (xs : list value)
| VMap (kt : rtype) (m : list (value * value))
| VPtr (p : option value)
| VStruct (fs : list (field * value))
| VNamed (t : string) (v : value)
| VOpaque (k : kind).

(** [reflect.ValueOf(v).Kind()]. *)
Fixpoint kindOf (v : value) : kind :=
  match v with
  | VNil => Invalid
  | VBool _ => Bool
  | VInt k _ => k
  | VFloat k _ => k
  | VString _ => String_
  | VSlice _ => Slice
  | VArray _ => Array
  | VMap _ _ => Map
  | VPtr _ => Pointer
  | VStruct _ => Struct
  | VNamed _ v' => kindOf v'
  | VOpaque k => k
  end.

(** The representation under the type names. *)
Fixpoint unname (v : value) : value :=
  match v with
  | VNamed _ v' => unname v'
  | _ => v
  end.

(** [obj == nil] on an [any]: only the nil interface. *)
Definition isNil (v : value) : bool :=
  match v with VNil => true | _ => false end.

(** The loop [for rv.Kind() == reflect.Ptr { if rv.IsNil() {..}; rv = rv.Elem() }]:
    [None] when it meets a nil pointer, else the first non-pointer value
    together with whether a pointer was followed (so that the result is
    addressable, [rv.CanAddr()]). *)
Fixpoint derefFrom (addr : bool) (v : value) : option (value * bool) :=
  match v with
  | VPtr None => None
  | VPtr (Some v') => derefFrom true v'
  | VNamed _ v' =>
      match kindOf v' with
      | Pointer => derefFrom addr v'
      | _ => Some (v, addr)
      end
  | _ => Some (v, addr)
  end.

Definition deref (v : value) : option (value * bool) := derefFrom false v.

(** [rv.Len()] for the kinds that have one. *)
Definition lenOf (v : value) : Z :=
  match unname v with
  | VSlice xs | VArray xs => Z.of_nat (List.length xs)
  | VMap _ m => Z.of_nat (List.length m)
  | VString s => str_len s
  | _ => 0
  end.

(** Outcome of a Go call: it returns, or it panics with a message. *)
Inductive outcome (A : Type) : Type :=
| Done (a : A)
| Panic (r : string).
Arguments Done {A} a.
Arguments Panic {A} r.

Definition bind {A B : Type} (o : outcome A) (f : A -> outcome B) : outcome B :=
  match o with
  | Done a => f a
  | Panic r => Panic r
  end.

(** The errors of [dsl.go], one constructor per message; [%T] and [%v]
    arguments are kept as the values they print. *)
Inductive error : Type :=
| ErrInvalidBitwise (op : string) (lv rv : value)
| ErrNegativeShift
| ErrUnknownBitwise (op : string)
| ErrInvalidUnaryMinus (rv : value)
| ErrInvalidUnaryCompl (rv : value)
| ErrUnknownUnary (op : string)
| ErrDivByZero
| ErrInvalidComparison (lv rv : value)
| ErrFuncNotFound (name : string)
| ErrMethodNotFound (name : string) (obj : value)
| ErrArgsAtLeast (name : string) (want got : Z)
| ErrArgs (name : string) (want got : Z)
| ErrArgConvert (name : string) (i : Z) (arg : value) (t : rtype)
| ErrPanicCalling (name : string) (r : string)
| ErrHost (msg : string)
| ErrUnquote
| ErrUnterminatedString
| ErrStackOverflow
| ErrMissingRParen (pos : Z)
| ErrUnexpectedToken (val : string)
| ErrMissingColon (pos : Z)
| ErrMissingRBracket (pos : Z)
| ErrMissingRParenArgs
| ErrExtraToken (val : string) (pos : Z)
| ErrTrailingToken (val : string) (pos : Z)
| ErrPanic (r : string)
| ErrEmptyFuncName
| ErrNilFunc.

(** A Go result [(any, error)]. *)
Definition result : Type := value * option error.

Definition ok (v : value) : outcome result := Done (v, None).
Definition fail (e : error) : outcome result := Done (VNil, Some e).

(** [type CustomFunc func(args []any) (any, error)]. *)
Abbreviation CustomFunc := (list value -> outcome result) (only parsing).

(** What a reflective call [mv.Call(in)] gives back: a panic, or the
    returned values together with a description of the last one when the
    signature's last result type implements [error]. *)
Inductive last_out : Type :=
| LastNotError
| LastErrNil
| LastErr (e : error)
| LastNotNillable.

Inductive call_result : Type :=
| CallPanic (r : string)
| CallReturn (outs : list value) (last : last_out).

(** A method value [mv] obtained by [MethodByName]. *)
Record method : Type := mkMethod {
  mIn : list rtype;            (* mType.In(i) *)
  mVariadic : bool;            (* mType.IsVariadic() *)
  mElem : rtype;               (* mType.In(numIn-1).Elem() when variadic *)
  mNumOut : nat;               (* mType.NumOut() *)
  mCall : list value -> call_result }.

(** Facts about the host program and the Go runtime that the source
    obtains through [reflect], [fmt], [unicode] and [time]. *)
Record Host : Type := mkHost {
  (* reflect.ValueOf(v).MethodByName(name) *)
  hMethodByName : value -> string -> option method;
  (* reflect.ValueOf(v).Type().AssignableTo(t) *)
  hAssignableTo : value -> rtype -> bool;
  (* reflect.ValueOf(v).Type().ConvertibleTo(t) *)
  hConvertibleTo : value -> rtype -> bool;
  (* reflect.ValueOf(v).Convert(t) *)
  hConvert : value -> rtype -> outcome value;
  (* reflect.Zero(t) *)
  hZero : rtype -> value;
  (* equality of two map keys that are not both predeclared scalars *)
  hKeyEqual : value -> value -> bool;
  (* reflect.DeepEqual on values other than predeclared scalars *)
  hDeepEqual : value -> value -> bool;
  (* fmt.Sprint on values other than nil, bool, integers and string *)
  hSprint : value -> string;
  (* strconv.IsPrint above Latin-1 *)
  hIsPrint : Z -> bool;
  (* strings.Map(unicode.ToLower, s) *)
  hUnicodeLower : string -> string;
  (* time.Now().Unix() *)
  hNow : Z }.

(* ================================================================== *)
(** ** Coercions ([toInt64], [toFloat], [toBool]) *)
(* ================================================================== *)

(** [rv.Int()] / [rv.Uint()] / [rv.Float()]: the number stored in a value. *)
Definition intOf (v : value) : Z :=
  match unname v with VInt _ n => n | _ => 0 end.

Definition floatOf (v : value) : float64 :=
  match unname v with VFloat _ f => f | _ => f64_zero end.

Definition toInt64 (v : value) : Z * bool :=
  if isNil v then (0, false)
  else
    match kindOf v with
    | Int | Int8 | Int16 | Int32 | Int64 => (intOf v, true)
    | Uint | Uint8 | Uint16 | Uint32 | Uint64 => (wrap64 (intOf v), true)
    | _ => (0, false)
    end.

(** The type assertions [v.(string)] and [v.(bool)]. *)
Definition asString (v : value) : option string :=
  match v with VString s => Some s | _ => None end.

Definition asBool (v : value) : option bool :=
  match v with VBool b => Some b | _ => None end.

Definition toFloat (v : value) : float64 * bool :=
  let '(i, okI) := toInt64 v in
  if okI then (f64_of_int i, true)
  else
    match kindOf v with
    | Float32 | Float64 => (floatOf v, true)
    | _ =>
        match asString v with
        | Some s => ParseFloat s
        | None => (f64_zero, false)
        end
    end.

Definition toBool (v : value) : bool :=
  if isNil v then false
  else
    match asBool v with
    | Some b => b
    | None =>
        match asString v with
        | Some s => negb (String.eqb s "") && negb (String.eqb s "false")
        | None => negb (f64_eqb (fst (toFloat v)) f64_zero)
        end
    end.

(* ================================================================== *)
(** ** Arithmetic, comparison and bitwise operators *)
(* ================================================================== *)

Definition VInt64 (n : Z) : value := VInt Int64 n.
Definition VFloat64 (f : float64) : value := VFloat Float64 f.

Definition evalMath (lv rv : value) (op : ascii) : outcome result :=
  let '(li, okL) := toInt64 lv in
  let '(ri, okR) := toInt64 rv in
  let float_path :=
    let lf := fst (toFloat lv) in
    let rf := fst (toFloat rv) in
    if Ascii.eqb op "+" then ok (VFloat64 (f64_add lf rf))
    else if Ascii.eqb op "-" then ok (VFloat64 (f64_sub lf rf))
    else if Ascii.eqb op "*" then ok (VFloat64 (f64_mul lf rf))
    else if Ascii.eqb op "/" then
      if f64_eqb rf f64_zero then fail ErrDivByZero
      else ok (VFloat64 (f64_div lf rf))
    else ok VNil in
  if okL && okR then
    if Ascii.eqb op "+" then ok (VInt64 (wrap64 (li + ri)))
    else if Ascii.eqb op "-" then ok (VInt64 (wrap64 (li - ri)))
    else if Ascii.eqb op "*" then ok (VInt64 (wrap64 (li * ri)))
    else if Ascii.eqb op "/" then
      if ri =? 0 then fail ErrDivByZero
      else ok (VInt64 (wrap64 (Z.quot li ri)))
    else if Ascii.eqb op "%" then
      if ri =? 0 then fail ErrDivByZero
      else ok (VInt64 (Z.rem li ri))
    else float_path
  else float_path.

(** [compare] returns [(bool, error)]; [InfixExpr.Eval] hands the pair on
    as [(any, error)], so a failed comparison carries [false]. *)
Definition compare (lv rv : value) (op : string) : outcome result :=
  let '(lf, okL) := toFloat lv in
  let '(rf, okR) := toFloat rv in
  if negb okL || negb okR then Done (VBool false, Some (ErrInvalidComparison lv rv))
  else if String.eqb op ">" then ok (VBool (f64_ltb rf lf))
  else if String.eqb op "<" then ok (VBool (f64_ltb lf rf))
  else if String.eqb op ">=" then ok (VBool (f64_leb rf lf))
  else if String.eqb op "<=" then ok (VBool (f64_leb lf rf))
  else ok (VBool false).

(** [li << uint64(ri)] and [li >> uint64(ri)] for [ri >= 0]: a count of
    64 or more shifts every bit out. *)
Definition shl64 (li ri : Z) : Z :=
  if 64 <=? ri then 0 else wrap64 (Z.shiftl li ri).

Definition shr64 (li ri : Z) : Z :=
  if 64 <=? ri then (if li <? 0 then -1 else 0) else Z.shiftr li ri.

Definition evalBitwise (lv rv : value) (op : string) : outcome result :=
  let '(li, okL) := toInt64 lv in
  let '(ri, okR) := toInt64 rv in
  if negb okL || negb okR then fail (ErrInvalidBitwise op lv rv)
  else if String.eqb op "&" then ok (VInt64 (Z.land li ri))
  else if String.eqb op "|" then ok (VInt64 (Z.lor li ri))
  else if String.eqb op "^" then ok (VInt64 (Z.lxor li ri))
  else if String.eqb op "<<" then
    if ri <? 0 then fail ErrNegativeShift else ok (VInt64 (shl64 li ri))
  else if String.eqb op ">>" then
    if ri <? 0 then fail ErrNegativeShift else ok (VInt64 (shr64 li ri))
  else fail (ErrUnknownBitwise op).

(** [reflect.DeepEqual] and [fmt.Sprint]: decided here on nil and on the
    predeclared scalars, asked of the host otherwise. *)
Definition isScalar (v : value) : bool :=
  match v with
  | VNil | VBool _ | VInt _ _ | VFloat _ _ | VString _ => true
  | _ => false
  end.

Definition DeepEqual (h : Host) (a b : value) : bool :=
  match a, b with
  | VNil, VNil => true
  | VBool x, VBool y => Bool.eqb x y
  | VInt k x, VInt k' y => kind_eqb k k' && (x =? y)
  | VFloat k x, VFloat k' y => kind_eqb k k' && f64_eqb x y
  | VString x, VString y => String.eqb x y
  | _, _ => if isScalar a || isScalar b then false else hDeepEqual h a b
  end.

Definition Sprint (h : Host) (v : value) : string :=
  match v with
  | VNil => "<nil>"
  | VBool b => if b then "true" else "false"
  | VInt _ n => FormatInt n
  | VString s => s
  | _ => hSprint h v
  end.

(* ================================================================== *)
(** ** Reflection: struct metadata, member lookup, method calls *)
(* ================================================================== *)

(** [tag[:strings.Index(tag, ",")]], or the whole tag without a comma. *)
Fixpoint before_comma (s : string) : string :=
  match s with
  | EmptyString => EmptyString
  | String c s' => if Ascii.eqb c "," then EmptyString else String c (before_comma s')
  end.

(** The alternate name [getStructMeta] registers for a field, if any. *)
Definition tagName (f : field) : option string :=
  let tag := if String.eqb (fTagOkra f) "" then fTagJson f else fTagOkra f in
  if negb (String.eqb tag "") && negb (String.eqb tag "-")
  then Some (before_comma tag) else None.

(** The [fields] table of [getStructMeta]: later entries overwrite. *)
Fixpoint metaFields (fs : list (field * value)) (i : nat) (m : gmap string nat)
  : gmap string nat :=
  match fs with
  | [] => m
  | (f, _) :: fs' =>
      let m1 := <[fName f := i]> m in
      let m2 := match tagName f with
                | Some t => <[t := i]> m1
                | None => m1
                end in
      metaFields fs' (S i) m2
  end.

Definition structFields (v : value) : list (field * value) :=
  match unname v with VStruct fs => fs | _ => [] end.

Definition elemsOf (v : value) : list value :=
  match unname v with VSlice xs | VArray xs => xs | _ => [] end.

Definition mapEntries (v : value) : list (value * value) :=
  match unname v with VMap _ m => m | _ => [] end.

(** [rv.Type().Key()]. *)
Definition mapKeyType (v : value) : rtype :=
  match unname v with VMap kt _ => kt | _ => mkType "" Invalid end.

Section Reflection.

Context (h : Host).

Definition keyEq (a b : value) : bool :=
  match a, b with
  | VBool x, VBool y => Bool.eqb x y
  | VInt k x, VInt k' y => kind_eqb k k' && (x =? y)
  | VFloat k x, VFloat k' y => kind_eqb k k' && f64_eqb x y
  | VString x, VString y => String.eqb x y
  | _, _ => if isScalar a || isScalar b then false else hKeyEqual h a b
  end.

(** [rv.MapIndex(kv)]: [None] is the invalid [reflect.Value]. *)
Fixpoint mapIndex (m : list (value * value)) (kv : value) : option value :=
  match m with
  | [] => None
  | (k, v) :: m' => if keyEq k kv then Some v else mapIndex m' kv
  end.

(** [rv.Field(idx).Interface()] panics on an unexported field. *)
Definition fieldInterface (fs : list (field * value)) (idx : nat) : outcome result :=
  match nth_error fs idx with
  | Some (f, v) =>
      if fExported f then ok v
      else Panic "reflect.Value.Interface: cannot return value obtained from unexported field or method"
  | None => Panic "reflect: Field index out of range"
  end.

(** [meta.methods]: the method names of the struct type and of its
    pointer type. *)
Definition metaMethods (rv : value) (key : string) : bool :=
  bool_decide (is_Some (hMethodByName h rv key))
  || bool_decide (is_Some (hMethodByName h (VPtr (Some rv)) key)).

(** The key [getMember] looks up in a map with key type [kt]: the string
    itself when assignable, else the string parsed as an integer and
    converted; [Done None] is the early [return nil, nil]. *)
Definition memberKey (kt : rtype) (key : string) : outcome (option value) :=
  if hAssignableTo h (VString key) kt then Done (Some (VString key))
  else
    match ParseInt key with
    | (i, NumOk) => bind (hConvert h (VInt64 i) kt) (fun kv => Done (Some kv))
    | _ => Done None
    end.

Definition getMember (obj : value) (key : string) : outcome result :=
  if isNil obj then ok VNil
  else
    match deref obj with
    | None => ok VNil
    | Some (rv, canAddr) =>
        match kindOf rv with
        | Map =>
            bind (memberKey (mapKeyType rv) key) (fun k =>
              match k with
              | None => ok VNil
              | Some kv =>
                  match mapIndex (mapEntries rv) kv with
                  | Some v => ok v
                  | None => ok VNil
                  end
              end)
        | Slice | Array =>
            let '(idx, err) := Atoi key in
            if negb (numerr_ok err) || (idx <? 0) || (lenOf rv <=? idx) then ok VNil
            else ok (nth (Z.to_nat idx) (elemsOf rv) VNil)
        | Struct =>
            let fs := structFields rv in
            match metaFields fs 0 ∅ !! key with
            | Some idx => fieldInterface fs idx
            | None =>
                if metaMethods rv key then
                  let m := hMethodByName h rv key in
                  let m := match m with
                           | None => if canAddr then hMethodByName h (VPtr (Some rv)) key
                                     else None
                           | Some _ => m
                           end in
                  match m with
                  | Some mv =>
                      if (List.length (mIn mv) =? 0)%nat && (0 <? mNumOut mv)%nat then
                        match mCall mv [] with
                        | CallPanic r => Panic r
                        | CallReturn outs _ => ok (hd VNil outs)
                        end
                      else ok VNil
                  | None => ok VNil
                  end
                else ok VNil
            end
        | _ => ok VNil
        end
    end.

(** The argument loop of [callReflectMethod]: [inl e] is the early
    [return nil, err]. *)
Fixpoint convertArgs (name : string) (mv : method) (i : Z) (args : list value)
  : outcome (error + list value) :=
  match args with
  | [] => Done (inr [])
  | arg :: rest =>
      let numIn := Z.of_nat (List.length (mIn mv)) in
      let t := if mVariadic mv && (numIn - 1 <=? i) then mElem mv
               else nth (Z.to_nat i) (mIn mv) (mElem mv) in
      let continue_with (x : value) :=
        bind (convertArgs name mv (i + 1) rest) (fun r =>
          match r with
          | inl e => Done (inl e)
          | inr xs => Done (inr (x :: xs))
          end) in
      if isNil arg then continue_with (hZero h t)
      else if hConvertibleTo h arg t then bind (hConvert h arg t) continue_with
      else Done (inl (ErrArgConvert name i arg t))
  end.

Definition callReflectMethod (obj : value) (name : string) (args : list value)
  : outcome result :=
  if isNil obj then Panic "reflect: call of reflect.Value.MethodByName on zero Value"
  else
    let mv := hMethodByName h obj name in
    let mv := match mv with
              | None =>
                  match kindOf obj with
                  | Pointer => None
                  | _ => hMethodByName h (VPtr (Some obj)) name
                  end
              | Some _ => mv
              end in
    match mv with
    | None => fail (ErrMethodNotFound name obj)
    | Some mv =>
        let numIn := Z.of_nat (List.length (mIn mv)) in
        let nargs := Z.of_nat (List.length args) in
        if mVariadic mv && (nargs <? numIn - 1) then
          fail (ErrArgsAtLeast name (numIn - 1) nargs)
        else if negb (mVariadic mv) && negb (nargs =? numIn) then
          fail (ErrArgs name numIn nargs)
        else
          bind (convertArgs name mv 0 args) (fun r =>
            match r with
            | inl e => fail e
            | inr ins =>
                match mCall mv ins with
                | CallPanic r => fail (ErrPanicCalling name r)
                | CallReturn [] _ => ok VNil
                | CallReturn (o :: os) last =>
                    match os, last with
                    | _ :: _, LastErr e => fail e
                    | _ :: _, LastNotNillable =>
                        Panic "reflect: call of reflect.Value.IsNil on a non-nillable value"
                    | _, _ => ok o
                    end
                end
            end)
    end.

End Reflection.

(* ================================================================== *)
(** ** AST *)
(* ================================================================== *)

Definition MaxStackDepth : Z := 256.

Inductive Expr : Type :=
| LiteralExpr (Value : value)
| VariableExpr (Name : string)
| MemberAccessExpr (Left : Expr) (Key : string) (IsIndex : bool)
| IndexExpr (Left : Expr) (Index : Expr)
| MethodCallExpr (Left : Expr) (Method : string) (Args : list Expr)
| CallExpr (Name : string) (Args : list Expr)
| UnaryExpr (Op : string) (Right : Expr)
| InfixExpr (Left : Expr) (Op : string) (Right : Expr)
| TernaryExpr (Cond : Expr) (Then : Expr) (Else : Expr).

(* ================================================================== *)
(** ** Lexer *)
(* ================================================================== *)

Inductive tokType : Type :=
| tEOF | tNumber | tString | tIdent | tPathKey
| tLParen | tRParen | tComma | tOp.

Definition tokType_eqb (a b : tokType) : bool :=
  match a, b with
  | tEOF, tEOF | tNumber, tNumber | tString, tString | tIdent, tIdent
  | tPathKey, tPathKey | tLParen, tLParen | tRParen, tRParen
  | tComma, tComma | tOp, tOp => true
  | _, _ => false
  end.

Record token : Type := mkToken { typ : tokType; val : string; pos : Z }.

(** The lexer state [{s, pos}], kept as the unread text [s[pos:]] and
    the offset [pos]. *)
Record lexer : Type := mkLexer { lexRest : string; lexPos : Z }.

(** Longest prefix whose bytes satisfy [f], and what follows it. *)
Fixpoint span (f : ascii -> bool) (s : string) : string * string :=
  match s with
  | EmptyString => (EmptyString, EmptyString)
  | String c s' =>
      if f c then let '(a, b) := span f s' in (String c a, b)
      else (EmptyString, s)
  end.

(** The loop that reads a quoted string; [sb] is the builder, reversed
    appends written as concatenation.  Each round consumes at least one
    byte, so [fuel] may be the length of the text.  The result gives the
    decoded text and the rest after the closing quote, or the error and
    the rest at which it arose. *)
Fixpoint lexString (fuel : nat) (q : ascii) (s : string) (sb : string)
  : (string + error) * string :=
  match fuel with
  | O => (inr ErrUnterminatedString, s)
  | S fuel' =>
      match s with
      | EmptyString => (inr ErrUnterminatedString, s)
      | String c t =>
          if Ascii.eqb c q then (inl sb, t)
          else if Ascii.eqb c "\" then
            match t with
            | String c1 t1 =>
                if Ascii.eqb c1 q
                then lexString fuel' q t1 (sb +:+ String q EmptyString)
                else
                  match UnquoteChar s q with
                  | None => (inr ErrUnquote, s)
                  | Some (v, tail) => lexString fuel' q tail (sb +:+ EncodeRune v)
                  end
            | EmptyString =>
                match UnquoteChar s q with
                | None => (inr ErrUnquote, s)
                | Some (v, tail) => lexString fuel' q tail (sb +:+ EncodeRune v)
                end
            end
          else lexString fuel' q t (sb +:+ String c EmptyString)
      end
  end.

Definition two_char_ops : list string :=
  ["=="; "!="; "<="; ">="; "&&"; "||"; "<<"; ">>"].

(** The lexer after reading up to the text [rest'], given it started the
    token at [l]. *)
Definition lexer_at (l : lexer) (rest' : string) : lexer :=
  mkLexer rest' (lexPos l + str_len (lexRest l) - str_len rest').

Definition nextToken (l : lexer) : (token + error) * lexer :=
  let '(_, s0) := span IsSpace (lexRest l) in
  let l0 := lexer_at l s0 in
  match s0 with
  | EmptyString => (inl (mkToken tEOF "" (lexPos l0)), l0)
  | String r s1 =>
      let start := lexPos l0 in
      if IsDigit r then
        let '(ds, s2) := span (fun c => IsDigit c || Ascii.eqb c ".") s1 in
        (inl (mkToken tNumber (String r ds) start), lexer_at l0 s2)
      else if IsLetter r || Ascii.eqb r "_" then
        let '(cs, s2) := span (fun c => IsLetter c || IsDigit c || Ascii.eqb c "_") s1 in
        (inl (mkToken tIdent (String r cs) start), lexer_at l0 s2)
      else if Ascii.eqb r dquote || Ascii.eqb r "'" then
        match lexString (String.length s1) r s1 "" with
        | (inl sb, s2) => (inl (mkToken tString sb start), lexer_at l0 s2)
        | (inr e, s2) => (inr e, lexer_at l0 s2)
        end
      else if Ascii.eqb r "[" then (inl (mkToken tOp "[" start), lexer_at l0 s1)
      else if Ascii.eqb r "]" then (inl (mkToken tOp "]" start), lexer_at l0 s1)
      else if Ascii.eqb r "(" then (inl (mkToken tLParen "(" start), lexer_at l0 s1)
      else if Ascii.eqb r ")" then (inl (mkToken tRParen ")" start), lexer_at l0 s1)
      else if Ascii.eqb r "," then (inl (mkToken tComma "," start), lexer_at l0 s1)
      else if Ascii.eqb r "." then (inl (mkToken tOp "." start), lexer_at l0 s1)
      else
        match find (HasPrefix s0) two_char_ops with
        | Some op => (inl (mkToken tOp op start), lexer_at l0 (str_drop 2 s0))
        | None => (inl (mkToken tOp (EncodeRune (byte_val r)) start), lexer_at l0 s1)
        end
  end.

(* ================================================================== *)
(** ** Parser *)
(* ================================================================== *)

Record parser : Type := mkParser {
  lex : lexer; curr : token; next : token; lexErr : option error }.

Definition zeroToken : token := mkToken tEOF "" 0.

Definition newParser (s : string) : parser :=
  mkParser (mkLexer s 0) zeroToken zeroToken None.

Definition advance (p : parser) : parser :=
  match lexErr p with
  | Some _ => mkParser (lex p) (next p) (mkToken tEOF "" (lexPos (lex p))) (lexErr p)
  | None =>
      match nextToken (lex p) with
      | (inr e, l') => mkParser l' (next p) (mkToken tEOF "" (lexPos l')) (Some e)
      | (inl n, l') => mkParser l' (next p) n None
      end
  end.

Definition lbp (t : token) : Z :=
  match typ t with
  | tOp =>
      let v := val t in
      if String.eqb v "." then 100
      else if String.eqb v "[" then 100
      else if existsb (String.eqb v) ["*"; "/"; "%"; "<<"; ">>"; "&"] then 50
      else if existsb (String.eqb v) ["+"; "-"; "|"; "^"] then 40
      else if existsb (String.eqb v) ["<"; ">"; "<="; ">="] then 35
      else if existsb (String.eqb v) ["=="; "!="] then 30
      else if String.eqb v "&&" then 20
      else if String.eqb v "||" then 10
      else if String.eqb v "?" then 5
      else 0
  | _ => 0
  end.

(** Result of a parsing step: the value and the parser after it, an
    error, or exhausted fuel. *)
Inductive presult (A : Type) : Type :=
| POk (a : A) (p : parser)
| PErr (e : error)
| PFuel.
Arguments POk {A} a p.
Arguments PErr {A} e.
Arguments PFuel {A}.

Definition pbind {A B : Type} (r : presult A) (f : A -> parser -> presult B)
  : presult B :=
  match r with
  | POk a p => f a p
  | PErr e => PErr e
  | PFuel => PFuel
  end.

Definition isOp (t : token) (v : string) : bool :=
  tokType_eqb (typ t) tOp && String.eqb (val t) v.

Section ParserSteps.

(** The recursive calls [p.parse(rbp, depth)] and [p.parseArgs(depth)]
    as seen from [nud] and [led]. *)
Context (parse_rec : Z -> Z -> parser -> presult Expr).
Context (parseArgs_rec : Z -> parser -> presult (list Expr)).

Definition nud (t : token) (depth : Z) (p : parser) : presult Expr :=
  match typ t with
  | tNumber =>
      if contains_byte "." (val t)
      then POk (LiteralExpr (VFloat64 (fst (ParseFloat (val t))))) p
      else POk (LiteralExpr (VInt64 (fst (ParseInt (val t))))) p
  | tString => POk (LiteralExpr (VString (val t))) p
  | tIdent =>
      if String.eqb (val t) "true" then POk (LiteralExpr (VBool true)) p
      else if String.eqb (val t) "false" then POk (LiteralExpr (VBool false)) p
      else if tokType_eqb (typ (curr p)) tLParen then
        pbind (parseArgs_rec depth (advance p)) (fun args p' =>
          POk (CallExpr (val t) args) p')
      else POk (VariableExpr (val t)) p
  | tLParen =>
      pbind (parse_rec 0 (depth + 1) p) (fun e p' =>
        if negb (tokType_eqb (typ (curr p')) tRParen)
        then PErr (ErrMissingRParen (pos (curr p')))
        else POk e (advance p'))
  | tOp =>
      if existsb (String.eqb (val t)) ["!"; "-"; "~"] then
        pbind (parse_rec 60 (depth + 1) p) (fun right p' =>
          POk (UnaryExpr (val t) right) p')
      else PErr (ErrUnexpectedToken (val t))
  | _ => PErr (ErrUnexpectedToken (val t))
  end.

(** The index form shared by [a[i]] and [a.[i]]. *)
Definition ledIndex (left : Expr) (depth : Z) (p : parser) : presult Expr :=
  pbind (parse_rec 0 (depth + 1) p) (fun idxExpr p' =>
    if negb (isOp (curr p') "]")
    then PErr (ErrMissingRBracket (pos (curr p')))
    else POk (IndexExpr left idxExpr) (advance p')).

Definition led (t : token) (left : Expr) (depth : Z) (p : parser) : presult Expr :=
  if String.eqb (val t) "?" then
    pbind (parse_rec 0 (depth + 1) p) (fun thenExpr p' =>
      if negb (isOp (curr p') ":")
      then PErr (ErrMissingColon (pos (curr p')))
      else
        pbind (parse_rec (lbp t - 1) (depth + 1) (advance p')) (fun elseExpr p'' =>
          POk (TernaryExpr left thenExpr elseExpr) p''))
  else if String.eqb (val t) "[" then ledIndex left depth p
  else if String.eqb (val t) "." then
    if isOp (curr p) "[" then ledIndex left depth (advance p)
    else
      let member := val (curr p) in
      let p1 := advance p in
      if tokType_eqb (typ (curr p1)) tLParen then
        pbind (parseArgs_rec depth (advance p1)) (fun args p' =>
          POk (MethodCallExpr left member args) p')
      else POk (MemberAccessExpr left member false) p1
  else
    pbind (parse_rec (lbp t) (depth + 1) p) (fun right p' =>
      POk (InfixExpr left (val t) right) p').

End ParserSteps.

(** [parse], its operator loop and the loop of [parseArgs].  Each nested
    call and each loop round consumes at least one token first, so one
    fuel counter bounds them all ([parse_total] below). *)
Fixpoint parse (n : nat) (rbp depth : Z) (p : parser) {struct n} : presult Expr :=
  match n with
  | O => PFuel
  | S n' =>
      if MaxStackDepth <? depth then PErr ErrStackOverflow
      else
        match lexErr p with
        | Some e => PErr e
        | None =>
            let t := curr p in
            let p1 := advance p in
            match lexErr p1 with
            | Some e => PErr e
            | None =>
                pbind (nud (parse n') (fun d q => parseArgs n' d [] q) t depth p1)
                      (fun left p2 => parseLoop n' rbp depth left p2)
            end
        end
  end

with parseLoop (n : nat) (rbp depth : Z) (left : Expr) (p : parser) {struct n}
  : presult Expr :=
  match n with
  | O => PFuel
  | S n' =>
      if rbp <? lbp (curr p) then
        let t := curr p in
        let p1 := advance p in
        match lexErr p1 with
        | Some e => PErr e
        | None =>
            pbind (led (parse n') (fun d q => parseArgs n' d [] q) t left depth p1)
                  (fun left' p2 => parseLoop n' rbp depth left' p2)
        end
      else POk left p
  end

with parseArgs (n : nat) (depth : Z) (args : list Expr) (p : parser) {struct n}
  : presult (list Expr) :=
  match n with
  | O => PFuel
  | S n' =>
      if negb (tokType_eqb (typ (curr p)) tRParen)
         && negb (tokType_eqb (typ (curr p)) tEOF) then
        pbind (parse n' 0 (depth + 1) p) (fun a p1 =>
          let p2 := if tokType_eqb (typ (curr p1)) tComma then advance p1 else p1 in
          parseArgs n' depth (args ++ [a]) p2)
      else if negb (tokType_eqb (typ (curr p)) tRParen) then PErr ErrMissingRParenArgs
      else POk args (advance p)
  end.

(** Fuel for a parse of the text [s]: more than twice its number of
    tokens. *)
Definition parseFuel (s : string) : nat := (2 * String.length s + 4)%nat.

Definition ParseExpr (s : string) : presult Expr :=
  let p := advance (advance (newParser s)) in
  match parse (parseFuel s) 0 0 p with
  | POk ast p' =>
      if negb (tokType_eqb (typ (curr p')) tEOF)
      then PErr (ErrExtraToken (val (curr p')) (pos (curr p')))
      else POk ast p'
  | r => r
  end.

(* ================================================================== *)
(** ** Evaluation *)
(* ================================================================== *)

Record Context : Type := mkContext {
  Data : value;
  Fns : gmap string CustomFunc }.

Section Evaluation.

Context (h : Host).

(** The key an [IndexExpr] looks up in a map with key type [kt]:
    [Done None] is the early [return nil, nil]. *)
Definition indexKey (kt : rtype) (idx : value) : outcome (option value) :=
  let some (o : outcome value) := bind o (fun kv => Done (Some kv)) in
  if isNil idx then Done (Some (hZero h kt))
  else if hAssignableTo h idx kt then Done (Some idx)
  else if hConvertibleTo h idx kt then some (hConvert h idx kt)
  else
    match asString idx with
    | Some s =>
        match tKind kt with
        | Int | Int8 | Int16 | Int32 | Int64 =>
            match ParseInt s with
            | (i, NumOk) => some (hConvert h (VInt64 i) kt)
            | _ => Done None
            end
        | Uint | Uint8 | Uint16 | Uint32 | Uint64 =>
            match ParseUint s with
            | (u, NumOk) => some (hConvert h (VInt Uint64 u) kt)
            | _ => Done None
            end
        | _ => Done None
        end
    | None => Done None
    end.

(** [IndexExpr.Eval] once receiver and index are evaluated. *)
Definition indexValue (obj idx : value) : outcome result :=
  match deref obj with
  | None => ok VNil
  | Some (rv, _) =>
      match kindOf rv with
      | Slice | Array =>
          let '(i, iok) := toInt64 idx in
          if negb iok then ok VNil
          else if (i <? 0) || (lenOf rv <=? i) then ok VNil
          else ok (nth (Z.to_nat i) (elemsOf rv) VNil)
      | Map =>
          bind (indexKey (mapKeyType rv) idx) (fun k =>
            match k with
            | None => ok VNil
            | Some kv =>
                match mapIndex h (mapEntries rv) kv with
                | Some v => ok v
                | None => ok VNil
                end
            end)
      | _ => ok VNil
      end
  end.

(** The zero-argument [len] pseudo-method of [MethodCallExpr.Eval]:
    [Some r] is its early return, [None] falls through to the call. *)
Definition lenMethod (obj : value) : option result :=
  match deref obj with
  | None => Some (VInt64 0, None)
  | Some (rv, _) =>
      match kindOf rv with
      | Slice | Array | Map | String_ => Some (VInt64 (lenOf rv), None)
      | _ => None
      end
  end.

Definition evalUnary (op : string) (rv : value) : outcome result :=
  if String.eqb op "!" then ok (VBool (negb (toBool rv)))
  else if String.eqb op "-" then
    let '(i, iok) := toInt64 rv in
    if iok then ok (VInt64 (wrap64 (- i)))
    else
      let '(f, fok) := toFloat rv in
      if fok then ok (VFloat64 (f64_neg f))
      else fail (ErrInvalidUnaryMinus rv)
  else if String.eqb op "~" then
    let '(i, iok) := toInt64 rv in
    if negb iok then fail (ErrInvalidUnaryCompl rv)
    else ok (VInt64 (Z.lnot i))
  else fail (ErrUnknownUnary op).

(** The [switch e.Op] of [InfixExpr.Eval], both operands evaluated. *)
Definition evalInfix (op : string) (lv rv : value) : outcome result :=
  if String.eqb op "==" then
    if DeepEqual h lv rv then ok (VBool true)
    else
      let '(lf, okL) := toFloat lv in
      let '(rf, okR) := toFloat rv in
      if okL && okR then ok (VBool (f64_eqb lf rf)) else ok (VBool false)
  else if String.eqb op "!=" then
    if DeepEqual h lv rv then ok (VBool false)
    else
      let '(lf, okL) := toFloat lv in
      let '(rf, okR) := toFloat rv in
      if okL && okR then ok (VBool (negb (f64_eqb lf rf))) else ok (VBool true)
  else if String.eqb op "+" then
    match asString lv with
    | Some ls => ok (VString (ls +:+ Sprint h rv))
    | None => evalMath lv rv "+"
    end
  else if String.eqb op "-" then evalMath lv rv "-"
  else if String.eqb op "*" then evalMath lv rv "*"
  else if String.eqb op "/" then evalMath lv rv "/"
  else if String.eqb op "%" then evalMath lv rv "%"
  else if existsb (String.eqb op) [">"; "<"; ">="; "<="] then compare lv rv op
  else if existsb (String.eqb op) ["&"; "|"; "^"; "<<"; ">>"] then evalBitwise lv rv op
  else ok VNil.

(** [v, err := x.Eval(ctx); if err != nil { return nil, err }]. *)
Definition try (o : outcome result) (k : value -> outcome result) : outcome result :=
  bind o (fun r =>
    match r with
    | (_, Some e) => fail e
    | (v, None) => k v
    end).

Fixpoint Eval (ctx : Context) (e : Expr) {struct e} : outcome result :=
  let evalArgs :=
    fix evalArgs (args : list Expr) : outcome (error + list value) :=
      match args with
      | [] => Done (inr [])
      | a :: rest =>
          bind (Eval ctx a) (fun r =>
            match r with
            | (_, Some err) => Done (inl err)
            | (v, None) =>
                bind (evalArgs rest) (fun vs =>
                  match vs with
                  | inl err => Done (inl err)
                  | inr vs => Done (inr (v :: vs))
                  end)
            end)
      end in
  let withArgs (args : list Expr) (k : list value -> outcome result) :=
    bind (evalArgs args) (fun r =>
      match r with
      | inl err => fail err
      | inr vs => k vs
      end) in
  match e with
  | LiteralExpr v => ok v
  | VariableExpr name => getMember h (Data ctx) name
  | MemberAccessExpr lhs key _ =>
      try (Eval ctx lhs) (fun v =>
        if isNil v then ok VNil else getMember h v key)
  | IndexExpr lhs index =>
      try (Eval ctx lhs) (fun obj =>
        if isNil obj then ok VNil
        else try (Eval ctx index) (fun idx => indexValue obj idx))
  | MethodCallExpr lhs meth args =>
      try (Eval ctx lhs) (fun obj =>
        if isNil obj then ok VNil
        else
          let call := withArgs args (fun vs => callReflectMethod h obj meth vs) in
          if String.eqb meth "len" && (List.length args =? 0)%nat then
            match lenMethod obj with
            | Some r => Done r
            | None => call
            end
          else call)
  | CallExpr name args =>
      match Fns ctx !! ToLower (hUnicodeLower h) name with
      | Some fn => withArgs args fn
      | None =>
          if negb (isNil (Data ctx)) then
            withArgs args (fun vs =>
              bind (callReflectMethod h (Data ctx) name vs) (fun r =>
                match r with
                | (res, None) => ok res
                | (_, Some _) => fail (ErrFuncNotFound name)
                end))
          else fail (ErrFuncNotFound name)
      end
  | UnaryExpr op rhs =>
      try (Eval ctx rhs) (fun rv => evalUnary op rv)
  | InfixExpr lhs op rhs =>
      try (Eval ctx lhs) (fun lv =>
        if String.eqb op "&&" then
          if negb (toBool lv) then ok (VBool false)
          else try (Eval ctx rhs) (fun rv => ok (VBool (toBool rv)))
        else if String.eqb op "||" then
          if toBool lv then ok (VBool true)
          else try (Eval ctx rhs) (fun rv => ok (VBool (toBool rv)))
        else try (Eval ctx rhs) (fun rv => evalInfix op lv rv))
  | TernaryExpr cond thn els =>
      try (Eval ctx cond) (fun c =>
        if toBool c then Eval ctx thn else Eval ctx els)
  end.

End Evaluation.

(* ================================================================== *)
(** ** Canonical text of a node ([String]) *)
(* ================================================================== *)

Section Printing.

Context (h : Host).

(** [strings.Join(args, ", ")]. *)
Fixpoint join (sep : string) (l : list string) : string :=
  match l with
  | [] => ""
  | [x] => x
  | x :: rest => x +:+ sep +:+ join sep rest
  end.

Fixpoint ExprString (e : Expr) : string :=
  match e with
  | LiteralExpr v =>
      match asString v with
      | Some s => Quote (hIsPrint h) s
      | None => Sprint h v
      end
  | VariableExpr name => name
  | MemberAccessExpr lhs key isIndex =>
      if isIndex then ExprString lhs +:+ "[" +:+ key +:+ "]"
      else ExprString lhs +:+ "." +:+ key
  | IndexExpr lhs index => ExprString lhs +:+ "[" +:+ ExprString index +:+ "]"
  | MethodCallExpr lhs meth args =>
      ExprString lhs +:+ "." +:+ meth +:+ "(" +:+ join ", " (map ExprString args) +:+ ")"
  | CallExpr name args => name +:+ "(" +:+ join ", " (map ExprString args) +:+ ")"
  | UnaryExpr op rhs => "(" +:+ op +:+ ExprString rhs +:+ ")"
  | InfixExpr lhs op rhs =>
      "(" +:+ ExprString lhs +:+ " " +:+ op +:+ " " +:+ ExprString rhs +:+ ")"
  | TernaryExpr c t e' =>
      "(" +:+ ExprString c +:+ " ? " +:+ ExprString t +:+ " : " +:+ ExprString e' +:+ ")"
  end.

End Printing.

(* ================================================================== *)
(** ** Engine *)
(* ================================================================== *)

(** [Engine{funcs atomic.Value}]: [None] is the zero engine, whose
    registry has never been stored. *)
Record Engine : Type := mkEngine { funcs : option (gmap string CustomFunc) }.

Section EngineOps.

Context (h : Host).

Definition builtinLen : CustomFunc := fun args =>
  match args with
  | [] => ok (VInt Int 0)
  | a :: _ =>
      match kindOf a with
      | Slice | String_ | Map => ok (VInt64 (lenOf a))
      | _ => ok (VInt64 0)
      end
  end.

Definition builtinNow : CustomFunc := fun _ => ok (VInt64 (hNow h)).

Definition defaultFuncs : gmap string CustomFunc :=
  <["len" := builtinLen]> (<["now" := builtinNow]> ∅).

Definition loadFuncs (e : Engine) : gmap string CustomFunc :=
  match funcs e with
  | Some m => m
  | None => defaultFuncs
  end.

Definition NewEngine : Engine := mkEngine (Some defaultFuncs).

(** [RegisterFunc]; a nil [fn] is [None]. *)
Definition RegisterFunc (e : Engine) (name : string) (fn : option CustomFunc)
  : Engine * option error :=
  if String.eqb name "" then (e, Some ErrEmptyFuncName)
  else
    match fn with
    | None => (e, Some ErrNilFunc)
    | Some f => (mkEngine (Some (<[name := f]> (loadFuncs e))), None)
    end.

(** The deferred [recover] of [Engine.Eval]. *)
Definition recovered (o : outcome result) : result :=
  match o with
  | Done r => r
  | Panic r => (VNil, Some (ErrPanic r))
  end.

(** [Engine.Eval]; [None] only if the parser ran out of fuel. *)
Definition EngineEval (e : Engine) (exprStr : string) (data : value)
  : option result :=
  let p := advance (advance (newParser exprStr)) in
  match parse (parseFuel exprStr) 0 0 p with
  | PFuel => None
  | PErr err => Some (VNil, Some err)
  | POk ast p' =>
      if negb (tokType_eqb (typ (curr p')) tEOF)
      then Some (VNil, Some (ErrTrailingToken (val (curr p')) (pos (curr p'))))
      else Some (recovered (Eval h (mkContext data (loadFuncs e)) ast))
  end.

End EngineOps.

(* ================================================================== *)
(** ** A host: the types of [dsl_test.go] *)
(* ================================================================== *)

Module Fixture.

Definition tString : rtype := mkType "string" String_.
Definition tInt : rtype := mkType "int" Int.
Definition tAny : rtype := mkType "interface {}" Interface.

Definition kindName (k : kind) : string :=
  match k with
  | Bool => "bool" | Int => "int" | Int8 => "int8" | Int16 => "int16"
  | Int32 => "int32" | Int64 => "int64" | Uint => "uint" | Uint8 => "uint8"
  | Uint16 => "uint16" | Uint32 => "uint32" | Uint64 => "uint64"
  | Uintptr => "uintptr" | Float32 => "float32" | Float64 => "float64"
  | String_ => "string" | _ => ""
  end.

Definition typeName (v : value) : string :=
  match v with
  | VBool _ => "bool"
  | VInt k _ | VFloat k _ => kindName k
  | VString _ => "string"
  | VNamed t _ => t
  | _ => ""
  end.

Definition isIntKind (k : kind) : bool :=
  match k with
  | Int | Int8 | Int16 | Int32 | Int64
  | Uint | Uint8 | Uint16 | Uint32 | Uint64 | Uintptr => true
  | _ => false
  end.

Definition isFloatKind (k : kind) : bool :=
  match k with Float32 | Float64 => true | _ => false end.

(** Range of an integer kind on a 64-bit platform: bits and signedness. *)
Definition intBits (k : kind) : Z * bool :=
  match k with
  | Int8 => (8, true) | Int16 => (16, true) | Int32 => (32, true)
  | Uint8 => (8, false) | Uint16 => (16, false) | Uint32 => (32, false)
  | Uint | Uint64 | Uintptr => (64, false)
  | _ => (64, true)
  end.

Definition wrapKind (k : kind) (z : Z) : Z :=
  let '(bits, signed) := intBits k in
  if signed then (z + 2 ^ (bits - 1)) mod 2 ^ bits - 2 ^ (bits - 1)
  else z mod 2 ^ bits.

Definition assignable (v : value) (t : rtype) : bool :=
  kind_eqb (tKind t) Interface
  || (negb (String.eqb (typeName v) "") && String.eqb (typeName v) (tName t)).

Definition convertible (v : value) (t : rtype) : bool :=
  assignable v t
  || (isIntKind (kindOf v) && (isIntKind (tKind t) || isFloatKind (tKind t)
                               || kind_eqb (tKind t) String_))
  || (isFloatKind (kindOf v) && (isIntKind (tKind t) || isFloatKind (tKind t)))
  || (kind_eqb (kindOf v) String_ && kind_eqb (tKind t) String_).

(** Conversions between the predeclared numeric and string types; a
    conversion that [ConvertibleTo] excludes panics. *)
Definition convert (v : value) (t : rtype) : outcome value :=
  let named (x : value) :=
    if String.eqb (tName t) (kindName (tKind t)) then x else VNamed (tName t) x in
  if assignable v t then Done v
  else if isIntKind (kindOf v) && isIntKind (tKind t) then
    Done (named (VInt (tKind t) (wrapKind (tKind t) (intOf v))))
  else if isIntKind (kindOf v) && isFloatKind (tKind t) then
    Done (named (VFloat (tKind t) (f64_of_int (intOf v))))
  else if isIntKind (kindOf v) && kind_eqb (tKind t) String_ then
    Done (named (VString (EncodeRune (intOf v))))
  else if isFloatKind (kindOf v) && isFloatKind (tKind t) then
    Done (named (VFloat (tKind t) (floatOf v)))
  else if kind_eqb (kindOf v) String_ && kind_eqb (tKind t) String_ then
    Done (named (unname v))
  else Panic "reflect.Value.Convert: value cannot be converted".

Definition zero (t : rtype) : value :=
  match tKind t with
  | Bool => VBool false
  | String_ => VString ""
  | Pointer => VPtr None
  | Interface => VNil
  | k => if isIntKind k then VInt k 0
         else if isFloatKind k then VFloat k f64_zero
         else VOpaque k
  end.

(** [type TestUser struct { Name string `json:"name_tag"`; Age int }]. *)
Definition TestUser (name : string) (age : Z) : value :=
  VNamed "core.TestUser"
    (VStruct [ (mkField "Name" "" "name_tag" true, VString name);
               (mkField "Age" "" "" true, VInt Int age) ]).

Definition userName (u : value) : string :=
  match structFields u with
  | (_, VString s) :: _ => s
  | _ => ""
  end.

Definition strArg (args : list value) (i : nat) : string :=
  match nth i args VNil with VString s => s | _ => "" end.

Definition strArgs (args : list value) : list string :=
  map (fun a => match a with VString s => s | _ => "" end) args.

(** The value-receiver methods of [TestUser]. *)
Definition userMethod (u : value) (name : string) : option method :=
  if String.eqb name "GetName" then
    Some (mkMethod [] false tString 1
            (fun _ => CallReturn [VString (userName u)] LastNotError))
  else if String.eqb name "SayHi" then
    Some (mkMethod [tString] false tString 1
            (fun args => CallReturn [VString (strArg args 0 +:+ " " +:+ userName u)]
                                    LastNotError))
  else if String.eqb name "ErrorMethod" then
    Some (mkMethod [] false tString 2
            (fun _ => CallReturn [VString ""; VOpaque Interface]
                                 (LastErr (ErrHost "expected error"))))
  else if String.eqb name "MultiReturn" then
    Some (mkMethod [] false tString 2
            (fun _ => CallReturn [VString "ok"; VNil] LastErrNil))
  else if String.eqb name "Variadic" then
    Some (mkMethod [mkType "[]string" Slice] true tString 1
            (fun args => CallReturn [VString (join "," (strArgs args))] LastNotError))
  else None.

(** [type panicObj struct{}] with its pointer-receiver methods. *)
Definition panicObj : value := VNamed "core.panicObj" (VStruct []).

Definition panicMethod (name : string) : option method :=
  if String.eqb name "Boom" then
    Some (mkMethod [] false tInt 1 (fun _ => CallPanic "boom"))
  else if String.eqb name "Void" then
    Some (mkMethod [] false tInt 0 (fun _ => CallReturn [] LastNotError))
  else if String.eqb name "Needs" then
    Some (mkMethod [tInt] false tInt 1
            (fun args => CallReturn [nth 0 args VNil] LastNotError))
  else None.

Definition methodByName (v : value) (name : string) : option method :=
  match v with
  | VNamed "core.TestUser" _ => userMethod v name
  | VPtr (Some (VNamed "core.TestUser" _ as u)) =>
      if String.eqb name "PointerMethod" then
        Some (mkMethod [] false tString 1
                (fun _ => CallReturn [VString "pointer"] LastNotError))
      else userMethod u name
  | VPtr (Some (VNamed "core.panicObj" _)) => panicMethod name
  | _ => None
  end.

Definition host : Host :=
  {| hMethodByName := methodByName;
     hAssignableTo := assignable;
     hConvertibleTo := convertible;
     hConvert := convert;
     hZero := zero;
     hKeyEqual := fun _ _ => false;
     hDeepEqual := fun _ _ => false;
     hSprint := fun _ => "?";
     hIsPrint := fun _ => false;
     hUnicodeLower := fun s => s;
     hNow := 1 |}.

(** [map[string]any{...}]. *)
Definition mapStringAny (m : list (string * value)) : value :=
  VMap tString (map (fun '(k, v) => (VString k, v)) m).

(** The data of [TestEngine_Eval], in part. *)
Definition data : value :=
  mapStringAny
    [ ("user", VPtr (Some (TestUser "Alice" 25)));
      ("active", VBool true);
      ("tags", VSlice [VString "go"; VString "okra"]);
      ("scores", VMap tInt [(VInt Int 1, VString "Gold"); (VInt Int 2, VString "Silver")]);
      ("nums", VSlice [VInt Int 10; VInt Int 20]);
      ("i", VInt Int 1);
      ("u", VInt Uint 50);
      ("nil_val", VNil);
      ("ptr_nil", VPtr None);
      ("matrix", VSlice [VSlice [VInt Int 1; VInt Int 2]; VSlice [VInt Int 3; VInt Int 4]]) ].

Definition run (expr : string) (d : value) : option result :=
  EngineEval host (NewEngine host) expr d.

End Fixture.

(* ================================================================== *)
(** ** The argument loop as a function of its own *)
(* ================================================================== *)

Section ArgumentLoop.

Context (h : Host) (ctx : Context).

(** The argument loop of [MethodCallExpr.Eval] and [CallExpr.Eval]:
    left to right, the first error aborts. *)
Fixpoint evalArgs (args : list Expr) : outcome (error + list value) :=
  match args with
  | [] => Done (inr [])
  | a :: rest =>
      bind (Eval h ctx a) (fun r =>
        match r with
        | (_, Some err) => Done (inl err)
        | (v, None) =>
            bind (evalArgs rest) (fun vs =>
              match vs with
              | inl err => Done (inl err)
              | inr vs => Done (inr (v :: vs))
              end)
        end)
  end.

Definition withArgs (args : list Expr) (k : list value -> outcome result)
  : outcome result :=
  bind (evalArgs args) (fun r =>
    match r with
    | inl err => fail err
    | inr vs => k vs
    end).

End ArgumentLoop.

(* ================================================================== *)
(** ** Vocabulary of the specification *)
(* ================================================================== *)

(** An integer or float zero: an integer-coercible value equal to 0, or
    a value of a float kind that compares equal to 0. *)
Definition isZeroOperand (rv : value) : bool :=
  match toInt64 rv with
  | (i, true) => i =? 0
  | _ =>
      match kindOf rv with
      | Float32 | Float64 => f64_eqb (floatOf rv) f64_zero
      | _ => false
      end
  end.

(** Both operands are integer-coercible: the integer path of [evalMath]. *)
Definition bothInts (lv rv : value) : bool :=
  snd (toInt64 lv) && snd (toInt64 rv).

(** The kinds on which the [len] pseudo-method answers [rv.Len()]. *)
Definition isSized (k : kind) : bool :=
  match k with Slice | Array | Map | String_ => true | _ => false end.

(** Sequence-like kinds. *)
Definition isSeq (k : kind) : bool :=
  match k with Slice | Array => true | _ => false end.

Section NilSafety.

Context (h : Host) (ctx : Context).



End NilSafety.

(* ================================================================== *)
(** ** Measures on the parser state *)
(* ================================================================== *)

(** A token other than end-of-input counts as one unit of pending input. *)
Definition tokWeight (t : token) : nat :=
  if tokType_eqb (typ t) tEOF then 0%nat else 1%nat.

(** Input still to be consumed: the two buffered tokens and, unless the
    lexer has failed, the unread text. *)
Definition pending (p : parser) : nat :=
  ((match lexErr p with
    | Some _ => 0
    | None => String.length (lexRest (lex p))
    end) + tokWeight (next p) + tokWeight (curr p))%nat.

(** A parsing step that did not run out of fuel. *)
Definition terminated {A : Type} (r : presult A) : Prop :=
  match r with PFuel => False | _ => True end.

(** The state reached by a successful step has at most ([consumed_le])
    or strictly less ([consumed_lt]) pending input than [p]. *)
Definition consumed_le {A : Type} (p : parser) (r : presult A) : Prop :=
  match r with POk _ p' => (pending p' <= pending p)%nat | _ => True end.

Definition consumed_lt {A : Type} (p : parser) (r : presult A) : Prop :=
  match r with POk _ p' => (pending p' < pending p)%nat | _ => True end.




(** A step that terminated and consumed input ([_le]: possibly none). *)
Definition good_le {A : Type} (p : parser) (r : presult A) : Prop :=
  terminated r /\ consumed_le p r.

Definition good_lt {A : Type} (p : parser) (r : presult A) : Prop :=
  terminated r /\ consumed_lt p r.

(** [r2] is [r1] whenever [r1] is a result: more fuel refines. *)
Definition refines {A : Type} (r1 r2 : presult A) : Prop :=
  terminated r1 -> r2 = r1.

(* ================================================================== *)
(** ** Token streams, and the tokens of a printed expression *)
(* ================================================================== *)

(** A token without its position. *)
Definition Tok : Type := (tokType * string)%type.

Definition tokOf (t : token) : Tok := (typ t, val t).

(** [nextToken] seen from the text alone. *)
Inductive lexed : Type :=
| LexEOF
| LexTok (t : Tok) (rest : string)
| LexErr.

Definition lexTok (s : string) : lexed :=
  match nextToken (mkLexer s 0) with
  | (inl t, l') =>
      if tokType_eqb (typ t) tEOF then LexEOF else LexTok (tokOf t) (lexRest l')
  | (inr _, _) => LexErr
  end.

(** [Lexes s ts]: the lexer reads exactly the tokens [ts] from [s], then
    end-of-input, without error. *)
Inductive Lexes : string -> list Tok -> Prop :=
| Lexes_nil s : lexTok s = LexEOF -> Lexes s []
| Lexes_cons s t s' ts : lexTok s = LexTok t s' -> Lexes s' ts -> Lexes s (t :: ts).

(** [stream ts p]: what lies before the parser [p], its two buffered
    tokens included, is [ts] followed by end-of-input. *)
Definition stream (ts : list Tok) (p : parser) : Prop :=
  lexErr p = None /\
  match ts with
  | [] => typ (curr p) = tEOF /\ typ (next p) = tEOF /\ Lexes (lexRest (lex p)) []
  | [t] => tokOf (curr p) = t /\ typ (next p) = tEOF /\ Lexes (lexRest (lex p)) []
  | t :: t' :: ts' =>
      tokOf (curr p) = t /\ tokOf (next p) = t' /\ Lexes (lexRest (lex p)) ts'
  end.

(** [k] calls of [advance]. *)
Fixpoint adv (k : nat) (p : parser) : parser :=
  match k with
  | O => p
  | S k' => adv k' (advance p)
  end.

(** Binding power of a token without position. *)
Definition lbpTok (t : Tok) : Z := lbp (mkToken (fst t) (snd t) 0).

(** The operators [led] turns into an [InfixExpr]. *)
Definition infixOps : list string :=
  ["*"; "/"; "%"; "<<"; ">>"; "&"; "+"; "-"; "|"; "^";
   "<"; ">"; "<="; ">="; "=="; "!="; "&&"; "||"].

Definition unaryOps : list string := ["!"; "-"; "~"].

Definition isIdentStart (c : ascii) : bool := IsLetter c || Ascii.eqb c "_".
Definition isIdentChar (c : ascii) : bool :=
  IsLetter c || IsDigit c || Ascii.eqb c "_".
Definition isNumberChar (c : ascii) : bool := IsDigit c || Ascii.eqb c ".".

Fixpoint str_forall (f : ascii -> bool) (s : string) : bool :=
  match s with
  | EmptyString => true
  | String c s' => f c && str_forall f s'
  end.

(** An identifier as the lexer reads one. *)
Definition isIdentName (s : string) : bool :=
  match s with
  | EmptyString => false
  | String c s' => isIdentStart c && str_forall isIdentChar s'
  end.

(** A name that [nud] turns into a variable or a call. *)
Definition isVarName (s : string) : bool :=
  isIdentName s && negb (String.eqb s "true") && negb (String.eqb s "false").

(** Text the lexer reads as one number token. *)
Definition isNumberText (s : string) : bool :=
  match s with
  | EmptyString => false
  | String c s' => IsDigit c && str_forall isNumberChar s'
  end.

(** The same float, bit for bit (a NaN is never the same). *)
Definition sf_same (x y : float64) : bool :=
  match x, y with
  | S754_zero a, S754_zero b => Bool.eqb a b
  | S754_infinity a, S754_infinity b => Bool.eqb a b
  | S754_finite a m e, S754_finite b m' e' =>
      Bool.eqb a b && Pos.eqb m m' && (e =? e')
  | _, _ => false
  end.

Section Printed.

Context (h : Host).

(** A literal the parser can have produced and whose printed text reads
    back as the same literal.  For a float this is a condition on how the
    host prints it. *)
Definition literalReparses (v : value) : bool :=
  match v with
  | VBool _ => true
  | VInt Int64 n => (0 <=? n) && (n <=? MaxInt64)
  | VFloat Float64 f =>
      let t := hSprint h v in
      isNumberText t && contains_byte "." t && sf_same (fst (ParseFloat t)) f
  | VString s => isASCII s
  | _ => false
  end.

(** The token a literal prints as. *)
Definition literalTok (v : value) : Tok :=
  match v with
  | VBool b => (tIdent, if b then "true" else "false")
  | VString s => (tString, s)
  | _ => (tNumber, Sprint h v)
  end.

(** The printed text ends in a number token. *)
Definition endsInNumber (e : Expr) : bool :=
  match e with
  | LiteralExpr (VInt _ _) | LiteralExpr (VFloat _ _) => true
  | _ => false
  end.

Fixpoint etoks (e : Expr) : list Tok :=
  let argtoks :=
    fix argtoks (args : list Expr) : list Tok :=
      match args with
      | [] => []
      | [a] => etoks a
      | a :: rest => (etoks a ++ (tComma, ",") :: argtoks rest)%list
      end in
  match e with
  | LiteralExpr v => [literalTok v]
  | VariableExpr name => [(tIdent, name)]
  | MemberAccessExpr lhs key _ => (etoks lhs ++ [(tOp, "."); (tIdent, key)])%list
  | IndexExpr lhs index =>
      (etoks lhs ++ (tOp, "[") :: etoks index ++ [(tOp, "]")])%list
  | MethodCallExpr lhs meth args =>
      (etoks lhs ++ (tOp, ".") :: (tIdent, meth) :: (tLParen, "(")
         :: argtoks args ++ [(tRParen, ")")])%list
  | CallExpr name args =>
      ((tIdent, name) :: (tLParen, "(") :: argtoks args ++ [(tRParen, ")")])%list
  | UnaryExpr op rhs =>
      ((tLParen, "(") :: (tOp, op) :: etoks rhs ++ [(tRParen, ")")])%list
  | InfixExpr lhs op rhs =>
      ((tLParen, "(") :: etoks lhs ++ (tOp, op) :: etoks rhs ++ [(tRParen, ")")])%list
  | TernaryExpr c t e' =>
      ((tLParen, "(") :: etoks c ++ (tOp, "?") :: etoks t ++ (tOp, ":")
         :: etoks e' ++ [(tRParen, ")")])%list
  end.

Fixpoint argtoks (args : list Expr) : list Tok :=
  match args with
  | [] => []
  | [a] => etoks a
  | a :: rest => (etoks a ++ (tComma, ",") :: argtoks rest)%list
  end.

(** How far above its starting depth the parser goes on the printed
    text of [e]. *)
Fixpoint need (e : Expr) : Z :=
  let needs :=
    fix needs (args : list Expr) : Z :=
      match args with
      | [] => 0
      | a :: rest => Z.max (1 + need a) (needs rest)
      end in
  match e with
  | LiteralExpr _ | VariableExpr _ => 0
  | MemberAccessExpr lhs _ _ => need lhs
  | IndexExpr lhs index => Z.max (need lhs) (1 + need index)
  | MethodCallExpr lhs _ args => Z.max (need lhs) (needs args)
  | CallExpr _ args => needs args
  | UnaryExpr _ rhs => 2 + need rhs
  | InfixExpr lhs _ rhs => Z.max (1 + need lhs) (2 + need rhs)
  | TernaryExpr c t e' => Z.max (1 + need c) (Z.max (2 + need t) (2 + need e'))
  end.

Fixpoint needs (args : list Expr) : Z :=
  match args with
  | [] => 0
  | a :: rest => Z.max (1 + need a) (needs rest)
  end.

(** The expressions whose printed text reads back as themselves: names
    are identifiers, literals are those of [literalReparses], operators
    are the ones the parser knows, member access uses the dot form, and
    no number literal is the receiver of a member access or method call
    (its text would absorb the dot). *)
Fixpoint reparsable (e : Expr) : bool :=
  match e with
  | LiteralExpr v => literalReparses v
  | VariableExpr name => isVarName name
  | MemberAccessExpr lhs key isIndex =>
      negb isIndex && isIdentName key && negb (endsInNumber lhs) && reparsable lhs
  | IndexExpr lhs index => reparsable lhs && reparsable index
  | MethodCallExpr lhs meth args =>
      isIdentName meth && negb (endsInNumber lhs) && reparsable lhs
      && forallb reparsable args
  | CallExpr name args => isVarName name && forallb reparsable args
  | UnaryExpr op rhs => existsb (String.eqb op) unaryOps && reparsable rhs
  | InfixExpr lhs op rhs =>
      existsb (String.eqb op) infixOps && reparsable lhs && reparsable rhs
  | TernaryExpr c t e' => reparsable c && reparsable t && reparsable e'
  end.

End Printed.

(** The parser, its loop and [parseArgs] with enough fuel. *)
Definition parses (rbp d : Z) (p : parser) (r : presult Expr) : Prop :=
  exists n, parse n rbp d p = r /\ terminated r.

Definition loops (rbp d : Z) (left : Expr) (p : parser) (r : presult Expr) : Prop :=
  exists n, parseLoop n rbp d left p = r /\ terminated r.

Definition argsTo (d : Z) (acc : list Expr) (p : parser)
    (r : presult (list Expr)) : Prop :=
  exists n, parseArgs n d acc p = r /\ terminated r.

(** The token after an expression does not turn it into a call. *)
Definition follow (ts : list Tok) : Prop :=
  match ts with
  | (tLParen, _) :: _ => False
  | _ => True
  end.

(** The operator loop stops at the token that follows. *)
Definition stops (rbp : Z) (ts : list Tok) : Prop :=
  match ts with
  | t :: _ => lbpTok t <= rbp
  | [] => True
  end.

(** The text [s] is empty or starts with a byte outside the class [f]:
    a token made of [f] bytes ends before it. *)
Definition stopsAt (f : ascii -> bool) (s : string) : Prop :=
  match s with
  | EmptyString => True
  | String c _ => f c = false
  end.

(** The bytes a printed expression can start with. *)
Definition exprStart (c : ascii) : bool :=
  isIdentStart c || IsDigit c || Ascii.eqb c dquote || Ascii.eqb c "(".

(** What may follow the printed text of [e]: no byte that would extend
    its last token. *)
Definition boundary (e : Expr) (rest : string) : Prop :=
  stopsAt isIdentChar rest
  /\ (endsInNumber e = true -> stopsAt isNumberChar rest).

(** The chain form of reading back: parsing the tokens of [e] amounts to
    entering the operator loop with [e] as the left operand. *)
Definition chainOK (h : Host) (e : Expr) : Prop :=
  forall rbp d p ts r,
    reparsable h e = true ->
    stream (etoks h e ++ ts)%list p -> follow ts ->
    0 <= rbp < 100 -> d + need e <= MaxStackDepth ->
    loops rbp d e (adv (List.length (etoks h e)) p) r ->
    parses rbp d p r.

(** The lexer reads the printed text of [e], followed by [rest], as the
    tokens of [e] followed by those of [rest]. *)
Definition lexesBack (h : Host) (e : Expr) : Prop :=
  reparsable h e = true ->
  forall rest ts, Lexes rest ts -> boundary e rest ->
    Lexes (ExprString h e +:+ rest) (etoks h e ++ ts)%list.

(** The kinds [toFloat] reads a number from: the integer kinds of
    [toInt64] and the two float kinds. *)
Definition isNumeric (k : kind) : bool :=
  match k with
  | Int | Int8 | Int16 | Int32 | Int64
  | Uint | Uint8 | Uint16 | Uint32 | Uint64
  | Float32 | Float64 => true
  | _ => false
  end.

(** An error without the position it reports. *)
Definition stripPos (e : error) : error :=
  match e with
  | ErrMissingRParen _ => ErrMissingRParen 0
  | ErrMissingColon _ => ErrMissingColon 0
  | ErrMissingRBracket _ => ErrMissingRBracket 0
  | ErrExtraToken v _ => ErrExtraToken v 0
  | ErrTrailingToken v _ => ErrTrailingToken v 0
  | _ => e
  end.

(** Two parser states that differ in positions only: the same buffered
    tokens, and texts ahead that the lexer reads as the same tokens. *)
Definition parSim (p p' : parser) : Prop :=
  lexErr p = None /\ lexErr p' = None
  /\ tokOf (curr p) = tokOf (curr p') /\ tokOf (next p) = tokOf (next p')
  /\ exists ts, Lexes (lexRest (lex p)) ts /\ Lexes (lexRest (lex p')) ts.

(** Two results of the parser that differ in positions only. *)
Definition resSim {A : Type} (r r' : presult A) : Prop :=
  match r, r' with
  | POk a q, POk a' q' => a = a' /\ parSim q q'
  | PErr e, PErr e' => stripPos e = stripPos e'
  | PFuel, PFuel => True
  | _, _ => False
  end.

(** The same tree, or the same error up to the position. *)
Definition sameParse (r r' : presult Expr) : Prop :=
  match r, r' with
  | POk e _, POk e' _ => e = e'
  | PErr x, PErr y => stripPos x = stripPos y
  | _, _ => False
  end.

(** The shape of the trees the parser builds: literals are booleans,
    strings, [int64] and [float64] values, a member access is never of the
    index form, and operators are those of the operator tables. *)
Fixpoint wellFormed (e : Expr) : bool :=
  match e with
  | LiteralExpr v =>
      match v with
      | VBool _ | VString _ | VFloat Float64 _ => true
      | VInt Int64 n => (MinInt64 <=? n) && (n <=? MaxInt64)
      | _ => false
      end
  | VariableExpr _ => true
  | MemberAccessExpr lhs _ isIndex => negb isIndex && wellFormed lhs
  | IndexExpr lhs index => wellFormed lhs && wellFormed index
  | MethodCallExpr lhs _ args => wellFormed lhs && forallb wellFormed args
  | CallExpr _ args => forallb wellFormed args
  | UnaryExpr op rhs => existsb (String.eqb op) unaryOps && wellFormed rhs
  | InfixExpr lhs op rhs =>
      existsb (String.eqb op) infixOps && wellFormed lhs && wellFormed rhs
  | TernaryExpr c t e' => wellFormed c && wellFormed t && wellFormed e'
  end.

(** A result of the parser whose tree, or trees, are well formed. *)
Definition wfRes (r : presult Expr) : Prop :=
  match r with POk e _ => wellFormed e = true | _ => True end.

Definition wfArgs (r : presult (list Expr)) : Prop :=
  match r with POk args _ => forallb wellFormed args = true | _ => True end.

(* ################################################################## *)
(** * Properties *)
(* ################################################################## *)

(* ================================================================== *)
(** ** Unfolding lemmas for [Eval] *)
(* ================================================================== *)

Section EvalEquations.

Context (h : Host) (ctx : Context).

Lemma Eval_Literal v : Eval h ctx (LiteralExpr v) = ok v.
Proof. reflexivity. Qed.


Lemma Eval_MemberAccess lhs key b :
  Eval h ctx (MemberAccessExpr lhs key b) =
  try (Eval h ctx lhs) (fun v => if isNil v then ok VNil else getMember h v key).
Proof. reflexivity. Qed.

Lemma Eval_Index lhs index :
  Eval h ctx (IndexExpr lhs index) =
  try (Eval h ctx lhs) (fun obj =>
    if isNil obj then ok VNil
    else try (Eval h ctx index) (fun idx => indexValue h obj idx)).
Proof. reflexivity. Qed.

Lemma Eval_MethodCall lhs meth args :
  Eval h ctx (MethodCallExpr lhs meth args) =
  try (Eval h ctx lhs) (fun obj =>
    if isNil obj then ok VNil
    else
      let call := withArgs h ctx args (fun vs => callReflectMethod h obj meth vs) in
      if String.eqb meth "len" && (List.length args =? 0)%nat then
        match lenMethod obj with
        | Some r => Done r
        | None => call
        end
      else call).
Proof. reflexivity. Qed.

Lemma Eval_Call name args :
  Eval h ctx (CallExpr name args) =
  match Fns ctx !! ToLower (hUnicodeLower h) name with
  | Some fn => withArgs h ctx args fn
  | None =>
      if negb (isNil (Data ctx)) then
        withArgs h ctx args (fun vs =>
          bind (callReflectMethod h (Data ctx) name vs) (fun r =>
            match r with
            | (res, None) => ok res
            | (_, Some _) => fail (ErrFuncNotFound name)
            end))
      else fail (ErrFuncNotFound name)
  end.
Proof. reflexivity. Qed.

Lemma Eval_Unary op rhs :
  Eval h ctx (UnaryExpr op rhs) = try (Eval h ctx rhs) (fun rv => evalUnary op rv).
Proof. reflexivity. Qed.

Lemma Eval_Infix lhs op rhs :
  Eval h ctx (InfixExpr lhs op rhs) =
  try (Eval h ctx lhs) (fun lv =>
    if String.eqb op "&&" then
      if negb (toBool lv) then ok (VBool false)
      else try (Eval h ctx rhs) (fun rv => ok (VBool (toBool rv)))
    else if String.eqb op "||" then
      if toBool lv then ok (VBool true)
      else try (Eval h ctx rhs) (fun rv => ok (VBool (toBool rv)))
    else try (Eval h ctx rhs) (fun rv => evalInfix h op lv rv)).
Proof. reflexivity. Qed.

Lemma Eval_Ternary c t e :
  Eval h ctx (TernaryExpr c t e) =
  try (Eval h ctx c) (fun cv => if toBool cv then Eval h ctx t else Eval h ctx e).
Proof. reflexivity. Qed.

Lemma try_done v k : try (Done (v, None)) k = k v.
Proof. reflexivity. Qed.

End EvalEquations.

(* ================================================================== *)
(** ** Arithmetic: zero divisors and float modulo *)
(* ================================================================== *)

Lemma f64_of_int_0 : f64_of_int 0 = f64_zero.
Proof. reflexivity. Qed.

(** The to-float value of an integer or float zero compares equal to 0. *)
Lemma isZeroOperand_toFloat rv :
  isZeroOperand rv = true -> f64_eqb (fst (toFloat rv)) f64_zero = true.
Proof.
  unfold isZeroOperand, toFloat.
  destruct (toInt64 rv) as [i [|]].
  - intros Hi. apply Z.eqb_eq in Hi. subst i. reflexivity.
  - destruct (kindOf rv); try discriminate; auto.
Qed.

Lemma isZeroOperand_int rv :
  isZeroOperand rv = true -> snd (toInt64 rv) = true -> fst (toInt64 rv) = 0.
Proof.
  unfold isZeroOperand. destruct (toInt64 rv) as [i [|]]; simpl.
  - intros Hi _. now apply Z.eqb_eq.
  - discriminate.
Qed.

Lemma evalMath_div_zero lv rv :
  isZeroOperand rv = true -> evalMath lv rv "/" = fail ErrDivByZero.
Proof.
  intros Hz. pose proof (isZeroOperand_toFloat rv Hz) as Hf.
  pose proof (isZeroOperand_int rv Hz) as Hi.
  unfold evalMath. destruct (toInt64 lv) as [li okL], (toInt64 rv) as [ri okR].
  simpl in Hi. destruct okL, okR; simpl; rewrite ?Hf; try reflexivity.
  rewrite (Hi eq_refl). reflexivity.
Qed.

Lemma evalMath_mod_int_zero lv rv :
  isZeroOperand rv = true -> bothInts lv rv = true ->
  evalMath lv rv "%" = fail ErrDivByZero.
Proof.
  intros Hz Hb. pose proof (isZeroOperand_int rv Hz) as Hi.
  unfold bothInts in Hb. unfold evalMath.
  destruct (toInt64 lv) as [li okL], (toInt64 rv) as [ri okR]. simpl in *.
  apply andb_prop in Hb as [-> ->]. rewrite (Hi eq_refl). reflexivity.
Qed.

Lemma evalMath_mod_float lv rv :
  bothInts lv rv = false -> evalMath lv rv "%" = ok VNil.
Proof.
  unfold bothInts, evalMath.
  destruct (toInt64 lv) as [li okL], (toInt64 rv) as [ri okR]. simpl.
  intros ->. reflexivity.
Qed.

(** C6, the claim as stated fails: [10 % 0.0] has a float zero on the
    right and yet yields nil with no error. *)
Lemma C6_modulo_by_float_zero_counterexample :
  isZeroOperand (VFloat64 f64_zero) = true
  /\ evalMath (VInt64 10) (VFloat64 f64_zero) "%" = Done (VNil, None).
Proof. split; reflexivity. Qed.

(** C6, amended: division by an integer or float zero fails with the
    division-by-zero error whatever the left operand is; modulo by such a
    zero fails with that error when both operands are integer-coercible;
    and modulo with an operand that is not integer-coercible yields nil
    with no error, also when the right operand is a zero. *)
Theorem C6_zero_divisor_and_float_modulo (lv rv : value) :
  (isZeroOperand rv = true ->
     evalMath lv rv "/" = fail ErrDivByZero
     /\ (bothInts lv rv = true -> evalMath lv rv "%" = fail ErrDivByZero))
  /\ (bothInts lv rv = false -> evalMath lv rv "%" = ok VNil).
Proof.
  split.
  - intros Hz. split.
    + now apply evalMath_div_zero.
    + now apply evalMath_mod_int_zero.
  - apply evalMath_mod_float.
Qed.

Lemma C6_zero_divisor_witness :
  evalMath (VFloat64 (f64_of_int 10)) (VInt64 0) "/" = fail ErrDivByZero
  /\ evalMath (VInt64 10) (VInt64 0) "%" = fail ErrDivByZero
  /\ evalMath (VInt64 10) (VFloat64 f64_zero) "%" = ok VNil.
Proof.
  split; [| split].
  - apply (proj1 (C6_zero_divisor_and_float_modulo (VFloat64 (f64_of_int 10)) (VInt64 0))).
    reflexivity.
  - apply (proj1 (C6_zero_divisor_and_float_modulo (VInt64 10) (VInt64 0)));
      reflexivity.
  - apply (proj2 (C6_zero_divisor_and_float_modulo (VInt64 10) (VFloat64 f64_zero))).
    reflexivity.
Defined.

(* ================================================================== *)
(** ** The infix [+]: string concatenation and the numeric path *)
(* ================================================================== *)

(** With a string on the right, [evalMath] takes the float path and
    discards the flag of [toFloat]: the sum is returned, never an error. *)
Lemma evalMath_plus_string_right lv s :
  evalMath lv (VString s) "+" =
  ok (VFloat64 (f64_add (fst (toFloat lv)) (fst (ParseFloat s)))).
Proof.
  unfold evalMath. destruct (toInt64 lv) as [li [|]]; reflexivity.
Qed.

Lemma infix_plus_string_right h ctx l r lv s :
  Eval h ctx l = Done (lv, None) -> asString lv = None ->
  Eval h ctx r = Done (VString s, None) ->
  Eval h ctx (InfixExpr l "+" r) =
  ok (VFloat64 (f64_add (fst (toFloat lv)) (fst (ParseFloat s)))).
Proof.
  intros Hl Hs Hr. rewrite Eval_Infix, Hl, try_done. simpl.
  rewrite Hr, try_done. unfold evalInfix. simpl. rewrite Hs.
  apply evalMath_plus_string_right.
Qed.

(** C1, what the code does at the input of the claim: ['res'] is not
    float-coercible, and [10 + 'res'] evaluates to the float 10 with no
    error, for every host, engine and data. *)
Theorem C1_ten_plus_res_returns_ten :
  snd (toFloat (VString "res")) = false
  /\ forall (h : Host) (e : Engine) (d : value),
       EngineEval h e "10 + 'res'" d = Some (VFloat64 (f64_of_int 10), None).
Proof. split; [reflexivity | intros h e d; vm_compute; reflexivity]. Qed.

(** C8: when the left operand of [+] is a string, the result is that
    string followed by [fmt.Sprint] of the right operand, with no error,
    whatever the right operand is. *)
Theorem C8_plus_with_string_left (h : Host) (ctx : Context) (l r : Expr)
    (ls : string) (rv : value) :
  Eval h ctx l = Done (VString ls, None) ->
  Eval h ctx r = Done (rv, None) ->
  Eval h ctx (InfixExpr l "+" r) = Done (VString (ls +:+ Sprint h rv), None).
Proof.
  intros Hl Hr. rewrite Eval_Infix, Hl, try_done. simpl.
  rewrite Hr, try_done. reflexivity.
Qed.

Lemma C8_plus_with_string_left_witness :
  Eval Fixture.host (mkContext VNil ∅)
       (InfixExpr (LiteralExpr (VString "res: ")) "+" (LiteralExpr (VInt64 10)))
  = Done (VString "res: 10", None).
Proof.
  apply (C8_plus_with_string_left Fixture.host (mkContext VNil ∅)
           (LiteralExpr (VString "res: ")) (LiteralExpr (VInt64 10))
           "res: " (VInt64 10)); reflexivity.
Defined.

(* ================================================================== *)
(** ** Short-circuit of [&&] and [||] *)
(* ================================================================== *)

(** C5: [&&] with a falsy left operand is [false] and [||] with a truthy
    left operand is [true], whatever the right operand is: it is not
    evaluated, so an error (or panic) it would produce does not arise.
    In particular [false && (1/0)] is [false] and [true || (1/0)] is
    [true], with no error, although [1/0] alone fails. *)
Theorem C5_logical_operators_short_circuit (h : Host) :
  (forall (ctx : Context) (l r : Expr) (lv : value),
     Eval h ctx l = Done (lv, None) ->
     (toBool lv = false ->
        Eval h ctx (InfixExpr l "&&" r) = Done (VBool false, None))
     /\ (toBool lv = true ->
        Eval h ctx (InfixExpr l "||" r) = Done (VBool true, None)))
  /\ (forall (e : Engine) (d : value),
        EngineEval h e "false && (1/0)" d = Some (VBool false, None)
        /\ EngineEval h e "true || (1/0)" d = Some (VBool true, None)
        /\ EngineEval h e "1/0" d = Some (VNil, Some ErrDivByZero)).
Proof.
  split.
  - intros ctx l r lv Hl. split; intros Hb;
      rewrite Eval_Infix, Hl, try_done; simpl; rewrite Hb; reflexivity.
  - intros e d. repeat split; vm_compute; reflexivity.
Qed.

Lemma C5_short_circuit_witness :
  Eval Fixture.host (mkContext VNil ∅)
       (InfixExpr (LiteralExpr (VBool false)) "&&"
                  (InfixExpr (LiteralExpr (VInt64 1)) "/" (LiteralExpr (VInt64 0))))
  = Done (VBool false, None)
  /\ Eval Fixture.host (mkContext VNil ∅)
       (InfixExpr (LiteralExpr (VInt64 1)) "/" (LiteralExpr (VInt64 0)))
     = Done (VNil, Some ErrDivByZero).
Proof.
  split.
  - apply (proj1 (proj1 (C5_logical_operators_short_circuit Fixture.host)
                    (mkContext VNil ∅) (LiteralExpr (VBool false))
                    (InfixExpr (LiteralExpr (VInt64 1)) "/" (LiteralExpr (VInt64 0)))
                    (VBool false) eq_refl)).
    reflexivity.
  - reflexivity.
Defined.

(* ================================================================== *)
(** ** Nil-safe resolution *)
(* ================================================================== *)

Lemma deref_nil_value obj rv a :
  deref obj = Some (rv, a) -> isNil obj = true -> kindOf rv = Invalid.
Proof.
  destruct obj; try discriminate. intros H _. unfold deref in H. simpl in H.
  now inversion H.
Qed.

Lemma deref_None_not_nil obj : deref obj = None -> isNil obj = false.
Proof. destruct obj; try reflexivity. discriminate. Qed.











(* ================================================================== *)
(** ** The [len] pseudo-method *)
(* ================================================================== *)

Lemma Eval_len_method h ctx lhs obj :
  Eval h ctx lhs = Done (obj, None) -> isNil obj = false ->
  Eval h ctx (MethodCallExpr lhs "len" []) =
  match lenMethod obj with
  | Some r => Done r
  | None => callReflectMethod h obj "len" []
  end.
Proof.
  intros Hl Hn. rewrite Eval_MethodCall, Hl, try_done, Hn. reflexivity.
Qed.

(** C3, the claim as stated fails for the nil receiver: with
    [data = {"x": nil}], [x.len()] evaluates to nil, not to 0. *)
Lemma C3_nil_receiver_counterexample :
  Fixture.run "x.len()" (Fixture.mapStringAny [("x", VNil)]) = Some (VNil, None)
  /\ VNil <> VInt64 0.
Proof. split; [vm_compute; reflexivity | discriminate]. Qed.

(** C3, amended: for a receiver that evaluates to [obj], the
    zero-argument [len] pseudo-method
    - returns nil when [obj] is the nil interface;
    - returns the int64 0 when following the pointers of [obj] meets a
      nil pointer;
    - returns the int64 [rv.Len()] (elements of a slice or array, entries
      of a map, bytes of a string) when the pointers lead to a value [rv]
      of kind slice, array, map or string.
    None of these results depends on the function registry of the
    context, which is arbitrary here. *)
Theorem C3_len_pseudo_method (h : Host) (ctx : Context) (lhs : Expr) (obj : value) :
  Eval h ctx lhs = Done (obj, None) ->
  (obj = VNil ->
     Eval h ctx (MethodCallExpr lhs "len" []) = Done (VNil, None))
  /\ (deref obj = None ->
     Eval h ctx (MethodCallExpr lhs "len" []) = Done (VInt64 0, None))
  /\ (forall rv a, deref obj = Some (rv, a) -> isSized (kindOf rv) = true ->
     Eval h ctx (MethodCallExpr lhs "len" []) = Done (VInt64 (lenOf rv), None)).
Proof.
  intros Hl. repeat split.
  - intros ->. rewrite Eval_MethodCall, Hl, try_done. reflexivity.
  - intros Hd. rewrite (Eval_len_method _ _ _ _ Hl (deref_None_not_nil _ Hd)).
    unfold lenMethod. rewrite Hd. reflexivity.
  - intros rv a Hd Hs.
    assert (Hn : isNil obj = false).
    { destruct (isNil obj) eqn:Hn; [| reflexivity].
      rewrite (deref_nil_value _ _ _ Hd Hn) in Hs. discriminate. }
    rewrite (Eval_len_method _ _ _ _ Hl Hn). unfold lenMethod. rewrite Hd.
    destruct (kindOf rv); try discriminate; reflexivity.
Qed.

Lemma C3_len_pseudo_method_witness :
  Eval Fixture.host (mkContext VNil ∅)
       (MethodCallExpr (LiteralExpr (VPtr None)) "len" []) = Done (VInt64 0, None)
  /\ Eval Fixture.host (mkContext VNil ∅)
       (MethodCallExpr (LiteralExpr (VPtr (Some (VString "abc")))) "len" [])
     = Done (VInt64 3, None).
Proof.
  split.
  - apply (proj1 (proj2 (C3_len_pseudo_method Fixture.host (mkContext VNil ∅)
                           (LiteralExpr (VPtr None)) (VPtr None) eq_refl))).
    reflexivity.
  - apply (proj2 (proj2 (C3_len_pseudo_method Fixture.host (mkContext VNil ∅)
                           (LiteralExpr (VPtr (Some (VString "abc"))))
                           (VPtr (Some (VString "abc"))) eq_refl))
             (VString "abc") true); reflexivity.
Defined.

(* ================================================================== *)
(** ** Free calls: registry lookup and the method fallback *)
(* ================================================================== *)

Lemma withArgs_done h ctx args vs k :
  evalArgs h ctx args = Done (inr vs) -> withArgs h ctx args k = k vs.
Proof. intros H. unfold withArgs. rewrite H. reflexivity. Qed.



(** [RegisterFunc] stores the function under the name as given. *)
Lemma RegisterFunc_lookup h e name f key :
  name <> "" ->
  loadFuncs h (fst (RegisterFunc h e name (Some f))) !! key =
  if decide (name = key) then Some f else loadFuncs h e !! key.
Proof.
  intros Hne. unfold RegisterFunc.
  destruct (String.eqb_spec name ""); [contradiction |]. simpl.
  apply lookup_insert.
Qed.

(** A call looks its name up in lower case. *)
Lemma CallExpr_lookup h ctx name args fn :
  Fns ctx !! ToLower (hUnicodeLower h) name = Some fn ->
  Eval h ctx (CallExpr name args) = withArgs h ctx args fn.
Proof. intros H. rewrite Eval_Call, H. reflexivity. Qed.

(** A function registered under a lower-case ASCII name is found by every
    call whose name lowers to it. *)
Lemma registered_lower_case_resolves h e name name' f ctx args :
  name <> "" -> ToLower (hUnicodeLower h) name' = name ->
  Fns ctx = loadFuncs h (fst (RegisterFunc h e name (Some f))) ->
  Eval h ctx (CallExpr name' args) = withArgs h ctx args f.
Proof.
  intros Hne Hl Hf. apply CallExpr_lookup.
  rewrite Hf, Hl, RegisterFunc_lookup by assumption.
  destruct (decide (name = name)); [reflexivity | contradiction].
Qed.

(** C2, what the code does for a name with an upper-case letter:
    registering [f] as "Add" succeeds, and afterwards neither the call
    [add(1, 2)] nor the call [Add(1, 2)] reaches [f]: both look up "add",
    which is not a key of the registry, and (the data being nil) fail
    with "function or method not found". *)
Theorem C2_mixed_case_registration_is_unreachable (h : Host) (f : CustomFunc) :
  let e := fst (RegisterFunc h (NewEngine h) "Add" (Some f)) in
  snd (RegisterFunc h (NewEngine h) "Add" (Some f)) = None
  /\ loadFuncs h e !! "Add" = Some f
  /\ EngineEval h e "add(1, 2)" VNil = Some (VNil, Some (ErrFuncNotFound "add"))
  /\ EngineEval h e "Add(1, 2)" VNil = Some (VNil, Some (ErrFuncNotFound "Add")).
Proof.
  repeat split; vm_compute; reflexivity.
Qed.

(* ================================================================== *)
(** ** The lexer consumes its input *)
(* ================================================================== *)

Lemma span_length f s a b :
  span f s = (a, b) -> (String.length b <= String.length s)%nat.
Proof.
  revert a b. induction s as [| c s IH]; intros a b H; simpl in H.
  - inversion H. simpl. lia.
  - destruct (f c).
    + destruct (span f s) as [a' b'] eqn:E. inversion H; subst.
      specialize (IH _ _ eq_refl). simpl. lia.
    + inversion H; subst. simpl. lia.
Qed.

Lemma str_drop_length n s : (String.length (str_drop n s) <= String.length s)%nat.
Proof.
  revert s. induction n as [| n IH]; intros s; simpl; [lia |].
  destruct s as [| c s]; simpl; [lia |]. specialize (IH s). lia.
Qed.

Lemma str_drop_lt n s :
  (0 < n)%nat -> s <> EmptyString ->
  (String.length (str_drop n s) < String.length s)%nat.
Proof.
  intros Hn Hs. destruct n as [| n]; [lia |]. destruct s as [| c s]; [congruence |].
  simpl. pose proof (str_drop_length n s). lia.
Qed.

Lemma read_hex_length n s v v' s' :
  read_hex n s v = Some (v', s') -> (String.length s' <= String.length s)%nat.
Proof.
  revert s v. induction n as [| n IH]; intros s v H; simpl in H.
  - inversion H; subst. lia.
  - destruct s as [| c s]; [discriminate |]. destruct (unhex c); [| discriminate].
    apply IH in H. simpl. lia.
Qed.

Lemma DecodeRune_width s : s <> EmptyString -> (1 <= snd (DecodeRune s))%nat.
Proof.
  destruct s as [| c0 t]; [congruence |]. intros _. unfold DecodeRune.
  repeat match goal with
         | |- context [if ?b then _ else _] => destruct b
         | |- context [match ?x with EmptyString => _ | String _ _ => _ end] => destruct x
         end; simpl; lia.
Qed.

(** An escape or character read by [UnquoteChar] is at least one byte. *)
Lemma UnquoteChar_length s q v tail :
  UnquoteChar s q = Some (v, tail) -> (String.length tail < String.length s)%nat.
Proof.
  destruct s as [| c t]; [discriminate |]. unfold UnquoteChar.
  destruct (Ascii.eqb c q && (Ascii.eqb q "'" || Ascii.eqb q dquote)); [discriminate |].
  destruct (128 <=? byte_val c).
  { destruct (DecodeRune (String c t)) as [r w] eqn:E. intros H. inversion H; subst.
    apply str_drop_lt; [| congruence].
    pose proof (DecodeRune_width (String c t)) as Hw. rewrite E in Hw.
    apply Hw. congruence. }
  destruct (negb (Ascii.eqb c "\")).
  { intros H. inversion H; subst. simpl. lia. }
  destruct t as [| e u]; [discriminate |].
  repeat match goal with
         | |- (if ?b then _ else _) = _ -> _ => destruct b
         end;
    try (intros H; inversion H; subst; simpl; lia);
    try discriminate.
  - intros H. apply read_hex_length in H. simpl. lia.
  - destruct (read_hex _ u 0) as [[v' u'] |] eqn:E; [| discriminate].
    destruct (ValidRune v'); [| discriminate].
    intros H. inversion H; subst. apply read_hex_length in E. simpl. lia.
  - destruct u as [| o1 [| o2 u']]; try discriminate.
    destruct (octal_val o1), (octal_val o2); try discriminate.
    match goal with |- (if ?b then _ else _) = _ -> _ => destruct b end;
      [discriminate |].
    intros H. inversion H; subst. simpl. lia.
Qed.

Lemma lexString_length fuel q s sb r s' :
  lexString fuel q s sb = (r, s') -> (String.length s' <= String.length s)%nat.
Proof.
  revert s sb. induction fuel as [| fuel IH]; intros s sb H; simpl in H.
  - inversion H; subst. lia.
  - destruct s as [| c t]; [inversion H; subst; simpl; lia |].
    destruct (Ascii.eqb c q); [inversion H; subst; simpl; lia |].
    destruct (Ascii.eqb c "\").
    + destruct t as [| c1 t1].
      * destruct (UnquoteChar _ q) as [[v tail] |] eqn:E.
        -- apply UnquoteChar_length in E. apply IH in H. lia.
        -- inversion H; subst. lia.
      * destruct (Ascii.eqb c1 q).
        -- apply IH in H. simpl. lia.
        -- destruct (UnquoteChar _ q) as [[v tail] |] eqn:E.
           ++ apply UnquoteChar_length in E. apply IH in H. lia.
           ++ inversion H; subst. lia.
    + apply IH in H. simpl. lia.
Qed.

(** The fuel of [lexString] is enough: more of it changes nothing. *)
Lemma lexString_fuel fuel q s sb :
  (String.length s <= fuel)%nat ->
  lexString fuel q s sb = lexString (String.length s) q s sb.
Proof.
  remember (String.length s) as n eqn:Hn.
  revert fuel s sb Hn. induction n as [n IH] using lt_wf_ind.
  intros fuel s sb Hn Hle. destruct s as [| c t].
  - simpl in Hn. subst n. destruct fuel; reflexivity.
  - simpl in Hn. destruct n as [| n]; [discriminate |]. injection Hn as Hn.
    destruct fuel as [| fuel]; [lia |]. cbn [lexString].
    assert (Hstep : forall u sb', (String.length u <= n)%nat ->
              lexString fuel q u sb' = lexString n q u sb').
    { intros u sb' Hu.
      rewrite (IH (String.length u)) with (fuel := fuel) by (try reflexivity; lia).
      rewrite (IH (String.length u)) with (fuel := n) by (try reflexivity; lia).
      reflexivity. }
    destruct (Ascii.eqb c q); [reflexivity |].
    destruct (Ascii.eqb c "\").
    + destruct t as [| c1 t1].
      * destruct (UnquoteChar (String c "") q) as [[v tail] |] eqn:E; [| reflexivity].
        apply UnquoteChar_length in E. simpl in E. apply Hstep. lia.
      * destruct (Ascii.eqb c1 q).
        -- apply Hstep. simpl in Hn. simpl. lia.
        -- destruct (UnquoteChar (String c (String c1 t1)) q) as [[v tail] |] eqn:E;
             [| reflexivity].
           apply UnquoteChar_length in E. simpl in E, Hn. apply Hstep. lia.
    + apply Hstep. lia.
Qed.

(** A token other than end-of-input takes at least one byte. *)
Lemma nextToken_consumes l tok l' :
  nextToken l = (inl tok, l') ->
  (String.length (lexRest l') + tokWeight tok <= String.length (lexRest l))%nat.
Proof.
  unfold nextToken. destruct (span IsSpace (lexRest l)) as [sp s0] eqn:Esp.
  apply span_length in Esp.
  destruct s0 as [| r s1].
  { intros H. inversion H; subst. unfold tokWeight. simpl. lia. }
  simpl in Esp.
  destruct (IsDigit r).
  { destruct (span _ s1) as [ds s2] eqn:E. apply span_length in E.
    intros H. inversion H; subst. unfold tokWeight. simpl. lia. }
  destruct (IsLetter r || Ascii.eqb r "_").
  { destruct (span _ s1) as [cs s2] eqn:E. apply span_length in E.
    intros H. inversion H; subst. unfold tokWeight. simpl. lia. }
  destruct (Ascii.eqb r dquote || Ascii.eqb r "'").
  { destruct (lexString _ r s1 "") as [[sb | e] s2] eqn:E; [| discriminate].
    apply lexString_length in E.
    intros H. inversion H; subst. unfold tokWeight. simpl. lia. }
  repeat match goal with
         | |- (if ?b then _ else _) = _ -> _ => destruct b
         end;
    try (intros H; inversion H; subst; unfold tokWeight; simpl; lia).
  destruct (find _ two_char_ops).
  - intros H. inversion H; subst. unfold tokWeight. simpl.
    pose proof (str_drop_length 1 s1). simpl in *. lia.
  - intros H. inversion H; subst. unfold tokWeight. simpl. lia.
Qed.

Lemma advance_pending p :
  (pending (advance p) + tokWeight (curr p) <= pending p)%nat.
Proof.
  unfold advance, pending. destruct (lexErr p) eqn:El; simpl.
  - unfold tokWeight. simpl. lia.
  - destruct (nextToken (lex p)) as [[n | e] l'] eqn:E; simpl.
    + apply nextToken_consumes in E. lia.
    + unfold tokWeight. simpl. lia.
Qed.

Lemma advance_pending_le p : (pending (advance p) <= pending p)%nat.
Proof. pose proof (advance_pending p). lia. Qed.

Lemma advance_pending_lt p :
  typ (curr p) <> tEOF -> (pending (advance p) < pending p)%nat.
Proof.
  intros H. pose proof (advance_pending p). unfold tokWeight in *.
  destruct (typ (curr p)); simpl in *; try lia. congruence.
Qed.

(* ================================================================== *)
(** ** The parser terminates *)
(* ================================================================== *)

Lemma good_lt_le {A : Type} (p : parser) (r : presult A) : good_lt p r -> good_le p r.
Proof. unfold good_lt, good_le. destruct r; simpl; intuition lia. Qed.

Lemma good_le_mono {A : Type} (p q : parser) (r : presult A) :
  (pending q <= pending p)%nat -> good_le q r -> good_le p r.
Proof. unfold good_le. destruct r; simpl; intuition lia. Qed.

Lemma good_lt_mono {A : Type} (p q : parser) (r : presult A) :
  (pending q <= pending p)%nat -> good_lt q r -> good_lt p r.
Proof. unfold good_lt. destruct r; simpl; intuition lia. Qed.

Lemma good_le_err {A : Type} (p : parser) (e : error) : good_le p (@PErr A e).
Proof. split; exact I. Qed.

Lemma good_le_ok {A : Type} (p p' : parser) (a : A) :
  (pending p' <= pending p)%nat -> good_le p (POk a p').
Proof. split; [exact I | exact H]. Qed.

(** Sequencing: a step that is good from [p], followed by a step that is
    good from wherever the first one stopped. *)
Lemma pbind_good_le {A B : Type} (p : parser) (r : presult A)
    (f : A -> parser -> presult B) :
  good_le p r ->
  (forall a p', r = POk a p' -> good_le p' (f a p')) ->
  good_le p (pbind r f).
Proof.
  intros [Ht Hc] Hf. destruct r as [a p' | e |]; simpl in *.
  - eapply good_le_mono; [exact Hc | now apply Hf].
  - apply good_le_err.
  - contradiction.
Qed.

Lemma lbp_pos_op t : 0 < lbp t -> typ t = tOp.
Proof. unfold lbp. destruct (typ t); try lia. reflexivity. Qed.

Lemma lbp_nonneg t : 0 <= lbp t.
Proof.
  unfold lbp. destruct (typ t); try lia.
  repeat match goal with |- context [if ?b then _ else _] => destruct b end; lia.
Qed.

Section StepsTerminate.

Context (parse_rec : Z -> Z -> parser -> presult Expr).
Context (parseArgs_rec : Z -> parser -> presult (list Expr)).
Context (bound : nat).
Hypothesis parse_rec_good : forall rbp d q,
  0 <= rbp -> (pending q <= bound)%nat -> good_lt q (parse_rec rbp d q).
Hypothesis parseArgs_rec_good : forall d q,
  (pending q <= bound)%nat -> good_le q (parseArgs_rec d q).

Lemma nud_good t d p :
  (pending p <= bound)%nat -> good_le p (nud parse_rec parseArgs_rec t d p).
Proof.
  intros Hb. unfold nud. destruct (typ t); try apply good_le_err.
  - destruct (contains_byte "." (val t)); apply good_le_ok; lia.
  - apply good_le_ok; lia.
  - destruct (String.eqb (val t) "true"); [apply good_le_ok; lia |].
    destruct (String.eqb (val t) "false"); [apply good_le_ok; lia |].
    destruct (tokType_eqb (typ (curr p)) tLParen); [| apply good_le_ok; lia].
    pose proof (advance_pending_le p) as Ha.
    eapply good_le_mono; [exact Ha |].
    apply pbind_good_le; [apply parseArgs_rec_good; lia |].
    intros args p' _. apply good_le_ok; lia.
  - apply pbind_good_le; [apply good_lt_le, parse_rec_good; lia |].
    intros e p' Hr.
    destruct (negb (tokType_eqb (typ (curr p')) tRParen)); [apply good_le_err |].
    apply good_le_ok, advance_pending_le.
  - destruct (existsb _ _); [| apply good_le_err].
    apply pbind_good_le; [apply good_lt_le, parse_rec_good; lia |].
    intros e p' _. apply good_le_ok; lia.
Qed.

Lemma ledIndex_good left d p :
  (pending p <= bound)%nat -> good_le p (ledIndex parse_rec left d p).
Proof.
  intros Hb. unfold ledIndex.
  apply pbind_good_le; [apply good_lt_le, parse_rec_good; lia |].
  intros e p' _. destruct (negb (isOp (curr p') "]")); [apply good_le_err |].
  apply good_le_ok, advance_pending_le.
Qed.

Lemma led_good t left d p :
  0 < lbp t -> (pending p <= bound)%nat ->
  good_le p (led parse_rec parseArgs_rec t left d p).
Proof.
  intros Hl Hb. unfold led.
  destruct (String.eqb (val t) "?").
  { pose proof (parse_rec_good 0 (d + 1) p ltac:(lia) Hb) as Hg.
    apply pbind_good_le; [now apply good_lt_le |].
    intros e p' Hr. rewrite Hr in Hg. destruct Hg as [_ Hlt]. simpl in Hlt.
    destruct (negb (isOp (curr p') ":")); [apply good_le_err |].
    pose proof (advance_pending_le p') as Ha.
    eapply good_le_mono; [exact Ha |].
    apply pbind_good_le; [apply good_lt_le, parse_rec_good; lia |].
    intros e' p'' _. apply good_le_ok; lia. }
  destruct (String.eqb (val t) "["); [now apply ledIndex_good |].
  destruct (String.eqb (val t) ".").
  { pose proof (advance_pending_le p) as Ha.
    destruct (isOp (curr p) "[").
    - eapply good_le_mono; [exact Ha |]. apply ledIndex_good. lia.
    - destruct (tokType_eqb (typ (curr (advance p))) tLParen).
      + pose proof (advance_pending_le (advance p)) as Ha'.
        eapply good_le_mono with (q := advance (advance p)); [lia |].
        apply pbind_good_le; [apply parseArgs_rec_good; lia |].
        intros args p' _. apply good_le_ok; lia.
      + apply good_le_ok; lia. }
  apply pbind_good_le; [apply good_lt_le, parse_rec_good; lia |].
  intros e p' _. apply good_le_ok; lia.
Qed.

End StepsTerminate.

(** With fuel above twice the pending input, [parse], its loop and
    [parseArgs] return a result, and a successful [parse] has consumed at
    least one token. *)
Lemma parse_terminates (n : nat) :
  (forall rbp d p, 0 <= rbp -> (2 * pending p + 1 <= n)%nat ->
     good_lt p (parse n rbp d p))
  /\ (forall rbp d left p, 0 <= rbp -> (2 * pending p + 1 <= n)%nat ->
     good_le p (parseLoop n rbp d left p))
  /\ (forall d args p, (2 * pending p + 2 <= n)%nat ->
     good_le p (parseArgs n d args p)).
Proof.
  induction n as [| n (IHp & IHl & IHa)].
  { repeat split; intros; lia. }
  assert (Hargs : forall d q, (2 * pending q + 2 <= n)%nat ->
            good_le q ((fun d q => parseArgs n d [] q) d q)).
  { intros d q Hq. now apply IHa. }
  repeat apply conj.
  - intros rbp d p Hr Hn. cbn [parse].
    destruct (MaxStackDepth <? d); [split; exact I |].
    destruct (lexErr p); [split; exact I |].
    destruct (lexErr (advance p)) eqn:El; [split; exact I |].
    destruct (tokType_eqb (typ (curr p)) tEOF) eqn:Et.
    { unfold nud. destruct (typ (curr p)); try discriminate. split; exact I. }
    assert (Hlt : (pending (advance p) < pending p)%nat).
    { apply advance_pending_lt. intros Hc. rewrite Hc in Et. discriminate. }
    pose proof (nud_good (parse n) (fun d q => parseArgs n d [] q)
                  (pending (advance p))
                  ltac:(intros; apply IHp; [assumption | lia])
                  ltac:(intros; apply IHa; lia)
                  (curr p) d (advance p) ltac:(lia)) as Hnud.
    destruct (nud _ _ (curr p) d (advance p)) as [left p2 | e |];
      [| split; exact I | destruct Hnud as [[] _]].
    destruct Hnud as [_ Hc2]. simpl in Hc2. simpl.
    destruct (IHl rbp d left p2 Hr ltac:(lia)) as [Ht Hc].
    split; [exact Ht |].
    destruct (parseLoop n rbp d left p2); simpl in *; try exact I. lia.
  - intros rbp d left p Hr Hn. cbn [parseLoop].
    destruct (rbp <? lbp (curr p)) eqn:Hcmp; [| apply good_le_ok; lia].
    apply Z.ltb_lt in Hcmp.
    assert (Hlt : (pending (advance p) < pending p)%nat).
    { apply advance_pending_lt. rewrite (lbp_pos_op (curr p)) by lia. discriminate. }
    destruct (lexErr (advance p)); [apply good_le_err |].
    pose proof (led_good (parse n) (fun d q => parseArgs n d [] q)
                  (pending (advance p))
                  ltac:(intros; apply IHp; [assumption | lia])
                  ltac:(intros; apply IHa; lia)
                  (curr p) left d (advance p) ltac:(lia) ltac:(lia)) as Hled.
    eapply good_le_mono with (q := advance p); [lia |].
    apply pbind_good_le; [exact Hled |].
    intros left' p2 Hr2. rewrite Hr2 in Hled. destruct Hled as [_ Hc2].
    simpl in Hc2. apply IHl; [assumption | lia].
  - intros d args p Hn. cbn [parseArgs].
    destruct (negb (tokType_eqb (typ (curr p)) tRParen)
              && negb (tokType_eqb (typ (curr p)) tEOF)).
    + pose proof (IHp 0 (d + 1) p ltac:(lia) ltac:(lia)) as Hg.
      apply pbind_good_le; [now apply good_lt_le |].
      intros a p1 Hr1. rewrite Hr1 in Hg. destruct Hg as [_ Hc1]. simpl in Hc1.
      pose proof (advance_pending_le p1).
      destruct (tokType_eqb (typ (curr p1)) tComma).
      * eapply good_le_mono with (q := advance p1); [lia |]. apply IHa. lia.
      * apply IHa. lia.
    + destruct (negb (tokType_eqb (typ (curr p)) tRParen)); [apply good_le_err |].
      apply good_le_ok, advance_pending_le.
Qed.

Lemma pending_newParser s : pending (newParser s) = String.length s.
Proof. unfold pending, newParser, tokWeight. simpl. lia. Qed.

Lemma parseFuel_enough s :
  (2 * pending (advance (advance (newParser s))) + 1 <= parseFuel s)%nat.
Proof.
  pose proof (advance_pending_le (advance (newParser s))).
  pose proof (advance_pending_le (newParser s)).
  rewrite pending_newParser in *. unfold parseFuel. lia.
Qed.


(* ================================================================== *)
(** ** The depth guard *)
(* ================================================================== *)









Lemma length_append (a b : string) :
  String.length (a +:+ b) = (String.length a + String.length b)%nat.
Proof. induction a as [| c a IH]; simpl; [reflexivity | now rewrite IH]. Qed.






(* ================================================================== *)
(** ** More fuel does not change a result *)
(* ================================================================== *)

Lemma refines_refl {A : Type} (r : presult A) : refines r r.
Proof. intros _. reflexivity. Qed.

Lemma pbind_refines {A B : Type} (r1 r2 : presult A)
    (f1 f2 : A -> parser -> presult B) :
  refines r1 r2 -> (forall a p, refines (f1 a p) (f2 a p)) ->
  refines (pbind r1 f1) (pbind r2 f2).
Proof.
  intros Hr Hf Ht. destruct r1 as [a p | e |]; simpl in *.
  - rewrite (Hr I). simpl. now apply Hf.
  - rewrite (Hr I). reflexivity.
  - contradiction.
Qed.

Section StepsRefine.

Context (parse1 parse2 : Z -> Z -> parser -> presult Expr).
Context (args1 args2 : Z -> parser -> presult (list Expr)).
Hypothesis parse_ref : forall rbp d p, refines (parse1 rbp d p) (parse2 rbp d p).
Hypothesis args_ref : forall d p, refines (args1 d p) (args2 d p).

Lemma nud_refines t d p :
  refines (nud parse1 args1 t d p) (nud parse2 args2 t d p).
Proof.
  unfold nud. destruct (typ t); try apply refines_refl.
  - destruct (String.eqb (val t) "true"); [apply refines_refl |].
    destruct (String.eqb (val t) "false"); [apply refines_refl |].
    destruct (tokType_eqb (typ (curr p)) tLParen); [| apply refines_refl].
    apply pbind_refines; [apply args_ref | intros; apply refines_refl].
  - apply pbind_refines; [apply parse_ref | intros; apply refines_refl].
  - destruct (existsb _ _); [| apply refines_refl].
    apply pbind_refines; [apply parse_ref | intros; apply refines_refl].
Qed.

Lemma ledIndex_refines left d p :
  refines (ledIndex parse1 left d p) (ledIndex parse2 left d p).
Proof.
  unfold ledIndex.
  apply pbind_refines; [apply parse_ref | intros; apply refines_refl].
Qed.

Lemma led_refines t left d p :
  refines (led parse1 args1 t left d p) (led parse2 args2 t left d p).
Proof.
  unfold led.
  destruct (String.eqb (val t) "?").
  { apply pbind_refines; [apply parse_ref |]. intros e p'.
    destruct (negb (isOp (curr p') ":")); [apply refines_refl |].
    apply pbind_refines; [apply parse_ref | intros; apply refines_refl]. }
  destruct (String.eqb (val t) "["); [apply ledIndex_refines |].
  destruct (String.eqb (val t) ".").
  { destruct (isOp (curr p) "["); [apply ledIndex_refines |].
    destruct (tokType_eqb (typ (curr (advance p))) tLParen); [| apply refines_refl].
    apply pbind_refines; [apply args_ref | intros; apply refines_refl]. }
  apply pbind_refines; [apply parse_ref | intros; apply refines_refl].
Qed.

End StepsRefine.

Lemma parse_fuel_step (n : nat) :
  (forall rbp d p, refines (parse n rbp d p) (parse (S n) rbp d p))
  /\ (forall rbp d left p,
        refines (parseLoop n rbp d left p) (parseLoop (S n) rbp d left p))
  /\ (forall d args p, refines (parseArgs n d args p) (parseArgs (S n) d args p)).
Proof.
  induction n as [| n (IHp & IHl & IHa)].
  { repeat split; intros; intros []. }
  repeat apply conj.
  - intros rbp d p. cbn [parse].
    destruct (MaxStackDepth <? d); [apply refines_refl |].
    destruct (lexErr p); [apply refines_refl |].
    destruct (lexErr (advance p)); [apply refines_refl |].
    apply pbind_refines; [| intros; apply IHl].
    apply nud_refines; [apply IHp | intros; apply IHa].
  - intros rbp d left p. cbn [parseLoop].
    destruct (rbp <? lbp (curr p)); [| apply refines_refl].
    destruct (lexErr (advance p)); [apply refines_refl |].
    apply pbind_refines; [| intros; apply IHl].
    apply led_refines; [apply IHp | intros; apply IHa].
  - intros d args p. cbn [parseArgs].
    destruct (negb (tokType_eqb (typ (curr p)) tRParen)
              && negb (tokType_eqb (typ (curr p)) tEOF)); [| apply refines_refl].
    apply pbind_refines; [apply IHp | intros; apply IHa].
Qed.

Lemma parse_fuel_mono n m rbp d p :
  (n <= m)%nat -> refines (parse n rbp d p) (parse m rbp d p).
Proof.
  induction 1 as [| m Hle IH]; [apply refines_refl |].
  intros Ht. rewrite <- (IH Ht).
  apply (proj1 (parse_fuel_step m)). rewrite (IH Ht). exact Ht.
Qed.

Lemma parseLoop_fuel_mono n m rbp d left p :
  (n <= m)%nat -> refines (parseLoop n rbp d left p) (parseLoop m rbp d left p).
Proof.
  induction 1 as [| m Hle IH]; [apply refines_refl |].
  intros Ht. rewrite <- (IH Ht).
  apply (proj1 (proj2 (parse_fuel_step m))). rewrite (IH Ht). exact Ht.
Qed.

Lemma parseArgs_fuel_mono n m d args p :
  (n <= m)%nat -> refines (parseArgs n d args p) (parseArgs m d args p).
Proof.
  induction 1 as [| m Hle IH]; [apply refines_refl |].
  intros Ht. rewrite <- (IH Ht).
  apply (proj2 (proj2 (parse_fuel_step m))). rewrite (IH Ht). exact Ht.
Qed.

(* ================================================================== *)
(** ** The parser on a token stream *)
(* ================================================================== *)

Lemma nextToken_lexTok l :
  match nextToken l with
  | (inl t, l') =>
      if tokType_eqb (typ t) tEOF
      then lexTok (lexRest l) = LexEOF /\ lexRest l' = ""
      else lexTok (lexRest l) = LexTok (tokOf t) (lexRest l')
  | (inr _, _) => lexTok (lexRest l) = LexErr
  end.
Proof.
  unfold lexTok, nextToken. cbn [lexRest lexPos].
  destruct (span IsSpace (lexRest l)) as [sp s0].
  destruct s0 as [| r s1]; [split; reflexivity |].
  destruct (IsDigit r).
  { destruct (span _ s1) as [ds s2]. reflexivity. }
  destruct (IsLetter r || Ascii.eqb r "_").
  { destruct (span _ s1) as [cs s2]. reflexivity. }
  destruct (Ascii.eqb r dquote || Ascii.eqb r "'").
  { destruct (lexString _ r s1 "") as [[sb | e] s2]; reflexivity. }
  repeat match goal with
         | |- context [if ?b then _ else _] =>
             match b with
             | Ascii.eqb _ _ => destruct b; [reflexivity |]
             end
         end.
  destruct (find _ two_char_ops); reflexivity.
Qed.

Lemma Lexes_empty : Lexes "" [].
Proof. constructor. reflexivity. Qed.

Lemma stream_lexErr ts p : stream ts p -> lexErr p = None.
Proof. intros [H _]. exact H. Qed.

Lemma stream_curr t ts p : stream (t :: ts) p -> tokOf (curr p) = t.
Proof. intros [_ H]. destruct ts; tauto. Qed.

Lemma stream_curr_typ t ts p : stream (t :: ts) p -> typ (curr p) = fst t.
Proof. intros H. apply stream_curr in H. subst t. reflexivity. Qed.

Lemma stream_curr_val t ts p : stream (t :: ts) p -> val (curr p) = snd t.
Proof. intros H. apply stream_curr in H. subst t. reflexivity. Qed.

Lemma stream_nil_typ p : stream [] p -> typ (curr p) = tEOF.
Proof. intros [_ H]. tauto. Qed.

Lemma advance_at_eof p :
  lexErr p = None -> Lexes (lexRest (lex p)) [] ->
  exists t l', advance p = mkParser l' (next p) t None
               /\ typ t = tEOF /\ lexRest l' = "".
Proof.
  intros El Hl. inversion Hl as [s Hs |]; subst.
  unfold advance. rewrite El. pose proof (nextToken_lexTok (lex p)) as Hn.
  destruct (nextToken (lex p)) as [[t | e] l'].
  - destruct (tokType_eqb (typ t) tEOF) eqn:Et.
    + exists t, l'. destruct Hn as [_ Hr]. repeat split; [| exact Hr].
      destruct (typ t); try discriminate; reflexivity.
    + congruence.
  - congruence.
Qed.

Lemma advance_at_tok p t s' :
  lexErr p = None -> lexTok (lexRest (lex p)) = LexTok t s' ->
  exists tk l', advance p = mkParser l' (next p) tk None
                /\ tokOf tk = t /\ lexRest l' = s'.
Proof.
  intros El Hl. unfold advance. rewrite El.
  pose proof (nextToken_lexTok (lex p)) as Hn.
  destruct (nextToken (lex p)) as [[tk | e] l'].
  - destruct (tokType_eqb (typ tk) tEOF).
    + destruct Hn as [Hn _]. congruence.
    + rewrite Hl in Hn. inversion Hn; subst. exists tk, l'. auto.
  - congruence.
Qed.

Lemma stream_advance t ts p : stream (t :: ts) p -> stream ts (advance p).
Proof.
  intros [El H]. destruct ts as [| t2 [| t3 ts']].
  - destruct H as (_ & Hn & Hl).
    destruct (advance_at_eof p El Hl) as (tk & l' & -> & Ht & Hr).
    split; [reflexivity |]. cbn. rewrite Hr. auto using Lexes_empty.
  - destruct H as (_ & Hn & Hl).
    destruct (advance_at_eof p El Hl) as (tk & l' & -> & Ht & Hr).
    split; [reflexivity |]. cbn. rewrite Hr. auto using Lexes_empty.
  - destruct H as (_ & Hn & Hl). inversion Hl as [| s t' s' ts0 Hs Hl']; subst.
    destruct (advance_at_tok p t3 s' El Hs) as (tk & l' & -> & Ht & Hr).
    split; [reflexivity |]. cbn. rewrite Hr. auto.
Qed.

Lemma stream_nil_advance p : stream [] p -> stream [] (advance p).
Proof.
  intros [El (Hc & Hn & Hl)].
  destruct (advance_at_eof p El Hl) as (tk & l' & -> & Ht & Hr).
  split; [reflexivity |]. cbn. rewrite Hr. auto using Lexes_empty.
Qed.

Lemma stream_adv (a ts : list Tok) p :
  stream (a ++ ts)%list p -> stream ts (adv (List.length a) p).
Proof.
  revert p. induction a as [| t a IH]; intros p H; [exact H |].
  simpl. apply IH. eapply stream_advance. exact H.
Qed.

Lemma adv_add (a b : nat) p : adv (a + b) p = adv b (adv a p).
Proof. revert p. induction a as [| a IH]; intros p; [reflexivity | apply IH]. Qed.

Lemma lbp_tokOf t : lbp t = lbpTok (tokOf t).
Proof. reflexivity. Qed.

(** The token at the head of a stream decides [follow] and [stops]. *)
Lemma follow_curr ts p :
  stream ts p -> follow ts -> tokType_eqb (typ (curr p)) tLParen = false.
Proof.
  intros Hs Hf. destruct ts as [| [ty v] ts].
  - rewrite (stream_nil_typ _ Hs). reflexivity.
  - rewrite (stream_curr_typ _ _ _ Hs). simpl in *. destruct ty; tauto.
Qed.

Lemma stops_curr rbp ts p :
  stream ts p -> stops rbp ts -> 0 <= rbp -> (rbp <? lbp (curr p)) = false.
Proof.
  intros Hs Hst Hr. apply Z.ltb_ge. destruct ts as [| t ts].
  - unfold lbp. rewrite (stream_nil_typ _ Hs). exact Hr.
  - rewrite lbp_tokOf, (stream_curr _ _ _ Hs). exact Hst.
Qed.

(* ================================================================== *)
(** ** Printing and reading back an integer *)
(* ================================================================== *)

Lemma digit_byte d :
  0 <= d < 10 ->
  is_digit (byte_of (48 + d)) = true /\ byte_val (byte_of (48 + d)) - 48 = d
  /\ Ascii.eqb "." (byte_of (48 + d)) = false.
Proof.
  intros H.
  assert (Hd : d = 0 \/ d = 1 \/ d = 2 \/ d = 3 \/ d = 4 \/ d = 5 \/ d = 6
               \/ d = 7 \/ d = 8 \/ d = 9) by lia.
  repeat (destruct Hd as [-> | Hd]; [repeat split |]); subst; repeat split.
Qed.

(** Reading the digits of [n] from an accumulator of 0 gives [n]. *)
Lemma parse_uint_digits fuel : forall n acc,
  0 <= n <= MaxUint64 -> Z.log2 n < Z.of_nat fuel ->
  parse_uint_loop (digits_aux fuel n acc) 0 = parse_uint_loop acc n.
Proof.
  induction fuel as [| fuel IH]; intros n acc Hn Hf.
  { pose proof (Z.log2_nonneg n). lia. }
  cbn [digits_aux].
  assert (Hm : 0 <= n mod 10 < 10) by (apply Z.mod_pos_bound; lia).
  destruct (digit_byte (n mod 10) Hm) as (Hd & Hv & _).
  destruct (n <? 10) eqn:Hlt.
  - apply Z.ltb_lt in Hlt. cbn [parse_uint_loop]. rewrite Hd, Hv.
    rewrite Z.mod_small by lia.
    replace (MaxUint64 / 10 + 1 <=? 0) with false by reflexivity.
    replace (0 * 10 + n) with n by lia.
    replace (MaxUint64 <? n) with false by (symmetry; apply Z.ltb_ge; lia).
    reflexivity.
  - apply Z.ltb_ge in Hlt.
    assert (Hq : 0 <= n / 10 <= MaxUint64 / 10).
    { split; [apply Z.div_pos; lia | apply Z.div_le_mono; lia]. }
    rewrite IH.
    + cbn [parse_uint_loop]. rewrite Hd, Hv.
      replace (MaxUint64 / 10 + 1 <=? n / 10) with false
        by (symmetry; apply Z.leb_gt; lia).
      replace (n / 10 * 10 + n mod 10) with n
        by (rewrite (Z.div_mod n 10) at 1; lia).
      replace (MaxUint64 <? n) with false by (symmetry; apply Z.ltb_ge; lia).
      reflexivity.
    + split; [apply Hq |]. transitivity (MaxUint64 / 10); [apply Hq |].
      unfold Z.le. vm_compute. discriminate.
    + assert (Hl : Z.log2 (n / 10) < Z.log2 n).
      { assert (n / 10 <= n / 2) by (apply Z.div_le_compat_l; lia).
        assert (Z.log2 (n / 2) = Z.log2 n - 1).
        { rewrite <- Z.div2_div, Z.div2_spec, Z.log2_shiftr by lia.
          pose proof (Z.log2_pos n). lia. }
        pose proof (Z.log2_le_mono (n / 10) (n / 2)). lia. }
      lia.
Qed.

Lemma digits_aux_digits fuel : forall n acc,
  0 <= n -> str_forall is_digit acc = true ->
  str_forall is_digit (digits_aux fuel n acc) = true.
Proof.
  induction fuel as [| fuel IH]; intros n acc Hn Ha; [exact Ha |].
  cbn [digits_aux].
  assert (Hm : 0 <= n mod 10 < 10) by (apply Z.mod_pos_bound; lia).
  destruct (digit_byte (n mod 10) Hm) as (Hd & _ & _).
  destruct (n <? 10).
  - simpl. now rewrite Hd.
  - apply IH; [apply Z.div_pos; lia |]. simpl. now rewrite Hd.
Qed.

Lemma digits_aux_nonempty fuel n acc :
  digits_aux (S fuel) n acc <> EmptyString.
Proof.
  revert n acc. induction fuel as [| fuel IH]; intros n acc.
  - cbn. destruct (n <? 10); discriminate.
  - cbn [digits_aux]. destruct (n <? 10); [discriminate |]. apply IH.
Qed.

Lemma FormatUint_digits n :
  0 <= n -> str_forall is_digit (FormatUint n) = true /\ FormatUint n <> EmptyString.
Proof.
  intros Hn. split.
  - now apply digits_aux_digits.
  - apply digits_aux_nonempty.
Qed.

Lemma str_forall_impl (f g : ascii -> bool) s :
  (forall c, f c = true -> g c = true) ->
  str_forall f s = true -> str_forall g s = true.
Proof.
  intros Hfg. induction s as [| c s IH]; simpl; [reflexivity |].
  intros H. apply andb_prop in H as [Hc Hs]. rewrite (Hfg c Hc). now apply IH.
Qed.

Lemma digits_no_dot s : str_forall is_digit s = true -> contains_byte "." s = false.
Proof.
  induction s as [| c s IH]; [reflexivity |].
  cbn [str_forall contains_byte].
  intros H. apply andb_prop in H as [Hc Hs]. rewrite (IH Hs), orb_false_r.
  destruct (Ascii.eqb "." c) eqn:E; [| reflexivity].
  apply Ascii.eqb_eq in E. subst c. discriminate.
Qed.

(** A non-negative int64 prints as a number token that reads back. *)
Lemma FormatInt_reads_back n :
  0 <= n <= MaxInt64 ->
  isNumberText (FormatInt n) = true
  /\ contains_byte "." (FormatInt n) = false
  /\ ParseInt (FormatInt n) = (n, NumOk).
Proof.
  intros Hn. unfold FormatInt.
  replace (n <? 0) with false by (symmetry; apply Z.ltb_ge; lia).
  destruct (FormatUint_digits n ltac:(lia)) as [Hd Hne].
  assert (Hp : parse_uint_loop (FormatUint n) 0 = (n, NumOk)).
  { unfold FormatUint. rewrite parse_uint_digits.
    - reflexivity.
    - unfold MaxInt64, MaxUint64 in *. lia.
    - pose proof (Z.log2_nonneg n). lia. }
  destruct (FormatUint n) as [| c s] eqn:E; [congruence |].
  simpl in Hd. apply andb_prop in Hd as [Hc Hs].
  repeat split.
  - simpl. unfold IsDigit. rewrite Hc. simpl.
    apply (str_forall_impl is_digit); [| exact Hs].
    intros c' Hc'. unfold isNumberChar, IsDigit. now rewrite Hc'.
  - apply digits_no_dot. simpl. now rewrite Hc.
  - unfold ParseInt.
    assert (Hplus : Ascii.eqb c "+" = false)
      by (destruct (Ascii.eqb_spec c "+"); [subst; discriminate | reflexivity]).
    assert (Hminus : Ascii.eqb c "-" = false)
      by (destruct (Ascii.eqb_spec c "-"); [subst; discriminate | reflexivity]).
    rewrite Hplus, Hminus. unfold ParseUint. rewrite Hp. simpl.
    replace (2 ^ 63 <=? n) with false
      by (symmetry; apply Z.leb_gt; unfold MaxInt64 in *; lia).
    reflexivity.
Qed.

(* ================================================================== *)
(** ** Steps of the parser, with enough fuel *)
(* ================================================================== *)

Lemma nud_fuel_mono n m t d p :
  (n <= m)%nat ->
  refines (nud (parse n) (fun d q => parseArgs n d [] q) t d p)
          (nud (parse m) (fun d q => parseArgs m d [] q) t d p).
Proof.
  intros H. apply nud_refines.
  - intros; now apply parse_fuel_mono.
  - intros; now apply parseArgs_fuel_mono.
Qed.

Lemma led_fuel_mono n m t left d p :
  (n <= m)%nat ->
  refines (led (parse n) (fun d q => parseArgs n d [] q) t left d p)
          (led (parse m) (fun d q => parseArgs m d [] q) t left d p).
Proof.
  intros H. apply led_refines.
  - intros; now apply parse_fuel_mono.
  - intros; now apply parseArgs_fuel_mono.
Qed.

Lemma loops_exit rbp d left p :
  (rbp <? lbp (curr p)) = false -> loops rbp d left p (POk left p).
Proof.
  intros H. exists 1%nat. cbn [parseLoop]. rewrite H. split; [reflexivity | exact I].
Qed.

Lemma parses_step rbp d p left p2 r :
  (MaxStackDepth <? d) = false -> lexErr p = None -> lexErr (advance p) = None ->
  (exists n, nud (parse n) (fun d q => parseArgs n d [] q) (curr p) d (advance p)
             = POk left p2) ->
  loops rbp d left p2 r -> parses rbp d p r.
Proof.
  intros Hd El El' [n1 Hn] (n2 & Hl & Ht).
  exists (S (Nat.max n1 n2)). split; [| exact Ht].
  cbn [parse]. rewrite Hd, El, El'.
  rewrite (nud_fuel_mono n1 (Nat.max n1 n2) _ _ _ ltac:(lia));
    [| rewrite Hn; exact I].
  rewrite Hn. cbn [pbind].
  rewrite (parseLoop_fuel_mono n2 (Nat.max n1 n2) _ _ _ _ ltac:(lia));
    [exact Hl | rewrite Hl; exact Ht].
Qed.

Lemma loops_step rbp d left p left' p2 r :
  (rbp <? lbp (curr p)) = true -> lexErr (advance p) = None ->
  (exists n, led (parse n) (fun d q => parseArgs n d [] q) (curr p) left d (advance p)
             = POk left' p2) ->
  loops rbp d left' p2 r -> loops rbp d left p r.
Proof.
  intros Hc El' [n1 Hn] (n2 & Hl & Ht).
  exists (S (Nat.max n1 n2)). split; [| exact Ht].
  cbn [parseLoop]. rewrite Hc, El'.
  rewrite (led_fuel_mono n1 (Nat.max n1 n2) _ _ _ _ ltac:(lia));
    [| rewrite Hn; exact I].
  rewrite Hn. cbn [pbind].
  rewrite (parseLoop_fuel_mono n2 (Nat.max n1 n2) _ _ _ _ ltac:(lia));
    [exact Hl | rewrite Hl; exact Ht].
Qed.

Lemma argsTo_done d acc p :
  typ (curr p) = tRParen -> argsTo d acc p (POk acc (advance p)).
Proof.
  intros H. exists 1%nat. cbn [parseArgs]. rewrite H. simpl.
  split; [reflexivity | exact I].
Qed.

Lemma argsTo_step d acc p a p1 r :
  negb (tokType_eqb (typ (curr p)) tRParen)
  && negb (tokType_eqb (typ (curr p)) tEOF) = true ->
  parses 0 (d + 1) p (POk a p1) ->
  argsTo d (acc ++ [a])
         (if tokType_eqb (typ (curr p1)) tComma then advance p1 else p1) r ->
  argsTo d acc p r.
Proof.
  intros Hc (n1 & Hp & _) (n2 & Ha & Ht).
  exists (S (Nat.max n1 n2)). split; [| exact Ht].
  cbn [parseArgs]. rewrite Hc.
  rewrite (parse_fuel_mono n1 (Nat.max n1 n2) _ _ _ ltac:(lia));
    [| rewrite Hp; exact I].
  rewrite Hp. cbn [pbind].
  rewrite (parseArgs_fuel_mono n2 (Nat.max n1 n2) _ _ _ ltac:(lia));
    [exact Ha | rewrite Ha; exact Ht].
Qed.

(** The forms of [nud]. *)
Lemma nud_call t d p name args p' :
  tokOf t = (tIdent, name) -> isVarName name = true ->
  typ (curr p) = tLParen ->
  argsTo d [] (advance p) (POk args p') ->
  exists n, nud (parse n) (fun d q => parseArgs n d [] q) t d p
            = POk (CallExpr name args) p'.
Proof.
  intros Ht Hv Hc (n & Ha & _). exists n. unfold nud.
  inversion Ht as [[Hty Hval]]. rewrite Hty, Hval.
  unfold isVarName in Hv. apply andb_prop in Hv as [Hv Hf].
  apply andb_prop in Hv as [_ Htr].
  apply negb_true_iff in Htr, Hf. rewrite Htr, Hf, Hc. cbn [tokType_eqb].
  rewrite Ha. reflexivity.
Qed.

Lemma nud_variable parse_rec args_rec t d p name :
  tokOf t = (tIdent, name) -> isVarName name = true ->
  tokType_eqb (typ (curr p)) tLParen = false ->
  nud parse_rec args_rec t d p = POk (VariableExpr name) p.
Proof.
  intros Ht Hv Hc. unfold nud.
  inversion Ht as [[Hty Hval]]. rewrite Hty, Hval.
  unfold isVarName in Hv. apply andb_prop in Hv as [Hv Hf].
  apply andb_prop in Hv as [_ Htr].
  apply negb_true_iff in Htr, Hf. rewrite Htr, Hf, Hc. reflexivity.
Qed.

Lemma nud_paren t d p e p' :
  typ t = tLParen -> parses 0 (d + 1) p (POk e p') -> typ (curr p') = tRParen ->
  exists n, nud (parse n) (fun d q => parseArgs n d [] q) t d p = POk e (advance p').
Proof.
  intros Ht (n & Hp & _) Hc. exists n. unfold nud. rewrite Ht, Hp. cbn [pbind].
  rewrite Hc. reflexivity.
Qed.

Lemma nud_unary t d p op r p' :
  tokOf t = (tOp, op) -> existsb (String.eqb op) unaryOps = true ->
  parses 60 (d + 1) p (POk r p') ->
  exists n, nud (parse n) (fun d q => parseArgs n d [] q) t d p
            = POk (UnaryExpr op r) p'.
Proof.
  intros Ht Hop (n & Hp & _). exists n. unfold nud.
  inversion Ht as [[Hty Hval]]. rewrite Hty, Hval.
  unfold unaryOps in Hop. rewrite Hop, Hp. reflexivity.
Qed.

(** The forms of [led]. *)
Lemma led_member parse_rec args_rec t left d p key :
  val t = "." -> tokOf (curr p) = (tIdent, key) ->
  tokType_eqb (typ (curr (advance p))) tLParen = false ->
  led parse_rec args_rec t left d p = POk (MemberAccessExpr left key false) (advance p).
Proof.
  intros Hv Hc Hn. unfold led. rewrite Hv. cbn [String.eqb Ascii.eqb].
  inversion Hc as [[Hty Hval]]. unfold isOp. rewrite Hty. cbn [tokType_eqb andb].
  rewrite Hn. reflexivity.
Qed.

Lemma led_method t left d p meth args p' :
  val t = "." -> tokOf (curr p) = (tIdent, meth) ->
  typ (curr (advance p)) = tLParen ->
  argsTo d [] (advance (advance p)) (POk args p') ->
  exists n, led (parse n) (fun d q => parseArgs n d [] q) t left d p
            = POk (MethodCallExpr left meth args) p'.
Proof.
  intros Hv Hc Hn (n & Ha & _). exists n. unfold led. rewrite Hv.
  cbn [String.eqb Ascii.eqb].
  inversion Hc as [[Hty Hval]]. unfold isOp. rewrite Hty. cbn [tokType_eqb andb].
  rewrite Hn. cbn [tokType_eqb]. rewrite Ha. reflexivity.
Qed.

Lemma led_index t left d p idx p' :
  val t = "[" -> parses 0 (d + 1) p (POk idx p') -> tokOf (curr p') = (tOp, "]") ->
  exists n, led (parse n) (fun d q => parseArgs n d [] q) t left d p
            = POk (IndexExpr left idx) (advance p').
Proof.
  intros Hv (n & Hp & _) Hc. exists n. unfold led. rewrite Hv.
  cbn [String.eqb Ascii.eqb]. unfold ledIndex. rewrite Hp. cbn [pbind].
  inversion Hc as [[Hty Hval]]. unfold isOp. rewrite Hty, Hval. reflexivity.
Qed.

Lemma led_ternary t left d p thn p' els p'' :
  tokOf t = (tOp, "?") ->
  parses 0 (d + 1) p (POk thn p') -> tokOf (curr p') = (tOp, ":") ->
  parses 4 (d + 1) (advance p') (POk els p'') ->
  exists n, led (parse n) (fun d q => parseArgs n d [] q) t left d p
            = POk (TernaryExpr left thn els) p''.
Proof.
  intros Ht (n1 & Hp1 & _) Hc (n2 & Hp2 & _).
  exists (Nat.max n1 n2). unfold led.
  inversion Ht as [[Hty Hval]]. rewrite Hval. cbn [String.eqb Ascii.eqb].
  rewrite (parse_fuel_mono n1 (Nat.max n1 n2) _ _ _ ltac:(lia));
    [| rewrite Hp1; exact I].
  rewrite Hp1. cbn [pbind].
  inversion Hc as [[Hty' Hval']]. unfold isOp. rewrite Hty', Hval'.
  cbn [tokType_eqb String.eqb Ascii.eqb andb negb].
  replace (lbp t - 1) with 4 by (unfold lbp; rewrite Hty, Hval; reflexivity).
  rewrite (parse_fuel_mono n2 (Nat.max n1 n2) _ _ _ ltac:(lia));
    [| rewrite Hp2; exact I].
  rewrite Hp2. reflexivity.
Qed.

(** An infix operator has a binding power between 10 and 50 and is none
    of the tokens [led] treats apart. *)
Lemma infixOps_lbp op :
  existsb (String.eqb op) infixOps = true ->
  0 < lbpTok (tOp, op) < 100
  /\ String.eqb op "?" = false /\ String.eqb op "[" = false
  /\ String.eqb op "." = false.
Proof.
  unfold infixOps. cbn [existsb]. intros H.
  repeat match type of H with
         | (String.eqb op ?s || _) = true =>
             destruct (String.eqb_spec op s);
             [subst op; vm_compute; repeat split; discriminate || reflexivity
             | simpl in H]
         end.
  discriminate.
Qed.

Lemma led_infix t left d p op r p' :
  tokOf t = (tOp, op) -> existsb (String.eqb op) infixOps = true ->
  parses (lbpTok (tOp, op)) (d + 1) p (POk r p') ->
  exists n, led (parse n) (fun d q => parseArgs n d [] q) t left d p
            = POk (InfixExpr left op r) p'.
Proof.
  intros Ht Hop (n & Hp & _). exists n. unfold led.
  destruct (infixOps_lbp op Hop) as (_ & H1 & H2 & H3).
  inversion Ht as [[Hty Hval]]. rewrite Hval, H1, H2, H3.
  rewrite lbp_tokOf, Ht, Hp. reflexivity.
Qed.

(* ================================================================== *)
(** ** The parser reads a printed expression back *)
(* ================================================================== *)

Lemma sf_same_eq x y : sf_same x y = true -> x = y.
Proof.
  destruct x, y; simpl; try discriminate; intros H.
  - apply Bool.eqb_prop in H. now subst.
  - apply Bool.eqb_prop in H. now subst.
  - apply andb_prop in H as [H He]. apply andb_prop in H as [Hs Hm].
    apply Bool.eqb_prop in Hs. apply Pos.eqb_eq in Hm. apply Z.eqb_eq in He.
    now subst.
Qed.

(** An induction principle for [Expr] that reaches the arguments. *)
Lemma Expr_ind_args (P : Expr -> Prop) :
  (forall v, P (LiteralExpr v)) ->
  (forall name, P (VariableExpr name)) ->
  (forall l key b, P l -> P (MemberAccessExpr l key b)) ->
  (forall l i, P l -> P i -> P (IndexExpr l i)) ->
  (forall l m args, P l -> Forall P args -> P (MethodCallExpr l m args)) ->
  (forall name args, Forall P args -> P (CallExpr name args)) ->
  (forall op r, P r -> P (UnaryExpr op r)) ->
  (forall l op r, P l -> P r -> P (InfixExpr l op r)) ->
  (forall c t e, P c -> P t -> P e -> P (TernaryExpr c t e)) ->
  forall e, P e.
Proof.
  intros HL HV HM HI HMC HC HU HIn HT.
  fix IH 1. intros e. destruct e.
  - apply HL.
  - apply HV.
  - apply HM, IH.
  - apply HI; apply IH.
  - apply HMC; [apply IH |].
    induction Args as [| a args IHa]; constructor; [apply IH | exact IHa].
  - apply HC.
    induction Args as [| a args IHa]; constructor; [apply IH | exact IHa].
  - apply HU, IH.
  - apply HIn; apply IH.
  - apply HT; apply IH.
Qed.

Section ReadBack.

Context (h : Host).

Lemma nud_literal parse_rec args_rec t d p v :
  tokOf t = literalTok h v -> literalReparses h v = true ->
  nud parse_rec args_rec t d p = POk (LiteralExpr v) p.
Proof.
  intros Ht Hv. unfold nud, tokOf in *.
  destruct v; try discriminate; cbn [literalTok] in Ht;
    inversion Ht as [[Hty Hval]]; clear Ht; rewrite Hty, Hval.
  - destruct b; reflexivity.
  - destruct k; try discriminate. simpl in Hv.
    apply andb_prop in Hv as [H0 H1]. apply Z.leb_le in H0, H1.
    destruct (FormatInt_reads_back n ltac:(lia)) as (_ & Hdot & Hp).
    unfold Sprint. rewrite Hdot, Hp. reflexivity.
  - destruct k; try discriminate. cbn [literalReparses] in Hv.
    apply andb_prop in Hv as [Hv Hsame]. apply andb_prop in Hv as [_ Hdot].
    apply sf_same_eq in Hsame.
    assert (Hs : Sprint h (VFloat Float64 f) = hSprint h (VFloat Float64 f))
      by reflexivity.
    rewrite ?Hs, Hdot, Hsame. reflexivity.
  - reflexivity.
Qed.

Lemma etoks_argtoks args :
  (fix argtoks (args : list Expr) : list Tok :=
     match args with
     | [] => []
     | [a] => etoks h a
     | a :: rest => (etoks h a ++ (tComma, ",") :: argtoks rest)%list
     end) args = argtoks h args.
Proof. induction args as [| a [| b rest] IH]; try reflexivity. Qed.

Lemma need_needs args :
  (fix needs (args : list Expr) : Z :=
     match args with
     | [] => 0
     | a :: rest => Z.max (1 + need a) (needs rest)
     end) args = needs args.
Proof. induction args as [| a rest IH]; reflexivity. Qed.

Lemma needs_nonneg args : 0 <= needs args.
Proof. induction args; simpl; lia. Qed.

Lemma need_nonneg e : 0 <= need e.
Proof.
  induction e using Expr_ind_args; cbn [need]; rewrite ?need_needs; try lia.
  apply needs_nonneg.
Qed.

(** The first token of a printed expression starts a primary. *)
Lemma etoks_head e :
  reparsable h e = true ->
  exists t ts, etoks h e = t :: ts
               /\ fst t <> tRParen /\ fst t <> tEOF.
Proof.
  induction e using Expr_ind_args; intros Hr; cbn [etoks]; rewrite ?etoks_argtoks.
  - eexists _, _. split; [reflexivity |].
    destruct v; simpl; split; discriminate.
  - eexists _, _. split; [reflexivity | split; discriminate].
  - cbn [reparsable] in Hr. apply andb_prop in Hr as [_ Hr].
    destruct (IHe Hr) as (t & ts & -> & H1 & H2). eexists _, _.
    split; [reflexivity | auto].
  - cbn [reparsable] in Hr. apply andb_prop in Hr as [Hr _].
    destruct (IHe1 Hr) as (t & ts & -> & H1 & H2). eexists _, _.
    split; [reflexivity | auto].
  - cbn [reparsable] in Hr. apply andb_prop in Hr as [Hr _].
    apply andb_prop in Hr as [_ Hr].
    destruct (IHe Hr) as (t & ts & -> & H1 & H2). eexists _, _.
    split; [reflexivity | auto].
  - eexists _, _. split; [reflexivity | split; discriminate].
  - eexists _, _. split; [reflexivity | split; discriminate].
  - eexists _, _. split; [reflexivity | split; discriminate].
  - eexists _, _. split; [reflexivity | split; discriminate].
Qed.

(** A complete parse: the loop stops at the token after [e]. *)
Lemma chain_complete e :
  chainOK h e ->
  forall rbp d p ts,
    reparsable h e = true ->
    stream (etoks h e ++ ts)%list p -> follow ts -> stops rbp ts ->
    0 <= rbp < 100 -> d + need e <= MaxStackDepth ->
    parses rbp d p (POk e (adv (List.length (etoks h e)) p)).
Proof.
  intros Hc rbp d p ts Hr Hs Hf Hst Hrbp Hd.
  apply (Hc rbp d p ts); try assumption.
  apply loops_exit. apply (stops_curr rbp ts); [| assumption | lia].
  now apply stream_adv.
Qed.

Lemma depth_ok d e : d + need e <= MaxStackDepth -> (MaxStackDepth <? d) = false.
Proof. intros H. pose proof (need_nonneg e). apply Z.ltb_ge. lia. Qed.

End ReadBack.

Section ReadBackChain.

Context (h : Host).

Lemma adv_app (a b : list Tok) p :
  adv (List.length (a ++ b)%list) p = adv (List.length b) (adv (List.length a) p).
Proof. rewrite List.length_app. apply adv_add. Qed.

Lemma adv_S k p : adv (S k) p = adv 1 (adv k p).
Proof. replace (S k) with (k + 1)%nat by lia. apply adv_add. Qed.

Lemma loops_eq rbp d left p p' r : p = p' -> loops rbp d left p r -> loops rbp d left p' r.
Proof. intros ->. trivial. Qed.

Lemma argsTo_eq d acc p r r' : r = r' -> argsTo d acc p r -> argsTo d acc p r'.
Proof. intros ->. trivial. Qed.

Lemma parses_eq rbp d p r r' : r = r' -> parses rbp d p r -> parses rbp d p r'.
Proof. intros ->. trivial. Qed.

Lemma head_not_closing ts t p :
  stream (t :: ts) p -> fst t <> tRParen -> fst t <> tEOF ->
  negb (tokType_eqb (typ (curr p)) tRParen)
  && negb (tokType_eqb (typ (curr p)) tEOF) = true.
Proof.
  intros Hs H1 H2. rewrite (stream_curr_typ _ _ _ Hs).
  destruct (fst t); try reflexivity; contradiction.
Qed.

Lemma args_complete args :
  Forall (chainOK h) args ->
  forall d acc p ts,
    forallb (reparsable h) args = true ->
    stream (argtoks h args ++ (tRParen, ")") :: ts)%list p ->
    d + needs args <= MaxStackDepth ->
    argsTo d acc p
      (POk (acc ++ args)%list (adv (S (List.length (argtoks h args))) p)).
Proof.
  induction 1 as [| a rest Ha Hrest IH]; intros d acc p ts Hr Hs Hd.
  - simpl in Hs. rewrite app_nil_r. apply argsTo_done.
    now rewrite (stream_curr_typ _ _ _ Hs).
  - cbn [forallb] in Hr. apply andb_prop in Hr as [Hra Hrr].
    cbn [needs] in Hd.
    pose proof (need_nonneg a) as Hna. pose proof (needs_nonneg rest) as Hnr.
    destruct (etoks_head h a Hra) as (t0 & ts0 & Ht0 & Hh1 & Hh2).
    destruct rest as [| b rest'].
    + cbn [argtoks] in *.
      assert (Hs1 : stream ((tRParen, ")") :: ts) (adv (List.length (etoks h a)) p))
        by now apply stream_adv.
      eapply argsTo_step.
      * rewrite Ht0 in Hs. exact (head_not_closing _ _ _ Hs Hh1 Hh2).
      * apply (chain_complete h a Ha 0 (d + 1) p ((tRParen, ")") :: ts));
          try assumption; try exact I; try lia;
          try (simpl; unfold lbpTok, lbp; simpl; lia).
      * rewrite (stream_curr_typ _ _ _ Hs1). cbn [fst tokType_eqb].
        eapply argsTo_eq; [| apply (IH d (acc ++ [a])%list _ ts); auto; lia].
        rewrite <- app_assoc, app_nil_r. cbn [argtoks List.length].
        now rewrite (adv_S (List.length (etoks h a))).
    + change (argtoks h (a :: b :: rest'))
        with (etoks h a ++ (tComma, ",") :: argtoks h (b :: rest'))%list in *.
      rewrite <- app_assoc, <- app_comm_cons in Hs.
      assert (Hs1 : stream ((tComma, ",") :: argtoks h (b :: rest') ++ (tRParen, ")") :: ts)
                      (adv (List.length (etoks h a)) p))
        by now apply stream_adv.
      eapply argsTo_step.
      * rewrite Ht0 in Hs. exact (head_not_closing _ _ _ Hs Hh1 Hh2).
      * apply (chain_complete h a Ha 0 (d + 1) p
                 ((tComma, ",") :: argtoks h (b :: rest') ++ (tRParen, ")") :: ts));
          try assumption; try exact I; try lia;
          try (simpl; unfold lbpTok, lbp; simpl; lia).
      * rewrite (stream_curr_typ _ _ _ Hs1). cbn [fst tokType_eqb].
        eapply argsTo_eq;
          [| apply (IH d (acc ++ [a])%list _ ts); auto;
             [apply stream_advance in Hs1; exact Hs1 | lia]].
        rewrite <- app_assoc. cbn [app].
        f_equal. rewrite List.length_app. cbn [List.length].
        replace (S (List.length (etoks h a) + S (List.length (argtoks h (b :: rest')))))
          with (List.length (etoks h a) + S (S (List.length (argtoks h (b :: rest')))))%nat
          by lia.
        rewrite adv_add. reflexivity.
Qed.

Lemma lbp_dot : lbpTok (tOp, ".") = 100.
Proof. reflexivity. Qed.

Lemma lbp_bracket : lbpTok (tOp, "[") = 100.
Proof. reflexivity. Qed.

Lemma lbp_question : lbpTok (tOp, "?") = 5.
Proof. reflexivity. Qed.

Lemma stops_closing rbp c ts :
  0 <= rbp -> In c [(tRParen, ")"); (tOp, "]"); (tOp, ":"); (tComma, ",")] ->
  stops rbp (c :: ts).
Proof.
  intros H Hin. simpl in Hin.
  destruct Hin as [<- | [<- | [<- | [<- | []]]]]; exact H.
Qed.

Lemma chain_literal v : chainOK h (LiteralExpr v).
Proof.
  intros rbp d p ts r Hr Hs Hf Hrbp Hd Hl. cbn [etoks reparsable app] in *.
  apply (parses_step rbp d p (LiteralExpr v) (advance p)).
  - exact (depth_ok _ _ Hd).
  - exact (stream_lexErr _ _ Hs).
  - exact (stream_lexErr _ _ (stream_advance _ _ _ Hs)).
  - exists 0%nat. apply (nud_literal h); [exact (stream_curr _ _ _ Hs) | exact Hr].
  - exact Hl.
Qed.

Lemma chain_variable name : chainOK h (VariableExpr name).
Proof.
  intros rbp d p ts r Hr Hs Hf Hrbp Hd Hl. cbn [etoks reparsable app] in *.
  apply (parses_step rbp d p (VariableExpr name) (advance p)).
  - exact (depth_ok _ _ Hd).
  - exact (stream_lexErr _ _ Hs).
  - exact (stream_lexErr _ _ (stream_advance _ _ _ Hs)).
  - exists 0%nat. apply nud_variable; [exact (stream_curr _ _ _ Hs) | exact Hr |].
    exact (follow_curr _ _ (stream_advance _ _ _ Hs) Hf).
  - exact Hl.
Qed.

Lemma chain_member l key b : chainOK h l -> chainOK h (MemberAccessExpr l key b).
Proof.
  intros IHl rbp d p ts r Hr Hs Hf Hrbp Hd Hl. cbn [etoks reparsable need] in *.
  apply andb_prop in Hr as [Hr Hrl]. apply andb_prop in Hr as [Hr _].
  apply andb_prop in Hr as [Hb Hkey]. destruct b; [discriminate |].
  rewrite <- app_assoc in Hs. cbn [app] in Hs.
  set (p1 := adv (List.length (etoks h l)) p) in *.
  assert (Hs1 : stream ((tOp, ".") :: (tIdent, key) :: ts) p1)
    by now apply stream_adv.
  pose proof (stream_advance _ _ _ Hs1) as Hs2.
  pose proof (stream_advance _ _ _ Hs2) as Hs3.
  apply (IHl rbp d p ((tOp, ".") :: (tIdent, key) :: ts)); try assumption;
    [exact I |].
  apply (loops_step rbp d l p1 (MemberAccessExpr l key false) (advance (advance p1))).
  - rewrite lbp_tokOf, (stream_curr _ _ _ Hs1), lbp_dot. apply Z.ltb_lt. lia.
  - exact (stream_lexErr _ _ Hs2).
  - exists 0%nat. apply led_member.
    + exact (stream_curr_val _ _ _ Hs1).
    + exact (stream_curr _ _ _ Hs2).
    + exact (follow_curr _ _ Hs3 Hf).
  - eapply loops_eq; [| exact Hl]. unfold p1. rewrite adv_app. reflexivity.
Qed.

Lemma chain_index l i : chainOK h l -> chainOK h i -> chainOK h (IndexExpr l i).
Proof.
  intros IHl IHi rbp d p ts r Hr Hs Hf Hrbp Hd Hl. cbn [etoks reparsable need] in *.
  apply andb_prop in Hr as [Hrl Hri].
  pose proof (need_nonneg l) as Hnl. pose proof (need_nonneg i) as Hni.
  rewrite <- app_assoc in Hs. cbn [app] in Hs.
  rewrite <- app_assoc in Hs. cbn [app] in Hs.
  set (p1 := adv (List.length (etoks h l)) p) in *.
  assert (Hs1 : stream ((tOp, "[") :: etoks h i ++ (tOp, "]") :: ts) p1)
    by now apply stream_adv.
  pose proof (stream_advance _ _ _ Hs1) as Hs2.
  set (p2 := adv (List.length (etoks h i)) (advance p1)) in *.
  assert (Hs3 : stream ((tOp, "]") :: ts) p2) by now apply stream_adv.
  apply (IHl rbp d p ((tOp, "[") :: etoks h i ++ (tOp, "]") :: ts));
    try assumption; [exact I | lia |].
  apply (loops_step rbp d l p1 (IndexExpr l i) (advance p2)).
  - rewrite lbp_tokOf, (stream_curr _ _ _ Hs1), lbp_bracket. apply Z.ltb_lt. lia.
  - exact (stream_lexErr _ _ Hs2).
  - apply led_index.
    + exact (stream_curr_val _ _ _ Hs1).
    + apply (chain_complete h i IHi 0 (d + 1) (advance p1) ((tOp, "]") :: ts));
        try assumption; try exact I; try lia.
      apply stops_closing; simpl; auto; lia.
    + exact (stream_curr _ _ _ Hs3).
  - eapply loops_eq; [| exact Hl]. unfold p2, p1.
    rewrite adv_app. cbn [List.length adv]. rewrite adv_app. reflexivity.
Qed.

Lemma chain_method l m args :
  chainOK h l -> Forall (chainOK h) args -> chainOK h (MethodCallExpr l m args).
Proof.
  intros IHl IHa rbp d p ts r Hr Hs Hf Hrbp Hd Hl.
  cbn [etoks reparsable need] in *. rewrite etoks_argtoks in *.
  rewrite need_needs in Hd.
  apply andb_prop in Hr as [Hr Hra]. apply andb_prop in Hr as [Hr Hrl].
  apply andb_prop in Hr as [Hm _].
  pose proof (need_nonneg l) as Hnl. pose proof (needs_nonneg args) as Hna.
  rewrite <- app_assoc in Hs. cbn [app] in Hs.
  rewrite <- app_assoc in Hs. cbn [app] in Hs.
  set (p1 := adv (List.length (etoks h l)) p) in *.
  assert (Hs1 : stream ((tOp, ".") :: (tIdent, m) :: (tLParen, "(")
                          :: argtoks h args ++ (tRParen, ")") :: ts) p1)
    by now apply stream_adv.
  pose proof (stream_advance _ _ _ Hs1) as Hs2.
  pose proof (stream_advance _ _ _ Hs2) as Hs3.
  pose proof (stream_advance _ _ _ Hs3) as Hs4.
  apply (IHl rbp d p ((tOp, ".") :: (tIdent, m) :: (tLParen, "(")
                        :: argtoks h args ++ (tRParen, ")") :: ts));
    try assumption; [exact I | lia |].
  apply (loops_step rbp d l p1 (MethodCallExpr l m args)
           (adv (S (List.length (argtoks h args))) (advance (advance (advance p1))))).
  - rewrite lbp_tokOf, (stream_curr _ _ _ Hs1), lbp_dot. apply Z.ltb_lt. lia.
  - exact (stream_lexErr _ _ Hs2).
  - apply led_method.
    + exact (stream_curr_val _ _ _ Hs1).
    + exact (stream_curr _ _ _ Hs2).
    + exact (stream_curr_typ _ _ _ Hs3).
    + apply (args_complete args IHa d [] _ ts); [assumption | assumption | lia].
  - eapply loops_eq; [| exact Hl]. unfold p1.
    rewrite adv_app. cbn [List.length adv]. rewrite List.length_app.
    cbn [List.length]. rewrite Nat.add_1_r. reflexivity.
Qed.

Lemma chain_call name args :
  Forall (chainOK h) args -> chainOK h (CallExpr name args).
Proof.
  intros IHa rbp d p ts r Hr Hs Hf Hrbp Hd Hl.
  cbn [etoks reparsable need] in *. rewrite etoks_argtoks in *.
  rewrite need_needs in Hd.
  apply andb_prop in Hr as [Hn Hra].
  pose proof (needs_nonneg args) as Hna.
  cbn [app] in Hs. rewrite <- app_assoc in Hs. cbn [app] in Hs.
  pose proof (stream_advance _ _ _ Hs) as Hs2.
  pose proof (stream_advance _ _ _ Hs2) as Hs3.
  apply (parses_step rbp d p (CallExpr name args)
           (adv (S (List.length (argtoks h args))) (advance (advance p)))).
  - apply Z.ltb_ge. lia.
  - exact (stream_lexErr _ _ Hs).
  - exact (stream_lexErr _ _ Hs2).
  - apply nud_call.
    + exact (stream_curr _ _ _ Hs).
    + exact Hn.
    + exact (stream_curr_typ _ _ _ Hs2).
    + apply (args_complete args IHa d [] _ ts); [assumption | assumption | lia].
  - eapply loops_eq; [| exact Hl].
    cbn [List.length adv]. rewrite List.length_app.
    cbn [List.length]. rewrite Nat.add_1_r. reflexivity.
Qed.

Lemma chain_unary op r0 : chainOK h r0 -> chainOK h (UnaryExpr op r0).
Proof.
  intros IHr rbp d p ts r Hr Hs Hf Hrbp Hd Hl.
  cbn [etoks reparsable need] in *.
  apply andb_prop in Hr as [Hop Hrr].
  pose proof (need_nonneg r0) as Hnr.
  cbn [app] in Hs. rewrite <- app_assoc in Hs. cbn [app] in Hs.
  pose proof (stream_advance _ _ _ Hs) as Hs2.
  pose proof (stream_advance _ _ _ Hs2) as Hs3.
  set (p3 := adv (List.length (etoks h r0)) (advance (advance p))) in *.
  assert (Hs4 : stream ((tRParen, ")") :: ts) p3) by now apply stream_adv.
  apply (parses_step rbp d p (UnaryExpr op r0) (advance p3)).
  - apply Z.ltb_ge. lia.
  - exact (stream_lexErr _ _ Hs).
  - exact (stream_lexErr _ _ Hs2).
  - apply nud_paren.
    + exact (stream_curr_typ _ _ _ Hs).
    + apply (parses_step 0 (d + 1) (advance p) (UnaryExpr op r0) p3).
      * apply Z.ltb_ge. lia.
      * exact (stream_lexErr _ _ Hs2).
      * exact (stream_lexErr _ _ Hs3).
      * apply nud_unary; [exact (stream_curr _ _ _ Hs2) | exact Hop |].
        apply (chain_complete h r0 IHr 60 (d + 1 + 1) _ ((tRParen, ")") :: ts));
          try assumption; try exact I; try lia.
        apply stops_closing; simpl; auto; lia.
      * apply loops_exit.
        apply (stops_curr 0 _ _ Hs4); [| lia].
        apply stops_closing; simpl; auto; lia.
    + exact (stream_curr_typ _ _ _ Hs4).
  - eapply loops_eq; [| exact Hl]. unfold p3.
    cbn [List.length adv]. rewrite List.length_app.
    cbn [List.length]. rewrite adv_add. reflexivity.
Qed.

Lemma chain_infix l op r0 :
  chainOK h l -> chainOK h r0 -> chainOK h (InfixExpr l op r0).
Proof.
  intros IHl IHr rbp d p ts r Hr Hs Hf Hrbp Hd Hl.
  cbn [etoks reparsable need] in *.
  apply andb_prop in Hr as [Hr Hrr]. apply andb_prop in Hr as [Hop Hrl].
  pose proof (need_nonneg l) as Hnl. pose proof (need_nonneg r0) as Hnr.
  destruct (infixOps_lbp op Hop) as (Hlbp & _).
  cbn [app] in Hs. rewrite <- app_assoc in Hs. cbn [app] in Hs.
  rewrite <- app_assoc in Hs. cbn [app] in Hs.
  pose proof (stream_advance _ _ _ Hs) as Hs2.
  set (p2 := adv (List.length (etoks h l)) (advance p)) in *.
  assert (Hs3 : stream ((tOp, op) :: etoks h r0 ++ (tRParen, ")") :: ts) p2)
    by now apply stream_adv.
  pose proof (stream_advance _ _ _ Hs3) as Hs4.
  set (p3 := adv (List.length (etoks h r0)) (advance p2)) in *.
  assert (Hs5 : stream ((tRParen, ")") :: ts) p3) by now apply stream_adv.
  apply (parses_step rbp d p (InfixExpr l op r0) (advance p3)).
  - apply Z.ltb_ge. lia.
  - exact (stream_lexErr _ _ Hs).
  - exact (stream_lexErr _ _ Hs2).
  - apply nud_paren.
    + exact (stream_curr_typ _ _ _ Hs).
    + apply (IHl 0 (d + 1) (advance p)
               ((tOp, op) :: etoks h r0 ++ (tRParen, ")") :: ts));
        try assumption; try exact I; try lia.
      apply (loops_step 0 (d + 1) l p2 (InfixExpr l op r0) p3).
      * rewrite lbp_tokOf, (stream_curr _ _ _ Hs3). apply Z.ltb_lt. lia.
      * exact (stream_lexErr _ _ Hs4).
      * apply led_infix; [exact (stream_curr _ _ _ Hs3) | exact Hop |].
        apply (chain_complete h r0 IHr _ (d + 1 + 1) _ ((tRParen, ")") :: ts));
          try assumption; try exact I; try lia.
        apply stops_closing; simpl; auto; lia.
      * apply loops_exit.
        apply (stops_curr 0 _ _ Hs5); [| lia].
        apply stops_closing; simpl; auto; lia.
    + exact (stream_curr_typ _ _ _ Hs5).
  - eapply loops_eq; [| exact Hl]. unfold p3, p2.
    cbn [List.length adv]. rewrite List.length_app. rewrite adv_add.
    cbn [List.length adv]. rewrite List.length_app. rewrite adv_add.
    reflexivity.
Qed.

Lemma chain_ternary c t e :
  chainOK h c -> chainOK h t -> chainOK h e -> chainOK h (TernaryExpr c t e).
Proof.
  intros IHc IHt IHe rbp d p ts r Hr Hs Hf Hrbp Hd Hl.
  cbn [etoks reparsable need] in *.
  apply andb_prop in Hr as [Hr Hre]. apply andb_prop in Hr as [Hrc Hrt].
  pose proof (need_nonneg c) as Hnc. pose proof (need_nonneg t) as Hnt.
  pose proof (need_nonneg e) as Hne.
  cbn [app] in Hs. rewrite <- app_assoc in Hs. cbn [app] in Hs.
  rewrite <- app_assoc in Hs. cbn [app] in Hs.
  rewrite <- app_assoc in Hs. cbn [app] in Hs.
  pose proof (stream_advance _ _ _ Hs) as Hs2.
  set (p2 := adv (List.length (etoks h c)) (advance p)) in *.
  assert (Hs3 : stream ((tOp, "?") :: etoks h t ++ (tOp, ":")
                          :: etoks h e ++ (tRParen, ")") :: ts) p2)
    by now apply stream_adv.
  pose proof (stream_advance _ _ _ Hs3) as Hs4.
  set (p3 := adv (List.length (etoks h t)) (advance p2)) in *.
  assert (Hs5 : stream ((tOp, ":") :: etoks h e ++ (tRParen, ")") :: ts) p3)
    by now apply stream_adv.
  pose proof (stream_advance _ _ _ Hs5) as Hs6.
  set (p4 := adv (List.length (etoks h e)) (advance p3)) in *.
  assert (Hs7 : stream ((tRParen, ")") :: ts) p4) by now apply stream_adv.
  apply (parses_step rbp d p (TernaryExpr c t e) (advance p4)).
  - apply Z.ltb_ge. lia.
  - exact (stream_lexErr _ _ Hs).
  - exact (stream_lexErr _ _ Hs2).
  - apply nud_paren.
    + exact (stream_curr_typ _ _ _ Hs).
    + apply (IHc 0 (d + 1) (advance p)
               ((tOp, "?") :: etoks h t ++ (tOp, ":")
                  :: etoks h e ++ (tRParen, ")") :: ts));
        try assumption; try exact I; try lia.
      apply (loops_step 0 (d + 1) c p2 (TernaryExpr c t e) p4).
      * rewrite lbp_tokOf, (stream_curr _ _ _ Hs3), lbp_question. reflexivity.
      * exact (stream_lexErr _ _ Hs4).
      * apply (led_ternary _ _ _ _ _ p3).
        -- exact (stream_curr _ _ _ Hs3).
        -- apply (chain_complete h t IHt 0 (d + 1 + 1) _
                    ((tOp, ":") :: etoks h e ++ (tRParen, ")") :: ts));
             try assumption; try exact I; try lia.
           apply stops_closing; simpl; auto; lia.
        -- exact (stream_curr _ _ _ Hs5).
        -- apply (chain_complete h e IHe 4 (d + 1 + 1) _ ((tRParen, ")") :: ts));
             try assumption; try exact I; try lia.
           apply stops_closing; simpl; auto; lia.
      * apply loops_exit.
        apply (stops_curr 0 _ _ Hs7); [| lia].
        apply stops_closing; simpl; auto; lia.
    + exact (stream_curr_typ _ _ _ Hs7).
  - eapply loops_eq; [| exact Hl]. unfold p4, p3, p2.
    cbn [List.length adv]. rewrite List.length_app. rewrite adv_add.
    cbn [List.length adv]. rewrite List.length_app. rewrite adv_add.
    cbn [List.length adv]. rewrite List.length_app. rewrite adv_add.
    reflexivity.
Qed.

(** Every reparsable expression reads back in chain form. *)
Lemma chain_all e : chainOK h e.
Proof.
  induction e using Expr_ind_args.
  - apply chain_literal.
  - apply chain_variable.
  - now apply chain_member.
  - now apply chain_index.
  - now apply chain_method.
  - now apply chain_call.
  - now apply chain_unary.
  - now apply chain_infix.
  - now apply chain_ternary.
Qed.

(** On the tokens of a reparsable expression, followed by end of input,
    the parser returns that expression and stops at the end. *)
Lemma parse_etoks e p :
  reparsable h e = true -> need e <= MaxStackDepth ->
  stream (etoks h e) p ->
  exists p', parses 0 0 p (POk e p') /\ typ (curr p') = tEOF.
Proof.
  intros Hr Hd Hs. exists (adv (List.length (etoks h e)) p). split.
  - apply (chain_complete h e (chain_all e) 0 0 p []);
      try assumption; try exact I; try lia.
    now rewrite app_nil_r.
  - apply stream_nil_typ. apply (stream_adv (etoks h e) []).
    now rewrite app_nil_r.
Qed.

End ReadBackChain.

(* ================================================================== *)
(** ** The lexer reads a printed expression back *)
(* ================================================================== *)

Lemma append_cons x (a b : string) : String x a +:+ b = String x (a +:+ b).
Proof. reflexivity. Qed.

Lemma append_nil_l (a : string) : "" +:+ a = a.
Proof. reflexivity. Qed.

Lemma append_assoc (a b c : string) : (a +:+ b) +:+ c = a +:+ (b +:+ c).
Proof.
  induction a as [| x a IH]; [reflexivity |].
  rewrite !append_cons. f_equal. exact IH.
Qed.

Lemma append_nil_r (a : string) : a +:+ "" = a.
Proof.
  induction a as [| x a IH]; [reflexivity |].
  rewrite append_cons. f_equal. exact IH.
Qed.

Ltac norm_append :=
  repeat (rewrite append_assoc || rewrite append_cons || rewrite append_nil_l).

Lemma span_app f a b :
  str_forall f a = true -> stopsAt f b -> span f (a +:+ b) = (a, b).
Proof.
  intros Ha Hb. induction a as [| c a IH].
  - rewrite append_nil_l.
    destruct b as [| c b]; simpl in *; [reflexivity | now rewrite Hb].
  - rewrite append_cons. cbn [str_forall span] in *.
    apply andb_prop in Ha as [Hc Ha]. rewrite Hc, (IH Ha). reflexivity.
Qed.

(** Character classes are disjoint where the lexer needs them to be. *)
Lemma identStart_class c :
  isIdentStart c = true -> IsSpace c = false /\ IsDigit c = false.
Proof.
  destruct c as [[] [] [] [] [] [] [] []]; vm_compute; intros H;
    try discriminate H; split; reflexivity.
Qed.

Lemma digit_class c : IsDigit c = true -> IsSpace c = false.
Proof.
  destruct c as [[] [] [] [] [] [] [] []]; vm_compute; intros H;
    try discriminate H; reflexivity.
Qed.

Lemma exprStart_class c :
  exprStart c = true -> IsSpace c = false /\ Ascii.eqb c "=" = false.
Proof.
  destruct c as [[] [] [] [] [] [] [] []]; vm_compute; intros H;
    try discriminate H; split; reflexivity.
Qed.

Lemma lexTok_ident name rest :
  isIdentName name = true -> stopsAt isIdentChar rest ->
  lexTok (name +:+ rest) = LexTok (tIdent, name) rest.
Proof.
  intros Hn Hr. destruct name as [| c s]; [discriminate |].
  cbn [isIdentName] in Hn. apply andb_prop in Hn as [Hc Hs].
  destruct (identStart_class c Hc) as [Hsp Hd].
  unfold lexTok, nextToken. rewrite append_cons. cbn [lexRest span]. rewrite Hsp, Hd.
  unfold isIdentStart in Hc. rewrite Hc.
  change (fun c0 : ascii => IsLetter c0 || IsDigit c0 || Ascii.eqb c0 "_")
    with isIdentChar.
  rewrite (span_app _ _ _ Hs Hr). reflexivity.
Qed.

Lemma lexTok_number t rest :
  isNumberText t = true -> stopsAt isNumberChar rest ->
  lexTok (t +:+ rest) = LexTok (tNumber, t) rest.
Proof.
  intros Hn Hr. destruct t as [| c s]; [discriminate |].
  cbn [isNumberText] in Hn. apply andb_prop in Hn as [Hc Hs].
  pose proof (digit_class c Hc) as Hsp.
  unfold lexTok, nextToken. rewrite append_cons. cbn [lexRest span]. rewrite Hsp, Hc.
  change (fun c0 : ascii => IsDigit c0 || Ascii.eqb c0 ".") with isNumberChar.
  rewrite (span_app _ _ _ Hs Hr). reflexivity.
Qed.

Lemma lexTok_punct rest :
  lexTok (String "(" rest) = LexTok (tLParen, "(") rest
  /\ lexTok (String ")" rest) = LexTok (tRParen, ")") rest
  /\ lexTok (String "[" rest) = LexTok (tOp, "[") rest
  /\ lexTok (String "]" rest) = LexTok (tOp, "]") rest
  /\ lexTok (String "," rest) = LexTok (tComma, ",") rest
  /\ lexTok (String "." rest) = LexTok (tOp, ".") rest.
Proof. repeat split. Qed.

Lemma lexer_at_space s s0 :
  lexer_at (mkLexer (String " " s) 0) s0 = lexer_at (mkLexer s 1) s0.
Proof.
  unfold lexer_at, str_len. cbn [lexRest lexPos String.length]. f_equal. lia.
Qed.

Lemma lexTok_space s : lexTok (String " " s) = lexTok s.
Proof.
  assert (H : nextToken (mkLexer (String " " s) 0) = nextToken (mkLexer s 1)).
  { unfold nextToken. cbn [lexRest span].
    change (IsSpace " ") with true. cbv iota.
    destruct (span IsSpace s) as [a s0]. rewrite lexer_at_space. reflexivity. }
  unfold lexTok at 1. rewrite H.
  pose proof (nextToken_lexTok (mkLexer s 1)) as Hn. cbn [lexRest] in Hn.
  destruct (nextToken (mkLexer s 1)) as [[t | e] l'].
  - destruct (tokType_eqb (typ t) tEOF); [symmetry; apply Hn | now symmetry].
  - now symmetry.
Qed.

Lemma Lexes_space s ts : Lexes s ts -> Lexes (String " " s) ts.
Proof.
  intros H. inversion H; subst.
  - apply Lexes_nil. now rewrite lexTok_space.
  - eapply Lexes_cons; [rewrite lexTok_space; eassumption | assumption].
Qed.
Lemma lexTok_infix op rest :
  existsb (String.eqb op) infixOps = true ->
  lexTok (op +:+ String " " rest) = LexTok (tOp, op) (String " " rest).
Proof.
  intros H. apply existsb_exists in H as (x & Hin & Heq).
  apply String.eqb_eq in Heq. subst x. simpl in Hin.
  repeat (destruct Hin as [<- | Hin]; [reflexivity |]). contradiction.
Qed.

Lemma lexTok_ternary rest :
  lexTok (String "?" (String " " rest)) = LexTok (tOp, "?") (String " " rest)
  /\ lexTok (String ":" (String " " rest)) = LexTok (tOp, ":") (String " " rest).
Proof. split; reflexivity. Qed.

Lemma no_two_char_op_bang c rest :
  Ascii.eqb c "=" = false ->
  find (HasPrefix (String "!" (String c rest))) two_char_ops = None.
Proof.
  intros Hc. unfold two_char_ops, HasPrefix. cbn [find String.prefix].
  destruct (ascii_dec "=" c) as [<- | _]; [discriminate Hc |].
  repeat match goal with
         | |- context [ascii_dec ?a ?b] =>
             destruct (ascii_dec a b) as [E | _]; [discriminate E |]
         end.
  reflexivity.
Qed.

Lemma lexTok_unary op c rest :
  existsb (String.eqb op) unaryOps = true -> exprStart c = true ->
  lexTok (op +:+ String c rest) = LexTok (tOp, op) (String c rest).
Proof.
  intros H Hc. apply existsb_exists in H as (x & Hin & Heq).
  apply String.eqb_eq in Heq. subst x. simpl in Hin.
  destruct (exprStart_class c Hc) as [_ Hne].
  destruct Hin as [<- | [<- | [<- | []]]]; try reflexivity.
  unfold lexTok, nextToken. rewrite append_cons, append_nil_l.
  cbn [lexRest span]. change (IsSpace "!") with false. cbv iota.
  change (IsDigit "!") with false. change (IsLetter "!") with false.
  cbn [orb Ascii.eqb Bool.eqb andb]. cbv iota.
  rewrite (no_two_char_op_bang c rest Hne). reflexivity.
Qed.
(** One quoted ASCII byte read back: the lexer's string loop undoes what
    [Quote] writes for it, in one round. *)
Lemma lexString_escaped hi c m tail sb :
  (byte_val c <? 128) = true ->
  lexString (S m) dquote (appendEscapedRune hi (byte_val c) +:+ tail) sb
  = lexString m dquote tail (sb +:+ String c "").
Proof.
  intros H.
  destruct c as [[] [] [] [] [] [] [] []];
    try (exfalso; vm_compute in H; discriminate H); reflexivity.
Qed.

Lemma quote_loop_ascii hi n c t :
  (byte_val c <? 128) = true ->
  quote_loop hi (S n) (String c t)
  = appendEscapedRune hi (byte_val c) +:+ quote_loop hi n t.
Proof.
  intros H. cbn [quote_loop].
  assert (H1 : (128 <=? byte_val c) = false)
    by (apply Z.ltb_lt in H; apply Z.leb_gt; exact H).
  rewrite H1.
  assert (H2 : (byte_val c =? RuneError) = false).
  { apply Z.ltb_lt in H. apply Z.eqb_neq. unfold RuneError. lia. }
  rewrite H2. reflexivity.
Qed.

Lemma lexString_quoted hi s :
  isASCII s = true ->
  forall n fuel sb rest,
    (String.length s <= n)%nat -> (String.length s < fuel)%nat ->
    lexString fuel dquote (quote_loop hi n s +:+ String dquote rest) sb
    = (inl (sb +:+ s), rest).
Proof.
  induction s as [| c t IH]; intros Hs n fuel sb rest Hn Hf.
  - destruct fuel as [| fuel]; [simpl in Hf; lia |].
    assert (Hq : quote_loop hi n "" = "") by (destruct n; reflexivity).
    rewrite Hq, append_nil_l, append_nil_r. reflexivity.
  - cbn [isASCII] in Hs. apply andb_prop in Hs as [Hc Ht].
    cbn [String.length] in Hn, Hf.
    destruct n as [| n]; [lia |]. destruct fuel as [| fuel]; [lia |].
    rewrite (quote_loop_ascii hi n c t Hc), append_assoc.
    rewrite (lexString_escaped hi c fuel _ sb Hc).
    rewrite (IH Ht n fuel _ rest ltac:(lia) ltac:(lia)).
    rewrite append_assoc. reflexivity.
Qed.

Lemma lexTok_string hi s rest :
  isASCII s = true ->
  lexTok (Quote hi s +:+ rest) = LexTok (tString, s) rest.
Proof.
  intros Hs. unfold lexTok, nextToken, Quote.
  rewrite append_cons, append_assoc, append_cons, append_nil_l.
  cbn [lexRest span]. change (IsSpace dquote) with false. cbv iota.
  change (IsDigit dquote) with false. change (IsLetter dquote) with false.
  cbn [orb Ascii.eqb Bool.eqb andb dquote]. cbv iota.
  set (s1 := quote_loop hi (String.length s) s +:+ String dquote rest).
  rewrite <- (lexString_fuel (String.length s1 + S (String.length s)) dquote s1 "")
    by lia.
  unfold s1.
  rewrite (lexString_quoted hi s Hs (String.length s) _ "" rest) by lia.
  reflexivity.
Qed.

Section LexPrinted.

Context (h : Host).

Lemma numberText_head t :
  isNumberText t = true -> exists c s, t = String c s /\ exprStart c = true.
Proof.
  destruct t as [| c s]; [discriminate |]. cbn [isNumberText]. intros H.
  apply andb_prop in H as [Hc _]. exists c, s. split; [reflexivity |].
  unfold exprStart. rewrite Hc. now rewrite !orb_true_r.
Qed.

Lemma identName_head t :
  isIdentName t = true -> exists c s, t = String c s /\ exprStart c = true.
Proof.
  destruct t as [| c s]; [discriminate |]. cbn [isIdentName]. intros H.
  apply andb_prop in H as [Hc _]. exists c, s. split; [reflexivity |].
  unfold exprStart. now rewrite Hc.
Qed.

Lemma isVarName_ident name : isVarName name = true -> isIdentName name = true.
Proof.
  unfold isVarName. intros H. apply andb_prop in H as [H _].
  now apply andb_prop in H as [H _].
Qed.

(** A printed expression starts with a letter, an underscore, a digit,
    a double quote or an opening parenthesis. *)
Lemma ExprString_head e :
  reparsable h e = true ->
  exists c s, ExprString h e = String c s /\ exprStart c = true.
Proof.
  induction e as [v | name | l key b IHl | l i IHl _ | l m args IHl _
                  | name args _ | op r0 _ | l op r0 _ _ | c t e _ _ _]
    using Expr_ind_args; intros Hr; cbn [ExprString reparsable] in *.
  - destruct v; try discriminate Hr; cbn [asString literalReparses] in *.
    + destruct b; eexists _, _; split; reflexivity.
    + destruct k; try discriminate Hr.
      apply andb_prop in Hr as [H0 H1]. apply Z.leb_le in H0, H1.
      destruct (FormatInt_reads_back n ltac:(lia)) as (Hn & _).
      exact (numberText_head _ Hn).
    + destruct k; try discriminate Hr.
      apply andb_prop in Hr as [Hr _]. apply andb_prop in Hr as [Hn _].
      exact (numberText_head _ Hn).
    + eexists _, _. split; reflexivity.
  - exact (identName_head _ (isVarName_ident _ Hr)).
  - apply andb_prop in Hr as [Hr Hrl]. apply andb_prop in Hr as [Hr _].
    apply andb_prop in Hr as [Hb _]. destruct b; [discriminate |].
    destruct (IHl Hrl) as (c & s & -> & Hc). eexists _, _.
    rewrite append_cons. split; [reflexivity | exact Hc].
  - apply andb_prop in Hr as [Hrl _].
    destruct (IHl Hrl) as (c & s & -> & Hc). eexists _, _.
    rewrite append_cons. split; [reflexivity | exact Hc].
  - apply andb_prop in Hr as [Hr _]. apply andb_prop in Hr as [_ Hrl].
    destruct (IHl Hrl) as (c & s & -> & Hc). eexists _, _.
    rewrite append_cons. split; [reflexivity | exact Hc].
  - apply andb_prop in Hr as [Hn _].
    destruct (identName_head _ (isVarName_ident _ Hn)) as (c & s & -> & Hc).
    eexists _, _. rewrite append_cons. split; [reflexivity | exact Hc].
  - eexists _, _. rewrite append_cons. split; reflexivity.
  - eexists _, _. rewrite append_cons. split; reflexivity.
  - eexists _, _. rewrite append_cons. split; reflexivity.
Qed.

Lemma boundary_sep e c rest :
  isIdentChar c = false -> Ascii.eqb c "." = false -> boundary e (String c rest).
Proof.
  intros Hi Hd. split; [exact Hi |]. intros _. cbn [stopsAt].
  unfold isNumberChar. unfold isIdentChar in Hi.
  apply orb_false_elim in Hi as [Hi _]. apply orb_false_elim in Hi as [_ Hi].
  now rewrite Hi, Hd.
Qed.

Lemma boundary_dot e rest :
  endsInNumber e = false -> boundary e (String "." rest).
Proof. intros H. split; [reflexivity |]. rewrite H. discriminate. Qed.

Lemma boundary_end e : boundary e "".
Proof. split; [exact I | intros _; exact I]. Qed.

Lemma lex_literal v : lexesBack h (LiteralExpr v).
Proof.
  intros Hr rest ts Hl [Hb Hn]. cbn [ExprString reparsable etoks app] in *.
  apply Lexes_cons with (s' := rest); [| exact Hl].
  destruct v; try discriminate Hr;
    cbn [asString literalReparses literalTok endsInNumber] in *.
  - destruct b; apply lexTok_ident; auto.
  - destruct k; try discriminate Hr.
    apply andb_prop in Hr as [H0 H1]. apply Z.leb_le in H0, H1.
    destruct (FormatInt_reads_back n ltac:(lia)) as (Hnum & _).
    apply lexTok_number; auto.
  - destruct k; try discriminate Hr.
    apply andb_prop in Hr as [Hr _]. apply andb_prop in Hr as [Hnum _].
    apply lexTok_number; auto.
  - apply lexTok_string. exact Hr.
Qed.

Lemma lex_args args :
  Forall (lexesBack h) args -> forallb (reparsable h) args = true ->
  forall rest ts, Lexes rest ts ->
    Lexes (join ", " (map (ExprString h) args) +:+ String ")" rest)
          (argtoks h args ++ (tRParen, ")") :: ts)%list.
Proof.
  induction 1 as [| a rest0 Ha _ IH]; intros Hr rest ts Hl.
  - cbn [map join argtoks app]. rewrite append_nil_l.
    eapply Lexes_cons; [apply lexTok_punct | exact Hl].
  - cbn [forallb] in Hr. apply andb_prop in Hr as [Hra Hrr].
    specialize (IH Hrr rest ts Hl).
    destruct rest0 as [| b rest'].
    + cbn [map join argtoks] in *. rewrite append_nil_l in IH.
      apply (Ha Hra); [exact IH |]. now apply boundary_sep.
    + change (join ", " (map (ExprString h) (a :: b :: rest')))
        with (ExprString h a +:+ ", " +:+ join ", " (map (ExprString h) (b :: rest'))).
      change (argtoks h (a :: b :: rest'))
        with (etoks h a ++ (tComma, ",") :: argtoks h (b :: rest'))%list.
      rewrite <- app_assoc, <- app_comm_cons. norm_append.
      apply (Ha Hra); [| now apply boundary_sep].
      eapply Lexes_cons; [apply lexTok_punct |].
      apply Lexes_space. exact IH.
Qed.

Lemma lex_variable name : lexesBack h (VariableExpr name).
Proof.
  intros Hr rest ts Hl [Hb _]. cbn [ExprString reparsable etoks app] in *.
  apply Lexes_cons with (s' := rest); [| exact Hl].
  apply lexTok_ident; [exact (isVarName_ident _ Hr) | exact Hb].
Qed.

Lemma lex_member l key b : lexesBack h l -> lexesBack h (MemberAccessExpr l key b).
Proof.
  intros IHl Hr rest ts Hl [Hb _]. cbn [ExprString reparsable etoks] in *.
  apply andb_prop in Hr as [Hr Hrl]. apply andb_prop in Hr as [Hr Hnum].
  apply andb_prop in Hr as [Hidx Hkey]. destruct b; [discriminate |].
  apply negb_true_iff in Hnum.
  rewrite <- app_assoc. cbn [app]. norm_append.
  apply (IHl Hrl); [| now apply boundary_dot].
  eapply Lexes_cons; [apply lexTok_punct |].
  eapply Lexes_cons; [apply lexTok_ident; eassumption | exact Hl].
Qed.

Lemma lex_index l i : lexesBack h l -> lexesBack h i -> lexesBack h (IndexExpr l i).
Proof.
  intros IHl IHi Hr rest ts Hl _. cbn [ExprString reparsable etoks] in *.
  apply andb_prop in Hr as [Hrl Hri].
  rewrite <- app_assoc. cbn [app]. rewrite <- app_assoc. cbn [app]. norm_append.
  apply (IHl Hrl); [| now apply boundary_sep].
  eapply Lexes_cons; [apply lexTok_punct |].
  apply (IHi Hri); [| now apply boundary_sep].
  eapply Lexes_cons; [apply lexTok_punct | exact Hl].
Qed.

Lemma lex_method l m args :
  lexesBack h l -> Forall (lexesBack h) args -> lexesBack h (MethodCallExpr l m args).
Proof.
  intros IHl IHa Hr rest ts Hl _. cbn [ExprString reparsable etoks] in *.
  rewrite etoks_argtoks.
  apply andb_prop in Hr as [Hr Hra]. apply andb_prop in Hr as [Hr Hrl].
  apply andb_prop in Hr as [Hm Hnum]. apply negb_true_iff in Hnum.
  rewrite <- app_assoc. cbn [app]. rewrite <- app_assoc. cbn [app]. norm_append.
  apply (IHl Hrl); [| now apply boundary_dot].
  eapply Lexes_cons; [apply lexTok_punct |].
  eapply Lexes_cons; [apply lexTok_ident; [exact Hm | reflexivity] |].
  eapply Lexes_cons; [apply lexTok_punct |].
  now apply lex_args.
Qed.

Lemma lex_call name args :
  Forall (lexesBack h) args -> lexesBack h (CallExpr name args).
Proof.
  intros IHa Hr rest ts Hl _. cbn [ExprString reparsable etoks] in *.
  rewrite etoks_argtoks.
  apply andb_prop in Hr as [Hn Hra].
  cbn [app]. rewrite <- app_assoc. cbn [app]. norm_append.
  eapply Lexes_cons;
    [apply lexTok_ident; [exact (isVarName_ident _ Hn) | reflexivity] |].
  eapply Lexes_cons; [apply lexTok_punct |].
  now apply lex_args.
Qed.

Lemma lex_unary op r0 : lexesBack h r0 -> lexesBack h (UnaryExpr op r0).
Proof.
  intros IHr Hr rest ts Hl _. cbn [ExprString reparsable etoks] in *.
  apply andb_prop in Hr as [Hop Hrr].
  cbn [app]. rewrite <- app_assoc. cbn [app]. norm_append.
  eapply Lexes_cons; [apply lexTok_punct |].
  assert (Hin : Lexes (ExprString h r0 +:+ String ")" rest)
                      (etoks h r0 ++ (tRParen, ")") :: ts)%list).
  { apply (IHr Hrr); [| now apply boundary_sep].
    eapply Lexes_cons; [apply lexTok_punct | exact Hl]. }
  destruct (ExprString_head r0 Hrr) as (c & s & Hs & Hc).
  rewrite Hs in *. rewrite append_cons in *.
  eapply Lexes_cons; [apply lexTok_unary; assumption | exact Hin].
Qed.

Lemma lex_infix l op r0 :
  lexesBack h l -> lexesBack h r0 -> lexesBack h (InfixExpr l op r0).
Proof.
  intros IHl IHr Hr rest ts Hl _. cbn [ExprString reparsable etoks] in *.
  apply andb_prop in Hr as [Hr Hrr]. apply andb_prop in Hr as [Hop Hrl].
  cbn [app]. rewrite <- app_assoc. cbn [app]. rewrite <- app_assoc. cbn [app].
  norm_append.
  eapply Lexes_cons; [apply lexTok_punct |].
  apply (IHl Hrl); [| now apply boundary_sep].
  apply Lexes_space.
  eapply Lexes_cons; [apply lexTok_infix; exact Hop |].
  apply Lexes_space.
  apply (IHr Hrr); [| now apply boundary_sep].
  eapply Lexes_cons; [apply lexTok_punct | exact Hl].
Qed.

Lemma lex_ternary c t e :
  lexesBack h c -> lexesBack h t -> lexesBack h e -> lexesBack h (TernaryExpr c t e).
Proof.
  intros IHc IHt IHe Hr rest ts Hl _. cbn [ExprString reparsable etoks] in *.
  apply andb_prop in Hr as [Hr Hre]. apply andb_prop in Hr as [Hrc Hrt].
  cbn [app]. rewrite <- app_assoc. cbn [app]. rewrite <- app_assoc. cbn [app].
  rewrite <- app_assoc. cbn [app]. norm_append.
  eapply Lexes_cons; [apply lexTok_punct |].
  apply (IHc Hrc); [| now apply boundary_sep].
  apply Lexes_space.
  eapply Lexes_cons; [apply lexTok_ternary |].
  apply Lexes_space.
  apply (IHt Hrt); [| now apply boundary_sep].
  apply Lexes_space.
  eapply Lexes_cons; [apply lexTok_ternary |].
  apply Lexes_space.
  apply (IHe Hre); [| now apply boundary_sep].
  eapply Lexes_cons; [apply lexTok_punct | exact Hl].
Qed.

(** The lexer reads the printed text of a reparsable expression as the
    tokens [etoks]. *)
Lemma lex_all e : lexesBack h e.
Proof.
  induction e using Expr_ind_args.
  - apply lex_literal.
  - apply lex_variable.
  - now apply lex_member.
  - now apply lex_index.
  - now apply lex_method.
  - now apply lex_call.
  - now apply lex_unary.
  - now apply lex_infix.
  - now apply lex_ternary.
Qed.

Lemma Lexes_ExprString e :
  reparsable h e = true -> Lexes (ExprString h e) (etoks h e).
Proof.
  intros Hr. rewrite <- (append_nil_r (ExprString h e)).
  rewrite <- (app_nil_r (etoks h e)).
  apply (lex_all e Hr); [apply Lexes_empty | apply boundary_end].
Qed.

End LexPrinted.

(* ================================================================== *)
(** ** Round trip: parse, print, parse again *)
(* ================================================================== *)

(** [ParseExpr] starts from the stream of the tokens of its text. *)
Lemma stream_newParser w ts :
  Lexes w ts -> stream ts (advance (advance (newParser w))).
Proof.
  intros H. inversion H as [s0 Hn | s0 t s' ts' Ht Hrest]; subst.
  - destruct (advance_at_eof (newParser w) eq_refl H) as (t1 & l1 & E1 & Ht1 & Hl1).
    rewrite E1.
    destruct (advance_at_eof (mkParser l1 (next (newParser w)) t1 None) eq_refl)
      as (t2 & l2 & E2 & Ht2 & Hl2).
    { cbn [lex lexRest]. rewrite Hl1. apply Lexes_empty. }
    rewrite E2. split; [reflexivity |]. cbn [curr next lex].
    rewrite Hl2. split; [exact Ht1 | split; [exact Ht2 | apply Lexes_empty]].
  - destruct (advance_at_tok (newParser w) t s' eq_refl Ht)
      as (t1 & l1 & E1 & Ht1 & Hl1).
    rewrite E1.
    inversion Hrest as [s1 Hn | s1 t' s'' ts'' Ht' Hrest']; subst.
    + destruct (advance_at_eof (mkParser l1 (next (newParser w)) t1 None) eq_refl)
        as (t2 & l2 & E2 & Ht2 & Hl2).
      { cbn [lex lexRest]. exact Hrest. }
      rewrite E2. split; [reflexivity |]. cbn [curr next lex].
      rewrite Hl2. split; [reflexivity | split; [exact Ht2 | apply Lexes_empty]].
    + destruct (advance_at_tok (mkParser l1 (next (newParser w)) t1 None)
                  t' s'' eq_refl Ht')
        as (t2 & l2 & E2 & Ht2 & Hl2).
      rewrite E2. split; [reflexivity |]. cbn [curr next lex].
      rewrite Hl2. destruct ts''; (split; [reflexivity | split; [exact Ht2 | exact Hrest']]).
Qed.

(** A result reached with some fuel is the result with [parseFuel]. *)
Lemma parses_parseFuel w e p' :
  parses 0 0 (advance (advance (newParser w))) (POk e p') ->
  parse (parseFuel w) 0 0 (advance (advance (newParser w))) = POk e p'.
Proof.
  intros (n & Hn & _).
  destruct (proj1 (parse_terminates (parseFuel w)) 0 0
              (advance (advance (newParser w))) ltac:(lia) (parseFuel_enough w))
    as [Ht _].
  destruct (Nat.le_ge_cases n (parseFuel w)) as [Hle | Hge].
  - rewrite <- Hn. apply (parse_fuel_mono n (parseFuel w) 0 0 _ Hle).
    rewrite Hn. exact I.
  - rewrite <- Hn. symmetry.
    exact (parse_fuel_mono (parseFuel w) n 0 0 _ Hge Ht).
Qed.

(** Printing a reparsable expression and parsing the text gives the
    expression back. *)
Lemma ParseExpr_ExprString h e :
  reparsable h e = true -> need e <= MaxStackDepth ->
  exists p', ParseExpr (ExprString h e) = POk e p'.
Proof.
  intros Hr Hd.
  pose proof (stream_newParser _ _ (Lexes_ExprString h e Hr)) as Hs.
  destruct (parse_etoks h e _ Hr Hd Hs) as (p' & Hp & Heof).
  exists p'. unfold ParseExpr. rewrite (parses_parseFuel _ _ _ Hp).
  rewrite Heof. reflexivity.
Qed.




(* ################################################################## *)
(** * Further properties of the code *)
(* ################################################################## *)

(* ================================================================== *)
(** ** [Engine.Eval] and [ParseExpr] *)
(* ================================================================== *)

Lemma parse_parseFuel_terminated s :
  terminated (parse (parseFuel s) 0 0 (advance (advance (newParser s)))).
Proof.
  exact (proj1 (proj1 (parse_terminates (parseFuel s)) 0 0
                  (advance (advance (newParser s))) ltac:(lia)
                  (parseFuel_enough s))).
Qed.

(** [Engine.Eval] repeats the steps of [ParseExpr] instead of calling it.
    The two agree: [Engine.Eval] evaluates exactly the tree [ParseExpr]
    returns, in the context made of the data and the engine's registry,
    with a panic of the evaluation turned into an error; when [ParseExpr]
    fails, [Engine.Eval] fails with the same error, except that a token
    left after the expression is reported with another message.  The
    parser always comes to a result. *)
Theorem EngineEval_agrees_with_ParseExpr (h : Host) (e : Engine) (s : string)
    (d : value) :
  match ParseExpr s with
  | POk ast _ =>
      EngineEval h e s d
      = Some (recovered (Eval h (mkContext d (loadFuncs h e)) ast))
  | PErr err =>
      EngineEval h e s d = Some (VNil, Some err)
      \/ exists v p, err = ErrExtraToken v p
                     /\ EngineEval h e s d = Some (VNil, Some (ErrTrailingToken v p))
  | PFuel => False
  end.
Proof.
  pose proof (parse_parseFuel_terminated s) as Ht.
  unfold ParseExpr, EngineEval.
  destruct (parse (parseFuel s) 0 0 (advance (advance (newParser s))))
    as [ast p' | err |]; simpl in Ht.
  - destruct (negb (tokType_eqb (typ (curr p')) tEOF)).
    + right. eexists _, _. split; reflexivity.
    + reflexivity.
  - left. reflexivity.
  - exact Ht.
Qed.

(* ================================================================== *)
(** ** Blank and unterminated input *)
(* ================================================================== *)

Lemma span_all f s : str_forall f s = true -> span f s = (s, "").
Proof.
  intros H. rewrite <- (append_nil_r s) at 1. now apply span_app.
Qed.

Lemma nextToken_blank l :
  str_forall IsSpace (lexRest l) = true ->
  exists l', nextToken l = (inl (mkToken tEOF "" (lexPos l')), l')
             /\ lexRest l' = "".
Proof.
  intros H. unfold nextToken. rewrite (span_all _ _ H).
  eexists. split; reflexivity.
Qed.

Lemma advance_blank p :
  lexErr p = None -> str_forall IsSpace (lexRest (lex p)) = true ->
  exists l', advance p = mkParser l' (next p) (mkToken tEOF "" (lexPos l')) None
             /\ lexRest l' = "".
Proof.
  intros He Hs. destruct (nextToken_blank (lex p) Hs) as (l' & E & R).
  exists l'. unfold advance. rewrite He, E. split; [reflexivity | exact R].
Qed.

(** An empty expression, or one made of white space only, is rejected:
    the parser meets the end of input where an operand must start and
    reports the unexpected token, whose text is empty. *)
Theorem blank_expression_is_rejected (s : string) :
  str_forall IsSpace s = true ->
  ParseExpr s = PErr (ErrUnexpectedToken "")
  /\ forall h e d, EngineEval h e s d = Some (VNil, Some (ErrUnexpectedToken "")).
Proof.
  intros Hs.
  assert (Hp : parse (parseFuel s) 0 0 (advance (advance (newParser s)))
               = PErr (ErrUnexpectedToken "")).
  { destruct (advance_blank (newParser s) eq_refl Hs) as (l1 & E1 & R1).
    destruct (advance_blank (advance (newParser s))) as (l2 & E2 & R2);
      [now rewrite E1 | rewrite E1; cbn [lex]; now rewrite R1 |].
    destruct (advance_blank (advance (advance (newParser s)))) as (l3 & E3 & R3);
      [now rewrite E2 | rewrite E2; cbn [lex]; now rewrite R2 |].
    unfold parseFuel. replace (2 * String.length s + 4)%nat
      with (S (2 * String.length s + 3)) by lia.
    cbn [parse]. rewrite E3. cbn [lexErr]. rewrite E2 at 1. cbn [lexErr].
    rewrite E2. cbn [curr next]. rewrite E1. cbn [next]. reflexivity. }
  split.
  - unfold ParseExpr. rewrite Hp. reflexivity.
  - intros h e d. unfold EngineEval. rewrite Hp. reflexivity.
Qed.

Lemma blank_expression_is_rejected_witness :
  ParseExpr "  " = PErr (ErrUnexpectedToken "").
Proof.
  apply (proj1 (blank_expression_is_rejected "  " eq_refl)).
Defined.

Lemma lexString_unterminated q body :
  contains_byte q body = false -> contains_byte "\" body = false ->
  forall fuel sb, exists rest,
    lexString fuel q body sb = (inr ErrUnterminatedString, rest).
Proof.
  induction body as [| c t IH]; intros Hq Hb fuel sb.
  - destruct fuel; eexists; reflexivity.
  - cbn [contains_byte] in Hq, Hb.
    apply orb_false_elim in Hq as [Hq1 Hq2].
    apply orb_false_elim in Hb as [Hb1 Hb2].
    destruct fuel as [| fuel]; [eexists; reflexivity |].
    cbn [lexString]. rewrite Ascii.eqb_sym, Hq1.
    rewrite Ascii.eqb_sym, Hb1. apply (IH Hq2 Hb2).
Qed.

Lemma parse_unterminated (q : ascii) (body : string) :
  q = dquote \/ q = "'"%char ->
  contains_byte q body = false -> contains_byte "\" body = false ->
  parse (parseFuel (String q body)) 0 0
        (advance (advance (newParser (String q body))))
  = PErr ErrUnterminatedString.
Proof.
  intros Hquote Hq Hb.
  assert (Hn : exists l', nextToken (mkLexer (String q body) 0)
                          = (inr ErrUnterminatedString, l')).
  { destruct (lexString_unterminated q body Hq Hb (String.length body) "")
      as (rest & Hl).
    unfold nextToken. cbn [lexRest span].
    destruct Hquote as [-> | ->].
    - change (IsSpace dquote) with false. cbv iota.
      change (IsDigit dquote) with false. change (IsLetter dquote) with false.
      cbn [orb Ascii.eqb Bool.eqb andb dquote]. cbv iota.
      change (Ascii false true false false false true false false) with dquote.
      rewrite Hl. eexists. reflexivity.
    - change (IsSpace "'") with false. cbv iota.
      change (IsDigit "'") with false. change (IsLetter "'") with false.
      cbn [orb Ascii.eqb Bool.eqb andb dquote]. cbv iota.
      rewrite Hl. eexists. reflexivity. }
  destruct Hn as (l' & Hn).
  unfold parseFuel. cbn [String.length].
  replace (2 * S (String.length body) + 4)%nat
    with (S (2 * S (String.length body) + 3)) by lia.
  cbn [parse]. unfold newParser, advance at 2. cbn [lexErr lex next].
  rewrite Hn. unfold advance. cbn [lexErr]. reflexivity.
Qed.

(** A string literal that is not closed is a lexical error.  When the
    text starts with a quote (single or double) and holds no further quote
    of that kind and no backslash, [ParseExpr] and [Engine.Eval] fail with
    "unterminated string". *)
Theorem unterminated_string_is_rejected (q : ascii) (body : string) :
  q = dquote \/ q = "'"%char ->
  contains_byte q body = false -> contains_byte "\" body = false ->
  ParseExpr (String q body) = PErr ErrUnterminatedString
  /\ forall h e d,
       EngineEval h e (String q body) d = Some (VNil, Some ErrUnterminatedString).
Proof.
  intros Hquote Hq Hb.
  pose proof (parse_unterminated q body Hquote Hq Hb) as Hp.
  split.
  - unfold ParseExpr. rewrite Hp. reflexivity.
  - intros h e d. unfold EngineEval. rewrite Hp. reflexivity.
Qed.

Lemma unterminated_string_is_rejected_witness :
  ParseExpr "'abc" = PErr ErrUnterminatedString.
Proof.
  apply (proj1 (unterminated_string_is_rejected "'" "abc"
                  (or_intror eq_refl) eq_refl eq_refl)).
Defined.

(* ================================================================== *)
(** ** Precedence and associativity *)
(* ================================================================== *)

(** From the tokens of a text to the result of [ParseExpr]. *)
Lemma ParseExpr_from_tokens w ts e :
  Lexes w ts ->
  (forall p, stream ts p ->
     exists p', parses 0 0 p (POk e p') /\ typ (curr p') = tEOF) ->
  exists p', ParseExpr w = POk e p'.
Proof.
  intros Hl Hp. destruct (Hp _ (stream_newParser _ _ Hl)) as (p' & Hpar & Heof).
  exists p'. unfold ParseExpr. rewrite (parses_parseFuel _ _ _ Hpar), Heof.
  reflexivity.
Qed.

Section Precedence.

Context (h : Host).

Lemma stops_end rbp : stops rbp [].
Proof. exact I. Qed.

Lemma loops_at_end rbp d e p : 0 <= rbp -> stream [] p -> loops rbp d e p (POk e p).
Proof.
  intros Hr Hs. apply loops_exit. apply (stops_curr rbp [] p Hs I Hr).
Qed.

(** Two binary operators in a row: the second one takes the middle
    operand when it binds tighter, else the first one does (operators of
    equal binding power group to the left). *)
Theorem binary_operators_group_by_precedence (e1 e2 e3 : Expr) (op1 op2 : string) :
  reparsable h e1 = true -> reparsable h e2 = true -> reparsable h e3 = true ->
  existsb (String.eqb op1) infixOps = true ->
  existsb (String.eqb op2) infixOps = true ->
  need e1 <= MaxStackDepth -> 1 + need e2 <= MaxStackDepth ->
  2 + need e3 <= MaxStackDepth ->
  exists p,
    ParseExpr (ExprString h e1 +:+ " " +:+ op1 +:+ " " +:+ ExprString h e2
               +:+ " " +:+ op2 +:+ " " +:+ ExprString h e3)
    = POk (if lbpTok (tOp, op1) <? lbpTok (tOp, op2)
           then InfixExpr e1 op1 (InfixExpr e2 op2 e3)
           else InfixExpr (InfixExpr e1 op1 e2) op2 e3) p.
Proof.
  intros Hr1 Hr2 Hr3 Ho1 Ho2 Hd1 Hd2 Hd3.
  destruct (infixOps_lbp op1 Ho1) as (Hl1 & _).
  destruct (infixOps_lbp op2 Ho2) as (Hl2 & _).
  pose proof (need_nonneg e1) as Hn1. pose proof (need_nonneg e2) as Hn2.
  pose proof (need_nonneg e3) as Hn3.
  apply (ParseExpr_from_tokens _
           (etoks h e1 ++ (tOp, op1) :: etoks h e2 ++ (tOp, op2) :: etoks h e3)%list).
  - norm_append.
    apply (lex_all h e1 Hr1); [| now apply boundary_sep].
    apply Lexes_space. eapply Lexes_cons; [apply lexTok_infix; exact Ho1 |].
    apply Lexes_space.
    apply (lex_all h e2 Hr2); [| now apply boundary_sep].
    apply Lexes_space. eapply Lexes_cons; [apply lexTok_infix; exact Ho2 |].
    apply Lexes_space. apply Lexes_ExprString. exact Hr3.
  - intros p Hs.
    set (p1 := adv (List.length (etoks h e1)) p).
    assert (Hs1 : stream ((tOp, op1) :: etoks h e2 ++ (tOp, op2) :: etoks h e3) p1)
      by now apply stream_adv.
    pose proof (stream_advance _ _ _ Hs1) as Hs1'.
    set (p2 := adv (List.length (etoks h e2)) (advance p1)).
    assert (Hs2 : stream ((tOp, op2) :: etoks h e3) p2) by now apply stream_adv.
    pose proof (stream_advance _ _ _ Hs2) as Hs2'.
    set (p3 := adv (List.length (etoks h e3)) (advance p2)).
    assert (Hs3 : stream [] p3).
    { apply (stream_adv (etoks h e3) []). now rewrite app_nil_r. }
    assert (He3 : forall rbp d, 0 <= rbp < 100 -> d + need e3 <= MaxStackDepth ->
                    parses rbp d (advance p2) (POk e3 p3)).
    { intros rbp d Hrbp Hd.
      apply (chain_complete h e3 (chain_all h e3) rbp d (advance p2) []);
        try assumption; try exact I. now rewrite app_nil_r. }
    exists p3. split; [| exact (stream_nil_typ _ Hs3)].
    apply (chain_all h e1 0 0 p _ _ Hr1 Hs I ltac:(lia) ltac:(lia)).
    fold p1.
    destruct (lbpTok (tOp, op1) <? lbpTok (tOp, op2)) eqn:Hcmp.
    + apply (loops_step 0 0 e1 p1 (InfixExpr e1 op1 (InfixExpr e2 op2 e3)) p3).
      * rewrite lbp_tokOf, (stream_curr _ _ _ Hs1). apply Z.ltb_lt. lia.
      * exact (stream_lexErr _ _ Hs1').
      * apply led_infix; [exact (stream_curr _ _ _ Hs1) | exact Ho1 |].
        apply (chain_all h e2 (lbpTok (tOp, op1)) (0 + 1) (advance p1) _ _
                 Hr2 Hs1' I ltac:(lia) ltac:(lia)).
        fold p2.
        apply (loops_step _ (0 + 1) e2 p2 (InfixExpr e2 op2 e3) p3).
        -- rewrite lbp_tokOf, (stream_curr _ _ _ Hs2). exact Hcmp.
        -- exact (stream_lexErr _ _ Hs2').
        -- apply led_infix; [exact (stream_curr _ _ _ Hs2) | exact Ho2 |].
           apply He3; lia.
        -- apply loops_at_end; [lia | exact Hs3].
      * apply loops_at_end; [lia | exact Hs3].
    + apply Z.ltb_ge in Hcmp.
      apply (loops_step 0 0 e1 p1 (InfixExpr e1 op1 e2) p2).
      * rewrite lbp_tokOf, (stream_curr _ _ _ Hs1). apply Z.ltb_lt. lia.
      * exact (stream_lexErr _ _ Hs1').
      * apply led_infix; [exact (stream_curr _ _ _ Hs1) | exact Ho1 |].
        apply (chain_complete h e2 (chain_all h e2) (lbpTok (tOp, op1)) (0 + 1)
                 (advance p1)
                 ((tOp, op2) :: etoks h e3));
          try assumption; try exact I; try lia.
      * apply (loops_step 0 0 _ p2 (InfixExpr (InfixExpr e1 op1 e2) op2 e3) p3).
        -- rewrite lbp_tokOf, (stream_curr _ _ _ Hs2). apply Z.ltb_lt. lia.
        -- exact (stream_lexErr _ _ Hs2').
        -- apply led_infix; [exact (stream_curr _ _ _ Hs2) | exact Ho2 |].
           apply He3; lia.
        -- apply loops_at_end; [lia | exact Hs3].
Qed.


Lemma infixOps_below_unary op :
  existsb (String.eqb op) infixOps = true -> lbpTok (tOp, op) <= 50.
Proof.
  intros H. apply existsb_exists in H as (x & Hin & Heq).
  apply String.eqb_eq in Heq. subst x. simpl in Hin.
  repeat (destruct Hin as [<- | Hin]; [vm_compute; discriminate |]).
  contradiction.
Qed.

(** A prefix operator binds tighter than every binary operator: in
    [op e1 bop e2] it applies to [e1] alone. *)
Theorem prefix_operator_binds_tighter (op bop : string) (e1 e2 : Expr) :
  existsb (String.eqb op) unaryOps = true ->
  existsb (String.eqb bop) infixOps = true ->
  reparsable h e1 = true -> reparsable h e2 = true ->
  1 + need e1 <= MaxStackDepth -> 1 + need e2 <= MaxStackDepth ->
  exists p,
    ParseExpr (op +:+ ExprString h e1 +:+ " " +:+ bop +:+ " " +:+ ExprString h e2)
    = POk (InfixExpr (UnaryExpr op e1) bop e2) p.
Proof.
  intros Ho Hb Hr1 Hr2 Hd1 Hd2.
  destruct (infixOps_lbp bop Hb) as (Hlb & _).
  pose proof (infixOps_below_unary bop Hb) as Hlb50.
  pose proof (need_nonneg e1) as Hn1. pose proof (need_nonneg e2) as Hn2.
  apply (ParseExpr_from_tokens _
           ((tOp, op) :: etoks h e1 ++ (tOp, bop) :: etoks h e2)%list).
  - assert (Hin : Lexes (ExprString h e1 +:+ " " +:+ bop +:+ " " +:+ ExprString h e2)
                        (etoks h e1 ++ (tOp, bop) :: etoks h e2)%list).
    { norm_append.
      apply (lex_all h e1 Hr1); [| now apply boundary_sep].
      apply Lexes_space. eapply Lexes_cons; [apply lexTok_infix; exact Hb |].
      apply Lexes_space. apply Lexes_ExprString. exact Hr2. }
    destruct (ExprString_head h e1 Hr1) as (c & s & Hs & Hc).
    rewrite Hs in *. rewrite append_cons in *.
    eapply Lexes_cons; [apply lexTok_unary; assumption | exact Hin].
  - intros p Hs.
    pose proof (stream_advance _ _ _ Hs) as Hs'.
    set (p1 := adv (List.length (etoks h e1)) (advance p)).
    assert (Hs1 : stream ((tOp, bop) :: etoks h e2) p1) by now apply stream_adv.
    pose proof (stream_advance _ _ _ Hs1) as Hs1'.
    set (p2 := adv (List.length (etoks h e2)) (advance p1)).
    assert (Hs2 : stream [] p2).
    { apply (stream_adv (etoks h e2) []). now rewrite app_nil_r. }
    exists p2. split; [| exact (stream_nil_typ _ Hs2)].
    apply (parses_step 0 0 p (UnaryExpr op e1) p1).
    + reflexivity.
    + exact (stream_lexErr _ _ Hs).
    + exact (stream_lexErr _ _ Hs').
    + apply nud_unary; [exact (stream_curr _ _ _ Hs) | exact Ho |].
      apply (chain_complete h e1 (chain_all h e1) 60 (0 + 1) (advance p)
               ((tOp, bop) :: etoks h e2));
        try assumption; try exact I; try lia.
      simpl. lia.
    + apply (loops_step 0 0 _ p1 (InfixExpr (UnaryExpr op e1) bop e2) p2).
      * rewrite lbp_tokOf, (stream_curr _ _ _ Hs1). apply Z.ltb_lt. lia.
      * exact (stream_lexErr _ _ Hs1').
      * apply led_infix; [exact (stream_curr _ _ _ Hs1) | exact Hb |].
        apply (chain_complete h e2 (chain_all h e2) (lbpTok (tOp, bop)) (0 + 1)
                 (advance p1) []);
          try assumption; try exact I; try lia.
        now rewrite app_nil_r.
      * apply loops_at_end; [lia | exact Hs2].
Qed.


(** The conditional operator groups to the right: in
    [c1 ? a : c2 ? b : d] the second conditional is the else branch of the
    first. *)
Theorem conditional_groups_to_the_right (c1 a c2 b d : Expr) :
  reparsable h c1 = true -> reparsable h a = true -> reparsable h c2 = true ->
  reparsable h b = true -> reparsable h d = true ->
  need c1 <= MaxStackDepth -> 1 + need a <= MaxStackDepth ->
  1 + need c2 <= MaxStackDepth -> 2 + need b <= MaxStackDepth ->
  2 + need d <= MaxStackDepth ->
  exists p,
    ParseExpr (ExprString h c1 +:+ " ? " +:+ ExprString h a +:+ " : "
               +:+ ExprString h c2 +:+ " ? " +:+ ExprString h b +:+ " : "
               +:+ ExprString h d)
    = POk (TernaryExpr c1 a (TernaryExpr c2 b d)) p.
Proof.
  intros Hrc1 Hra Hrc2 Hrb Hrd Hd1 Hd2 Hd3 Hd4 Hd5.
  pose proof (need_nonneg c1). pose proof (need_nonneg a).
  pose proof (need_nonneg c2). pose proof (need_nonneg b).
  pose proof (need_nonneg d).
  apply (ParseExpr_from_tokens _
           (etoks h c1 ++ (tOp, "?") :: etoks h a ++ (tOp, ":")
              :: etoks h c2 ++ (tOp, "?") :: etoks h b ++ (tOp, ":")
              :: etoks h d)%list).
  - norm_append.
    apply (lex_all h c1 Hrc1); [| now apply boundary_sep].
    apply Lexes_space. eapply Lexes_cons; [apply lexTok_ternary |].
    apply Lexes_space.
    apply (lex_all h a Hra); [| now apply boundary_sep].
    apply Lexes_space. eapply Lexes_cons; [apply lexTok_ternary |].
    apply Lexes_space.
    apply (lex_all h c2 Hrc2); [| now apply boundary_sep].
    apply Lexes_space. eapply Lexes_cons; [apply lexTok_ternary |].
    apply Lexes_space.
    apply (lex_all h b Hrb); [| now apply boundary_sep].
    apply Lexes_space. eapply Lexes_cons; [apply lexTok_ternary |].
    apply Lexes_space. apply Lexes_ExprString. exact Hrd.
  - intros p Hs.
    set (p1 := adv (List.length (etoks h c1)) p).
    assert (Hs1 : stream ((tOp, "?") :: etoks h a ++ (tOp, ":")
                            :: etoks h c2 ++ (tOp, "?") :: etoks h b ++ (tOp, ":")
                            :: etoks h d) p1) by now apply stream_adv.
    pose proof (stream_advance _ _ _ Hs1) as Hs1'.
    set (p2 := adv (List.length (etoks h a)) (advance p1)).
    assert (Hs2 : stream ((tOp, ":") :: etoks h c2 ++ (tOp, "?")
                            :: etoks h b ++ (tOp, ":") :: etoks h d) p2)
      by now apply stream_adv.
    pose proof (stream_advance _ _ _ Hs2) as Hs2'.
    set (p3 := adv (List.length (etoks h c2)) (advance p2)).
    assert (Hs3 : stream ((tOp, "?") :: etoks h b ++ (tOp, ":") :: etoks h d) p3)
      by now apply stream_adv.
    pose proof (stream_advance _ _ _ Hs3) as Hs3'.
    set (p4 := adv (List.length (etoks h b)) (advance p3)).
    assert (Hs4 : stream ((tOp, ":") :: etoks h d) p4) by now apply stream_adv.
    pose proof (stream_advance _ _ _ Hs4) as Hs4'.
    set (p5 := adv (List.length (etoks h d)) (advance p4)).
    assert (Hs5 : stream [] p5).
    { apply (stream_adv (etoks h d) []). now rewrite app_nil_r. }
    exists p5. split; [| exact (stream_nil_typ _ Hs5)].
    apply (chain_all h c1 0 0 p _ _ Hrc1 Hs I ltac:(lia) ltac:(lia)).
    fold p1.
    apply (loops_step 0 0 c1 p1 (TernaryExpr c1 a (TernaryExpr c2 b d)) p5).
    + rewrite lbp_tokOf, (stream_curr _ _ _ Hs1), lbp_question. reflexivity.
    + exact (stream_lexErr _ _ Hs1').
    + apply (led_ternary _ _ _ _ _ p2).
      * exact (stream_curr _ _ _ Hs1).
      * apply (chain_complete h a (chain_all h a) 0 (0 + 1) (advance p1)
                 ((tOp, ":") :: etoks h c2 ++ (tOp, "?")
                    :: etoks h b ++ (tOp, ":") :: etoks h d));
          try assumption; try exact I; try lia.
        apply stops_closing; simpl; auto; lia.
      * exact (stream_curr _ _ _ Hs2).
      * apply (chain_all h c2 4 (0 + 1) (advance p2) _ _ Hrc2 Hs2' I
                 ltac:(lia) ltac:(lia)).
        fold p3.
        apply (loops_step 4 (0 + 1) c2 p3 (TernaryExpr c2 b d) p5).
        -- rewrite lbp_tokOf, (stream_curr _ _ _ Hs3), lbp_question. reflexivity.
        -- exact (stream_lexErr _ _ Hs3').
        -- apply (led_ternary _ _ _ _ _ p4).
           ++ exact (stream_curr _ _ _ Hs3).
           ++ apply (chain_complete h b (chain_all h b) 0 (0 + 1 + 1) (advance p3)
                       ((tOp, ":") :: etoks h d));
                try assumption; try exact I; try lia.
              apply stops_closing; simpl; auto; lia.
           ++ exact (stream_curr _ _ _ Hs4).
           ++ apply (chain_complete h d (chain_all h d) 4 (0 + 1 + 1) (advance p4) []);
                try assumption; try exact I; try lia.
              now rewrite app_nil_r.
        -- apply loops_at_end; [lia | exact Hs5].
    + apply loops_at_end; [lia | exact Hs5].
Qed.

End Precedence.

Lemma binary_operators_group_by_precedence_witness :
  exists p,
    ParseExpr "a + b * c"
    = POk (InfixExpr (VariableExpr "a") "+"
             (InfixExpr (VariableExpr "b") "*" (VariableExpr "c"))) p.
Proof.
  apply (binary_operators_group_by_precedence Fixture.host
           (VariableExpr "a") (VariableExpr "b") (VariableExpr "c") "+" "*");
    try reflexivity; vm_compute; discriminate.
Defined.

Lemma prefix_operator_binds_tighter_witness :
  exists p,
    ParseExpr "-a.b * c"
    = POk (InfixExpr (UnaryExpr "-" (MemberAccessExpr (VariableExpr "a") "b" false))
             "*" (VariableExpr "c")) p.
Proof.
  apply (prefix_operator_binds_tighter Fixture.host "-" "*"
           (MemberAccessExpr (VariableExpr "a") "b" false) (VariableExpr "c"));
    try reflexivity; vm_compute; discriminate.
Defined.

Lemma conditional_groups_to_the_right_witness :
  exists p,
    ParseExpr "a ? 1 : b ? 2 : 3"
    = POk (TernaryExpr (VariableExpr "a") (LiteralExpr (VInt64 1))
             (TernaryExpr (VariableExpr "b") (LiteralExpr (VInt64 2))
                (LiteralExpr (VInt64 3)))) p.
Proof.
  apply (conditional_groups_to_the_right Fixture.host
           (VariableExpr "a") (LiteralExpr (VInt64 1)) (VariableExpr "b")
           (LiteralExpr (VInt64 2)) (LiteralExpr (VInt64 3)));
    try reflexivity; vm_compute; discriminate.
Defined.


(* ================================================================== *)
(** ** Redundant parentheses *)
(* ================================================================== *)

Section Parentheses.

Context (h : Host).

Lemma Lexes_opening k s ts :
  Lexes s ts ->
  Lexes (str_repeat "(" k +:+ s) (repeat (tLParen, "(") k ++ ts)%list.
Proof.
  intros H. induction k as [| k IH]; [exact H |].
  change (str_repeat "(" (S k)) with (String "("%char (str_repeat "(" k)).
  rewrite append_cons. cbn [repeat app].
  eapply Lexes_cons; [apply lexTok_punct | exact IH].
Qed.

Lemma Lexes_closing k :
  Lexes (str_repeat ")" k) (repeat (tRParen, ")") k).
Proof.
  induction k as [| k IH]; [apply Lexes_empty |].
  change (str_repeat ")" (S k)) with (String ")"%char (str_repeat ")" k)).
  cbn [repeat]. eapply Lexes_cons; [apply lexTok_punct | exact IH].
Qed.

Lemma boundary_closing e k : boundary e (str_repeat ")" k).
Proof.
  destruct k as [| k]; [apply boundary_end |].
  change (str_repeat ")" (S k)) with (String ")"%char (str_repeat ")" k)).
  now apply boundary_sep.
Qed.

Lemma repeat_snoc {A : Type} (x : A) k : (repeat x (S k) = repeat x k ++ [x])%list.
Proof.
  induction k as [| k IH]; [reflexivity |].
  cbn [repeat app] in *. now rewrite <- IH.
Qed.

(** Parsing [k] opening parentheses, the tokens of [e] and [k] closing
    ones gives [e], the depth going [k] levels further down. *)
Lemma parse_parenthesised e k :
  reparsable h e = true ->
  forall rbp d p ts,
    stream (repeat (tLParen, "(") k ++ etoks h e
              ++ repeat (tRParen, ")") k ++ ts)%list p ->
    follow ts -> stops rbp ts -> 0 <= rbp < 100 ->
    d + Z.of_nat k + need e <= MaxStackDepth ->
    exists p', parses rbp d p (POk e p') /\ stream ts p'.
Proof.
  intros Hr. pose proof (need_nonneg e) as Hn.
  induction k as [| k IH]; intros rbp d p ts Hs Hf Hst Hrbp Hd.
  - cbn [repeat app] in Hs.
    exists (adv (List.length (etoks h e)) p). split.
    + apply (chain_complete h e (chain_all h e) rbp d p ts);
        try assumption; lia.
    + now apply stream_adv.
  - rewrite (repeat_snoc (tRParen, ")")) in Hs. cbn [repeat app] in Hs.
    rewrite <- (app_assoc (repeat (tRParen, ")") k)) in Hs. cbn [app] in Hs.
    pose proof (stream_advance _ _ _ Hs) as Hs'.
    destruct (IH 0 (d + 1) (advance p) ((tRParen, ")") :: ts) Hs' I)
      as (p' & Hp & Hs1); [apply stops_closing; simpl; auto; lia | lia | lia |].
    exists (advance p'). split; [| exact (stream_advance _ _ _ Hs1)].
    apply (parses_step rbp d p e (advance p')).
    + apply Z.ltb_ge. lia.
    + exact (stream_lexErr _ _ Hs).
    + exact (stream_lexErr _ _ Hs').
    + apply nud_paren;
        [exact (stream_curr_typ _ _ _ Hs) | exact Hp
         | exact (stream_curr_typ _ _ _ Hs1)].
    + apply loops_exit.
      exact (stops_curr rbp ts _ (stream_advance _ _ _ Hs1) Hst ltac:(lia)).
Qed.

(** Parentheses around an expression do not change the tree: [k] pairs
    of them around the canonical text of [e] parse to [e], as long as the
    nesting, [k] levels deeper, stays within [MaxStackDepth]. *)
Theorem redundant_parentheses_are_dropped (e : Expr) (k : nat) :
  reparsable h e = true -> Z.of_nat k + need e <= MaxStackDepth ->
  exists p,
    ParseExpr (str_repeat "(" k +:+ ExprString h e +:+ str_repeat ")" k)
    = POk e p.
Proof.
  intros Hr Hd.
  apply (ParseExpr_from_tokens _
           (repeat (tLParen, "(") k ++ etoks h e ++ repeat (tRParen, ")") k)%list).
  - apply Lexes_opening.
    apply (lex_all h e Hr); [apply Lexes_closing | apply boundary_closing].
  - intros p Hs.
    destruct (parse_parenthesised e k Hr 0 0 p []) as (p' & Hp & Hs');
      try exact I; try lia.
    + now rewrite app_nil_r.
    + exists p'. split; [exact Hp | exact (stream_nil_typ _ Hs')].
Qed.

End Parentheses.

Lemma redundant_parentheses_are_dropped_witness :
  exists p, ParseExpr "((x.y))" = POk (MemberAccessExpr (VariableExpr "x") "y" false) p.
Proof.
  apply (redundant_parentheses_are_dropped Fixture.host
           (MemberAccessExpr (VariableExpr "x") "y" false) 2);
    try reflexivity; vm_compute; discriminate.
Defined.

(** The canonical text determines the tree: two reparsable trees within
    the depth limit that print alike are the same tree. *)
Theorem canonical_text_is_unambiguous (h : Host) (e1 e2 : Expr) :
  reparsable h e1 = true -> need e1 <= MaxStackDepth ->
  reparsable h e2 = true -> need e2 <= MaxStackDepth ->
  ExprString h e1 = ExprString h e2 -> e1 = e2.
Proof.
  intros Hr1 Hd1 Hr2 Hd2 Heq.
  destruct (ParseExpr_ExprString h e1 Hr1 Hd1) as (p1 & H1).
  destruct (ParseExpr_ExprString h e2 Hr2 Hd2) as (p2 & H2).
  rewrite Heq in H1. rewrite H1 in H2. now inversion H2.
Qed.

Lemma canonical_text_is_unambiguous_witness :
  InfixExpr (VariableExpr "a") "+" (VariableExpr "b")
  = InfixExpr (VariableExpr "a") "+" (VariableExpr "b").
Proof.
  apply (canonical_text_is_unambiguous Fixture.host); try reflexivity;
    vm_compute; discriminate.
Defined.

(* ================================================================== *)
(** ** Arguments are evaluated from left to right, up to the first error *)
(* ================================================================== *)

Lemma evalArgs_first_error h ctx pre a post vs v err :
  evalArgs h ctx pre = Done (inr vs) ->
  Eval h ctx a = Done (v, Some err) ->
  evalArgs h ctx (pre ++ a :: post) = Done (inl err).
Proof.
  revert vs. induction pre as [| x pre IH]; intros vs Hpre Ha.
  - cbn [app evalArgs]. rewrite Ha. reflexivity.
  - cbn [app evalArgs] in *.
    destruct (Eval h ctx x) as [[v0 [e0 |]] | r]; simpl in *; try discriminate.
    destruct (evalArgs h ctx pre) as [[e1 | vs1] | r]; simpl in *;
      try discriminate.
    rewrite (IH vs1 eq_refl Ha). reflexivity.
Qed.

(** When an argument of a call fails, the call fails with the error of
    that argument; the arguments before it have been evaluated, the ones
    after it are not, and nothing is called.  This holds for a registered
    function, for the fallback to a method of the root data, and for a
    method call on a receiver that is not nil. *)
Theorem failing_argument_fails_the_call (h : Host) (ctx : Context)
    (pre post : list Expr) (a : Expr) (vs : list value) (v : value) (err : error) :
  evalArgs h ctx pre = Done (inr vs) ->
  Eval h ctx a = Done (v, Some err) ->
  (forall name,
     Fns ctx !! ToLower (hUnicodeLower h) name <> None \/ isNil (Data ctx) = false ->
     Eval h ctx (CallExpr name (pre ++ a :: post)) = Done (VNil, Some err))
  /\ (forall lhs meth obj,
        Eval h ctx lhs = Done (obj, None) -> isNil obj = false ->
        Eval h ctx (MethodCallExpr lhs meth (pre ++ a :: post))
        = Done (VNil, Some err)).
Proof.
  intros Hpre Ha.
  pose proof (evalArgs_first_error h ctx pre a post vs v err Hpre Ha) as Hargs.
  assert (Hw : forall k, withArgs h ctx (pre ++ a :: post) k = Done (VNil, Some err)).
  { intros k. unfold withArgs. rewrite Hargs. reflexivity. }
  split.
  - intros name Hcase. rewrite Eval_Call.
    destruct (Fns ctx !! ToLower (hUnicodeLower h) name) as [fn |] eqn:Hf.
    + apply Hw.
    + destruct Hcase as [Hc | Hc]; [contradiction |].
      rewrite Hc. apply Hw.
  - intros lhs meth obj Hl Hn. rewrite Eval_MethodCall, Hl, try_done, Hn.
    assert (Hlen : (List.length (pre ++ a :: post) =? 0)%nat = false).
    { rewrite List.length_app. cbn [List.length]. apply Nat.eqb_neq. lia. }
    rewrite Hlen, andb_false_r. apply Hw.
Qed.

Lemma failing_argument_fails_the_call_witness :
  Eval Fixture.host (mkContext VNil (defaultFuncs Fixture.host))
       (CallExpr "len"
          [LiteralExpr (VInt64 1);
           InfixExpr (LiteralExpr (VInt64 1)) "/" (LiteralExpr (VInt64 0));
           LiteralExpr (VInt64 3)])
  = Done (VNil, Some ErrDivByZero).
Proof.
  apply (proj1 (failing_argument_fails_the_call Fixture.host
                  (mkContext VNil (defaultFuncs Fixture.host))
                  [LiteralExpr (VInt64 1)] [LiteralExpr (VInt64 3)]
                  (InfixExpr (LiteralExpr (VInt64 1)) "/" (LiteralExpr (VInt64 0)))
                  [VInt64 1] VNil ErrDivByZero eq_refl eq_refl) "len").
  left. vm_compute. discriminate.
Defined.

(* ================================================================== *)
(** ** Equality operators *)
(* ================================================================== *)

(** [==] and [!=] never fail, and on the same operands [!=] is the
    negation of [==]. *)
Theorem equality_operators_are_complementary (h : Host) (ctx : Context)
    (l r : Expr) (lv rv : value) :
  Eval h ctx l = Done (lv, None) -> Eval h ctx r = Done (rv, None) ->
  exists b : bool,
    Eval h ctx (InfixExpr l "==" r) = Done (VBool b, None)
    /\ Eval h ctx (InfixExpr l "!=" r) = Done (VBool (negb b), None).
Proof.
  intros Hl Hr. rewrite !Eval_Infix, Hl, !try_done.
  cbn [String.eqb Ascii.eqb Bool.eqb]. rewrite Hr, !try_done.
  unfold evalInfix. cbn [String.eqb Ascii.eqb Bool.eqb].
  destruct (DeepEqual h lv rv); [exists true; split; reflexivity |].
  destruct (toFloat lv) as [lf okL], (toFloat rv) as [rf okR].
  destruct (okL && okR); eexists; split; reflexivity.
Qed.

Lemma equality_operators_are_complementary_witness :
  exists b : bool,
    Eval Fixture.host (mkContext VNil ∅)
         (InfixExpr (LiteralExpr (VInt64 1)) "==" (LiteralExpr (VString "1")))
    = Done (VBool b, None)
    /\ Eval Fixture.host (mkContext VNil ∅)
         (InfixExpr (LiteralExpr (VInt64 1)) "!=" (LiteralExpr (VString "1")))
       = Done (VBool (negb b), None).
Proof.
  apply (equality_operators_are_complementary Fixture.host (mkContext VNil ∅)
           (LiteralExpr (VInt64 1)) (LiteralExpr (VString "1"))
           (VInt64 1) (VString "1") eq_refl eq_refl).
Defined.

(* ================================================================== *)
(** ** Integer arithmetic *)
(* ================================================================== *)


Lemma wrap64_id z : MinInt64 <= z <= MaxInt64 -> wrap64 z = z.
Proof.
  unfold wrap64, MinInt64, MaxInt64. intros H.
  rewrite Z.mod_small by lia. lia.
Qed.

Lemma wrap64_congr x y : x mod 2 ^ 64 = y mod 2 ^ 64 -> wrap64 x = wrap64 y.
Proof.
  intros H. unfold wrap64. f_equal.
  rewrite (Z.add_mod x), (Z.add_mod y), H by lia. reflexivity.
Qed.

Lemma wrap64_mod z : wrap64 z mod 2 ^ 64 = z mod 2 ^ 64.
Proof.
  unfold wrap64. rewrite Zminus_mod_idemp_l. f_equal. lia.
Qed.

Lemma toInt64_VInt64 n : toInt64 (VInt64 n) = (n, true).
Proof. reflexivity. Qed.




(** Quotient and remainder fit together: for integers [a] and [b] with
    [b] not zero, [(a / b) * b + a % b] evaluates to [a].  The division
    truncates toward zero and the remainder has the sign of [a]; the
    identity holds also where [a / b] overflows. *)
Theorem quotient_and_remainder_recompose (h : Host) (ctx : Context)
    (a b : Expr) (lv rv : value) (li ri : Z) :
  Eval h ctx a = Done (lv, None) -> Eval h ctx b = Done (rv, None) ->
  toInt64 lv = (li, true) -> toInt64 rv = (ri, true) ->
  MinInt64 <= li <= MaxInt64 -> ri <> 0 ->
  Eval h ctx (InfixExpr (InfixExpr (InfixExpr a "/" b) "*" b) "+"
                        (InfixExpr a "%" b))
  = Done (VInt64 li, None).
Proof.
  intros Ha Hb Hl Hr Hrange Hz. apply Z.eqb_neq in Hz.
  assert (Hdiv : Eval h ctx (InfixExpr a "/" b)
                 = Done (VInt64 (wrap64 (Z.quot li ri)), None)).
  { rewrite Eval_Infix, Ha, try_done. cbn [String.eqb Ascii.eqb Bool.eqb].
    rewrite Hb, try_done. unfold evalInfix. cbn [String.eqb Ascii.eqb Bool.eqb].
    unfold evalMath. rewrite Hl, Hr. cbn [andb Ascii.eqb Bool.eqb]. cbv iota.
    rewrite Hz. reflexivity. }
  assert (Hmod : Eval h ctx (InfixExpr a "%" b) = Done (VInt64 (Z.rem li ri), None)).
  { rewrite Eval_Infix, Ha, try_done. cbn [String.eqb Ascii.eqb Bool.eqb].
    rewrite Hb, try_done. unfold evalInfix. cbn [String.eqb Ascii.eqb Bool.eqb].
    unfold evalMath. rewrite Hl, Hr. cbn [andb Ascii.eqb Bool.eqb]. cbv iota.
    rewrite Hz. reflexivity. }
  assert (Hmul : Eval h ctx (InfixExpr (InfixExpr a "/" b) "*" b)
                 = Done (VInt64 (wrap64 (wrap64 (Z.quot li ri) * ri)), None)).
  { rewrite Eval_Infix, Hdiv, try_done. cbn [String.eqb Ascii.eqb Bool.eqb].
    rewrite Hb, try_done. unfold evalInfix. cbn [String.eqb Ascii.eqb Bool.eqb].
    unfold evalMath. rewrite toInt64_VInt64, Hr. reflexivity. }
  rewrite Eval_Infix, Hmul, try_done. cbn [String.eqb Ascii.eqb Bool.eqb].
  rewrite Hmod, try_done. unfold evalInfix. cbn [String.eqb Ascii.eqb Bool.eqb].
  cbn [asString VInt64]. unfold evalMath. rewrite !toInt64_VInt64.
  cbn [andb Ascii.eqb Bool.eqb]. cbv iota. unfold ok. do 3 f_equal.
  transitivity (wrap64 li); [| now apply wrap64_id]. apply wrap64_congr.
  rewrite Z.add_mod, wrap64_mod, Z.mul_mod, wrap64_mod by lia.
  rewrite <- Z.mul_mod, <- Z.add_mod by lia. f_equal.
  pose proof (Z.quot_rem' li ri). lia.
Qed.

Lemma quotient_and_remainder_recompose_witness :
  Eval Fixture.host (mkContext VNil ∅)
       (InfixExpr
          (InfixExpr (InfixExpr (LiteralExpr (VInt64 (-7))) "/" (LiteralExpr (VInt64 2)))
                     "*" (LiteralExpr (VInt64 2)))
          "+" (InfixExpr (LiteralExpr (VInt64 (-7))) "%" (LiteralExpr (VInt64 2))))
  = Done (VInt64 (-7), None).
Proof.
  apply (quotient_and_remainder_recompose Fixture.host (mkContext VNil ∅)
           (LiteralExpr (VInt64 (-7))) (LiteralExpr (VInt64 2))
           (VInt64 (-7)) (VInt64 2) (-7) 2 eq_refl eq_refl eq_refl eq_refl).
  - vm_compute. split; discriminate.
  - discriminate.
Defined.

(** Prefix operators applied twice: [-(-x)] and [~(~x)] give the integer
    [x] back (also for the least [int64], whose negation wraps around to
    itself), and [!(!x)] is the truth value of [x]. *)
Theorem double_prefix_operators (h : Host) (ctx : Context) (e : Expr) (v : value) :
  Eval h ctx e = Done (v, None) ->
  Eval h ctx (UnaryExpr "!" (UnaryExpr "!" e)) = Done (VBool (toBool v), None)
  /\ forall i, toInt64 v = (i, true) -> MinInt64 <= i <= MaxInt64 ->
       Eval h ctx (UnaryExpr "-" (UnaryExpr "-" e)) = Done (VInt64 i, None)
       /\ Eval h ctx (UnaryExpr "~" (UnaryExpr "~" e)) = Done (VInt64 i, None).
Proof.
  intros He. split; [| intros i Hi Hrange; split].
  - assert (H1 : Eval h ctx (UnaryExpr "!" e) = Done (VBool (negb (toBool v)), None))
      by (rewrite Eval_Unary, He, try_done; reflexivity).
    rewrite Eval_Unary, H1, try_done. unfold evalUnary.
    cbn [String.eqb Ascii.eqb Bool.eqb].
    unfold toBool at 1. cbn [isNil asBool]. now rewrite Bool.negb_involutive.
  - assert (H1 : Eval h ctx (UnaryExpr "-" e) = Done (VInt64 (wrap64 (- i)), None)).
    { rewrite Eval_Unary, He, try_done. unfold evalUnary.
      cbn [String.eqb Ascii.eqb Bool.eqb]. now rewrite Hi. }
    rewrite Eval_Unary, H1, try_done. unfold evalUnary.
    cbn [String.eqb Ascii.eqb Bool.eqb].
    rewrite toInt64_VInt64. unfold ok. do 3 f_equal.
    transitivity (wrap64 i); [| now apply wrap64_id]. apply wrap64_congr.
    rewrite <- (Z.mul_1_l (wrap64 (- i))), <- Z.mul_opp_l.
    rewrite Z.mul_mod, wrap64_mod, <- Z.mul_mod by lia. f_equal. lia.
  - assert (H1 : Eval h ctx (UnaryExpr "~" e) = Done (VInt64 (Z.lnot i), None)).
    { rewrite Eval_Unary, He, try_done. unfold evalUnary.
      cbn [String.eqb Ascii.eqb Bool.eqb]. now rewrite Hi. }
    rewrite Eval_Unary, H1, try_done. unfold evalUnary.
    cbn [String.eqb Ascii.eqb Bool.eqb].
    rewrite toInt64_VInt64. cbn [negb]. unfold ok. do 3 f_equal.
    apply Z.lnot_involutive.
Qed.

Lemma double_prefix_operators_witness :
  Eval Fixture.host (mkContext VNil ∅)
       (UnaryExpr "-" (UnaryExpr "-" (LiteralExpr (VInt64 MinInt64))))
  = Done (VInt64 MinInt64, None).
Proof.
  apply (proj2 (double_prefix_operators Fixture.host (mkContext VNil ∅)
                  (LiteralExpr (VInt64 MinInt64)) (VInt64 MinInt64) eq_refl)
           MinInt64 eq_refl).
  vm_compute. split; discriminate.
Defined.

(* ================================================================== *)
(** ** Sequences: a decimal member name is an index *)
(* ================================================================== *)

Lemma deref_not_nil v rv a :
  deref v = Some (rv, a) -> isSeq (kindOf rv) = true -> isNil v = false.
Proof.
  destruct v; try reflexivity. unfold deref. cbn [derefFrom].
  intros H. inversion H; subst. discriminate.
Qed.

(** On a slice or an array (reached through any pointers), the member
    access [a.N] with a decimal name [N] and the index [a[N]] give the
    same result: the element when [N] is in range, nil when it is not. *)
Theorem decimal_member_is_index (h : Host) (ctx : Context) (lhs : Expr)
    (v rv : value) (a b : bool) (i : Z) :
  Eval h ctx lhs = Done (v, None) ->
  deref v = Some (rv, a) -> isSeq (kindOf rv) = true ->
  0 <= i <= MaxInt64 ->
  Eval h ctx (MemberAccessExpr lhs (FormatInt i) b)
  = Eval h ctx (IndexExpr lhs (LiteralExpr (VInt64 i)))
  /\ Eval h ctx (IndexExpr lhs (LiteralExpr (VInt64 i)))
     = Done (if lenOf rv <=? i then VNil else nth (Z.to_nat i) (elemsOf rv) VNil,
             None).
Proof.
  intros Hl Hd Hk Hi.
  pose proof (deref_not_nil v rv a Hd Hk) as Hn.
  destruct (FormatInt_reads_back i Hi) as (_ & _ & Hp).
  assert (Hneg : (i <? 0) = false) by (apply Z.ltb_ge; lia).
  assert (Hidx : Eval h ctx (IndexExpr lhs (LiteralExpr (VInt64 i)))
                 = Done (if lenOf rv <=? i then VNil
                         else nth (Z.to_nat i) (elemsOf rv) VNil, None)).
  { rewrite Eval_Index, Hl, try_done, Hn.
    change (Eval h ctx (LiteralExpr (VInt64 i))) with (Done (VInt64 i, @None error)).
    rewrite try_done. unfold indexValue. rewrite Hd.
    destruct (kindOf rv); try discriminate Hk;
      rewrite toInt64_VInt64; cbn [negb]; rewrite Hneg; cbn [orb];
      destruct (lenOf rv <=? i); reflexivity. }
  split; [| exact Hidx]. rewrite Hidx.
  rewrite Eval_MemberAccess, Hl, try_done, Hn. unfold getMember.
  rewrite Hn, Hd.
  destruct (kindOf rv); try discriminate Hk;
    unfold Atoi; rewrite Hp; cbn [numerr_ok negb]; rewrite Hneg; cbn [orb];
    destruct (lenOf rv <=? i); reflexivity.
Qed.

Lemma decimal_member_is_index_witness :
  Eval Fixture.host (mkContext Fixture.data ∅)
       (MemberAccessExpr (VariableExpr "tags") (FormatInt 1) false)
  = Eval Fixture.host (mkContext Fixture.data ∅)
       (IndexExpr (VariableExpr "tags") (LiteralExpr (VInt64 1))).
Proof.
  apply (proj1 (decimal_member_is_index Fixture.host (mkContext Fixture.data ∅)
                  (VariableExpr "tags")
                  (VSlice [VString "go"; VString "okra"])
                  (VSlice [VString "go"; VString "okra"]) false false 1
                  eq_refl eq_refl eq_refl ltac:(vm_compute; split; discriminate))).
Defined.

(* ================================================================== *)
(** ** Maps with string keys *)
(* ================================================================== *)

Lemma keyEq_string h k s : keyEq h k (VString s) = true -> k = VString s.
Proof.
  destruct k; cbn; try discriminate.
  intros H. apply String.eqb_eq in H. now subst.
Qed.

Lemma mapIndex_in h m key v :
  List.NoDup (map fst m) -> In (VString key, v) m ->
  mapIndex h m (VString key) = Some v.
Proof.
  induction m as [| [k x] m IH]; intros Hnd Hin; [contradiction |].
  cbn [map fst] in Hnd. apply List.NoDup_cons_iff in Hnd as [Hnotin Hnd'].
  cbn [mapIndex]. destruct Hin as [Heq | Hin].
  - inversion Heq; subst. cbn [keyEq]. now rewrite String.eqb_refl.
  - destruct (keyEq h k (VString key)) eqn:Hk.
    + apply keyEq_string in Hk. subst k. exfalso. apply Hnotin.
      change (VString key) with (fst (VString key, v)). now apply in_map.
    + now apply IH.
Qed.

(** Lookup in a map finds what the map holds: in a map whose key type
    accepts a string and that has the entry [key -> v], the member access
    by [key] gives [v]. *)
Theorem map_member_lookup (h : Host) (kt : rtype) (m : list (value * value))
    (key : string) (v : value) :
  hAssignableTo h (VString key) kt = true ->
  List.NoDup (map fst m) -> In (VString key, v) m ->
  getMember h (VMap kt m) key = Done (v, None)
  /\ forall ctx name,
       Eval h ctx (VariableExpr name) = Done (VMap kt m, None) ->
       Eval h ctx (MemberAccessExpr (VariableExpr name) key false) = Done (v, None).
Proof.
  intros Ha Hnd Hin.
  assert (Hg : getMember h (VMap kt m) key = Done (v, None)).
  { unfold getMember. cbn [isNil deref derefFrom kindOf mapKeyType unname mapEntries].
    unfold memberKey. rewrite Ha. cbn [bind].
    now rewrite (mapIndex_in h m key v Hnd Hin). }
  split; [exact Hg |]. intros ctx name Hv.
  rewrite Eval_MemberAccess, Hv, try_done. exact Hg.
Qed.

Lemma map_member_lookup_witness :
  getMember Fixture.host (Fixture.mapStringAny [("a", VInt64 1); ("b", VInt64 2)]) "b"
  = Done (VInt64 2, None).
Proof.
  apply (proj1 (map_member_lookup Fixture.host Fixture.tString
                  [(VString "a", VInt64 1); (VString "b", VInt64 2)] "b" (VInt64 2)
                  eq_refl
                  ltac:(repeat (apply List.NoDup_cons; [simpl; intuition discriminate |]); apply List.NoDup_nil)
                  ltac:(simpl; auto))).
Defined.

(* ================================================================== *)
(** ** Struct fields *)
(* ================================================================== *)

Lemma metaFields_sound fs :
  forall i0 m k i,
    metaFields fs i0 m !! k = Some i ->
    m !! k = Some i
    \/ exists j f v, i = (i0 + j)%nat /\ nth_error fs j = Some (f, v)
                     /\ (fName f = k \/ tagName f = Some k).
Proof.
  induction fs as [| [f v] fs IH]; intros i0 m k i H; [now left |].
  cbn [metaFields] in H. apply IH in H as [H | (j & f' & v' & -> & Hn & Hk)].
  - assert (Hm1 : <[fName f := i0]> m !! k = Some i
                  \/ (tagName f = Some k /\ i = i0)).
    { destruct (tagName f) as [t |]; [| now left].
      apply lookup_insert_Some in H as [[-> <-] | [_ H]]; [now right | now left]. }
    destruct Hm1 as [Hm1 | [Ht ->]].
    + apply lookup_insert_Some in Hm1 as [[<- <-] | [_ Hm]]; [| now left].
      right. exists 0%nat, f, v. rewrite Nat.add_0_r. auto.
    + right. exists 0%nat, f, v. rewrite Nat.add_0_r. auto.
  - right. exists (S j), f', v'. split; [lia | auto].
Qed.

Lemma metaFields_keeps fs :
  forall i0 m k, is_Some (m !! k) -> is_Some (metaFields fs i0 m !! k).
Proof.
  induction fs as [| [f v] fs IH]; intros i0 m k H; [exact H |].
  cbn [metaFields]. apply IH.
  assert (H1 : is_Some (<[fName f := i0]> m !! k)).
  { destruct (decide (fName f = k)) as [-> | Hne].
    - rewrite lookup_insert_eq. eauto.
    - now rewrite lookup_insert_ne. }
  destruct (tagName f) as [t |]; [| exact H1].
  destruct (decide (t = k)) as [-> | Hne].
  - rewrite lookup_insert_eq. eauto.
  - now rewrite lookup_insert_ne.
Qed.

Lemma metaFields_complete fs :
  forall i0 m f v k,
    In (f, v) fs -> fName f = k \/ tagName f = Some k ->
    is_Some (metaFields fs i0 m !! k).
Proof.
  induction fs as [| [f0 v0] fs IH]; intros i0 m f v k Hin Hk; [contradiction |].
  cbn [metaFields]. destruct Hin as [Heq | Hin]; [| now apply (IH _ _ f v)].
  inversion Heq; subst f0 v0. apply metaFields_keeps.
  destruct Hk as [<- | Ht].
  - destruct (tagName f) as [t |].
    + destruct (decide (t = fName f)) as [-> | Hne].
      * rewrite lookup_insert_eq. eauto.
      * rewrite lookup_insert_ne by exact Hne. rewrite lookup_insert_eq. eauto.
    + rewrite lookup_insert_eq. eauto.
  - rewrite Ht. rewrite lookup_insert_eq. eauto.
Qed.

(** The field table of a struct type answers exactly for the names and
    tag names of its fields.  A key it knows leads to a field of the
    struct that bears the key as its name or as its tag name, and the
    member access gives the value of that field, or panics when the field
    is not exported (never with an index out of range).  A key it does not
    know is the name or tag name of no field. *)
Theorem struct_member_resolves_to_a_field (h : Host) (fs : list (field * value))
    (key : string) :
  match metaFields fs 0 ∅ !! key with
  | Some i =>
      exists f v,
        nth_error fs i = Some (f, v)
        /\ (fName f = key \/ tagName f = Some key)
        /\ getMember h (VStruct fs) key
           = if fExported f then Done (v, None)
             else Panic "reflect.Value.Interface: cannot return value obtained from unexported field or method"
  | None =>
      forall f v, In (f, v) fs -> fName f <> key /\ tagName f <> Some key
  end.
Proof.
  destruct (metaFields fs 0 ∅ !! key) as [i |] eqn:Hm.
  - destruct (metaFields_sound fs 0 ∅ key i Hm)
      as [H | (j & f & v & -> & Hn & Hk)]; [now rewrite lookup_empty in H |].
    change (0 + j)%nat with j in *.
    exists f, v. split; [exact Hn |]. split; [exact Hk |].
    unfold getMember.
    cbn [isNil deref derefFrom kindOf structFields unname].
    rewrite Hm. unfold fieldInterface. rewrite Hn. reflexivity.
  - intros f v Hin.
    split; intros Hk;
      destruct (metaFields_complete fs 0 ∅ f v key Hin) as [i Hi];
      auto; congruence.
Qed.

(* ================================================================== *)
(** ** Truth values *)
(* ================================================================== *)

Lemma toFloat_not_numeric v :
  isNumeric (kindOf v) = false -> asString v = None ->
  toFloat v = (f64_zero, false).
Proof.
  intros Hk Hs. unfold toFloat, toInt64. rewrite Hs.
  destruct (isNil v); [destruct (kindOf v); try reflexivity; discriminate Hk |].
  destruct (kindOf v); try reflexivity; discriminate Hk.
Qed.

(** What counts as true: the boolean [true], a string other than the
    empty one and ["false"], and a number that is not zero.  Everything
    else is false: nil, slices, maps, structs and pointers whatever they
    hold, and values of a defined type whose underlying type is [bool] or
    [string]. *)
Theorem truthy_values (v : value) :
  toBool v = true <->
  v = VBool true
  \/ (exists s, v = VString s /\ s <> "" /\ s <> "false")
  \/ (isNumeric (kindOf v) = true /\ f64_eqb (fst (toFloat v)) f64_zero = false).
Proof.
  split.
  - intros H. destruct v as [| b | k n | k f | s | xs | xs | kt m | p | fs | t v' | k];
      unfold toBool in H; cbn [isNil asBool asString] in H; try discriminate H.
    + left. now subst.
    + right; right. apply negb_true_iff in H.
      destruct (isNumeric (kindOf (VInt k n))) eqn:Hk; [auto |].
      rewrite (toFloat_not_numeric _ Hk eq_refl) in H. discriminate H.
    + right; right. apply negb_true_iff in H.
      destruct (isNumeric (kindOf (VFloat k f))) eqn:Hk; [auto |].
      rewrite (toFloat_not_numeric _ Hk eq_refl) in H. discriminate H.
    + right; left. exists s. apply andb_prop in H as [H1 H2].
      apply negb_true_iff in H1, H2.
      apply String.eqb_neq in H1, H2. auto.
    + right; right. apply negb_true_iff in H.
      destruct (isNumeric (kindOf (VNamed t v'))) eqn:Hk; [auto |].
      rewrite (toFloat_not_numeric _ Hk eq_refl) in H. discriminate H.
    + right; right. apply negb_true_iff in H.
      destruct (isNumeric (kindOf (VOpaque k))) eqn:Hk; [auto |].
      rewrite (toFloat_not_numeric _ Hk eq_refl) in H. discriminate H.
  - intros [-> | [(s & -> & H1 & H2) | [Hk Hf]]].
    + reflexivity.
    + unfold toBool. cbn [isNil asBool asString].
      apply String.eqb_neq in H1, H2. now rewrite H1, H2.
    + destruct v; try discriminate Hk;
        unfold toBool; cbn [isNil asBool asString]; now rewrite Hf.
Qed.

(* ================================================================== *)
(** ** The [len] function and the [len] method *)
(* ================================================================== *)

Lemma deref_direct v : kindOf v <> Pointer -> deref v = Some (v, false).
Proof.
  intros Hk. destruct v; try reflexivity.
  - exfalso. now apply Hk.
  - unfold deref. cbn [derefFrom]. cbn [kindOf] in Hk.
    destruct (kindOf v); try reflexivity. exfalso. now apply Hk.
Qed.

(** The builtin function [len(x)] and the method [x.len()] agree on a
    slice, a map and a string.  They differ on an array and behind a
    pointer: the method gives the length, the function gives 0. *)
Theorem len_function_and_len_method (h : Host) (ctx : Context) (a : Expr)
    (v : value) :
  Eval h ctx a = Done (v, None) ->
  Fns ctx !! "len" = Some builtinLen ->
  (In (kindOf v) [Slice; Map; String_] ->
     Eval h ctx (CallExpr "len" [a]) = Done (VInt64 (lenOf v), None)
     /\ Eval h ctx (MethodCallExpr a "len" []) = Done (VInt64 (lenOf v), None))
  /\ (kindOf v = Array ->
      Eval h ctx (CallExpr "len" [a]) = Done (VInt64 0, None)
      /\ Eval h ctx (MethodCallExpr a "len" []) = Done (VInt64 (lenOf v), None))
  /\ (forall rv, v = VPtr (Some rv) -> kindOf rv <> Pointer ->
      isSized (kindOf rv) = true ->
      Eval h ctx (CallExpr "len" [a]) = Done (VInt64 0, None)
      /\ Eval h ctx (MethodCallExpr a "len" []) = Done (VInt64 (lenOf rv), None)).
Proof.
  intros Ha Hf.
  assert (Hcall : Eval h ctx (CallExpr "len" [a]) = builtinLen [v]).
  { rewrite Eval_Call.
    change (ToLower (hUnicodeLower h) "len") with "len". rewrite Hf.
    unfold withArgs. cbn [evalArgs]. rewrite Ha. reflexivity. }
  assert (Hmeth : isNil v = false ->
                  Eval h ctx (MethodCallExpr a "len" []) =
                  match lenMethod v with
                  | Some r => Done r
                  | None => withArgs h ctx [] (fun vs => callReflectMethod h v "len" vs)
                  end).
  { intros Hn. rewrite Eval_MethodCall, Ha, try_done, Hn. reflexivity. }
  rewrite Hcall. split; [| split].
  - intros Hk.
    assert (Hp : kindOf v <> Pointer)
      by (simpl in Hk; intros E; rewrite E in Hk; intuition discriminate).
    assert (Hn : isNil v = false)
      by (destruct v; try reflexivity; simpl in Hk; intuition discriminate).
    rewrite (Hmeth Hn). unfold lenMethod. rewrite (deref_direct v Hp).
    unfold builtinLen. simpl in Hk.
    destruct Hk as [<- | [<- | [<- | []]]]; split; reflexivity.
  - intros Hk.
    assert (Hp : kindOf v <> Pointer) by (rewrite Hk; discriminate).
    assert (Hn : isNil v = false)
      by (destruct v; try reflexivity; discriminate Hk).
    rewrite (Hmeth Hn). unfold lenMethod. rewrite (deref_direct v Hp).
    unfold builtinLen. rewrite Hk. split; reflexivity.
  - intros rv -> Hp Hs. rewrite (Hmeth eq_refl).
    unfold lenMethod, deref. cbn [derefFrom].
    assert (Hd : derefFrom true rv = Some (rv, true)).
    { destruct rv; try reflexivity.
      - exfalso. now apply Hp.
      - cbn [derefFrom]. cbn [kindOf] in Hp.
        destruct (kindOf rv); try reflexivity. exfalso. now apply Hp. }
    rewrite Hd. split; [reflexivity |].
    destruct (kindOf rv); try discriminate Hs; reflexivity.
Qed.

Lemma len_function_and_len_method_witness :
  Eval Fixture.host (mkContext Fixture.data (defaultFuncs Fixture.host))
       (CallExpr "len" [VariableExpr "tags"]) = Done (VInt64 2, None)
  /\ Eval Fixture.host (mkContext Fixture.data (defaultFuncs Fixture.host))
       (MethodCallExpr (VariableExpr "tags") "len" []) = Done (VInt64 2, None).
Proof.
  apply (proj1 (len_function_and_len_method Fixture.host
                  (mkContext Fixture.data (defaultFuncs Fixture.host))
                  (VariableExpr "tags") (VSlice [VString "go"; VString "okra"])
                  eq_refl eq_refl)).
  simpl. auto.
Defined.

(* ================================================================== *)
(** ** The function registry *)
(* ================================================================== *)

(** Registering a function under a name that is not empty adds it to the
    registry, in place of one registered under that name before, and keeps
    every other entry (the builtins among them); a call by that name, when
    the name is in lower case, applies the function to the values of the
    arguments, in order.  An empty name or a nil function is refused and
    leaves the registry as it was. *)
Theorem RegisterFunc_adds_to_the_registry (h : Host) (e : Engine) (name : string)
    (fn : list value -> outcome result) :
  name <> "" ->
  let r := RegisterFunc h e name (Some fn) in
  snd r = None
  /\ loadFuncs h (fst r) !! name = Some fn
  /\ (forall k, k <> name -> loadFuncs h (fst r) !! k = loadFuncs h e !! k)
  /\ (forall d args vs,
        ToLower (hUnicodeLower h) name = name ->
        evalArgs h (mkContext d (loadFuncs h (fst r))) args = Done (inr vs) ->
        Eval h (mkContext d (loadFuncs h (fst r))) (CallExpr name args) = fn vs)
  /\ RegisterFunc h e name None = (e, Some ErrNilFunc)
  /\ forall fn', RegisterFunc h e "" fn' = (e, Some ErrEmptyFuncName).
Proof.
  intros Hne r. subst r. unfold RegisterFunc.
  apply String.eqb_neq in Hne. rewrite Hne. cbn [fst snd loadFuncs funcs].
  split; [reflexivity |]. split; [apply lookup_insert_eq |].
  split; [intros k Hk; now apply lookup_insert_ne |].
  split; [| split; [reflexivity | intros fn'; reflexivity]].
  intros d args vs Hlow Hargs. rewrite Eval_Call. cbn [Fns].
  rewrite Hlow, lookup_insert_eq. now apply withArgs_done.
Qed.

Lemma RegisterFunc_adds_to_the_registry_witness :
  loadFuncs Fixture.host
    (fst (RegisterFunc Fixture.host (NewEngine Fixture.host) "twice"
            (Some (fun _ => Done (VInt64 2, None))))) !! "len"
  = loadFuncs Fixture.host (NewEngine Fixture.host) !! "len".
Proof.
  apply (proj1 (proj2 (proj2 (RegisterFunc_adds_to_the_registry Fixture.host
                                (NewEngine Fixture.host) "twice"
                                (fun _ => Done (VInt64 2, None))
                                ltac:(discriminate))))).
  discriminate.
Defined.

(* ================================================================== *)
(** ** Comparison of integers goes through [float64] *)
(* ================================================================== *)

Lemma SFcompare_Eq_sym x y : SFcompare x y = Some Eq -> SFcompare y x = Some Eq.
Proof.
  destruct x as [sx | sx | | sx mx ex], y as [sy | sy | | sy my ey];
    cbn [SFcompare]; try (intros H; discriminate H);
    try (destruct sx; intros H; discriminate H);
    try (destruct sy; intros H; discriminate H);
    try (destruct sx, sy; intros H; try discriminate H; reflexivity).
  change (PosDef.Pos.compare_cont Eq mx my) with (Pos.compare mx my).
  change (PosDef.Pos.compare_cont Eq my mx) with (Pos.compare my mx).
  destruct sx, sy; try (intros H; discriminate H); intros H;
    destruct (Z.compare ex ey) eqn:He; try discriminate H;
    destruct (Pos.compare mx my) eqn:Hm; try discriminate H;
    apply Z.compare_eq in He; apply Pos.compare_eq in Hm; subst;
    rewrite Z.compare_refl, Pos.compare_refl; reflexivity.
Qed.

Lemma f64_eqb_not_ltb x y :
  f64_eqb x y = true -> f64_ltb x y = false /\ f64_ltb y x = false.
Proof.
  unfold f64_eqb, f64_ltb, SFeqb, SFltb. intros H.
  assert (Hc : SFcompare x y = Some Eq).
  { destruct (SFcompare x y) as [[] |]; try discriminate H; reflexivity. }
  now rewrite (SFcompare_Eq_sym x y Hc), Hc.
Qed.

(** Integers are compared after conversion to [float64].  Two integers
    whose conversions are equal compare equal under [==] and [!=], and
    neither is less than the other, even when the integers differ; this
    happens above 2^53. *)
Theorem integers_compare_as_floats (h : Host) (ctx : Context) (l r : Expr) (n m : Z) :
  Eval h ctx l = Done (VInt64 n, None) -> Eval h ctx r = Done (VInt64 m, None) ->
  f64_eqb (f64_of_int n) (f64_of_int m) = true ->
  Eval h ctx (InfixExpr l "==" r) = Done (VBool true, None)
  /\ Eval h ctx (InfixExpr l "!=" r) = Done (VBool false, None)
  /\ Eval h ctx (InfixExpr l "<" r) = Done (VBool false, None)
  /\ Eval h ctx (InfixExpr l ">" r) = Done (VBool false, None).
Proof.
  intros Hl Hr Heq.
  destruct (f64_eqb_not_ltb _ _ Heq) as [Hlt Hgt].
  assert (Hop : forall op, String.eqb op "&&" = false -> String.eqb op "||" = false ->
                  Eval h ctx (InfixExpr l op r) = evalInfix h op (VInt64 n) (VInt64 m)).
  { intros op H1 H2. rewrite Eval_Infix, Hl, try_done, H1, H2, Hr, try_done.
    reflexivity. }
  rewrite !Hop by reflexivity. unfold evalInfix, compare.
  cbn [String.eqb Ascii.eqb Bool.eqb existsb orb].
  change (toFloat (VInt64 n)) with (f64_of_int n, true).
  change (toFloat (VInt64 m)) with (f64_of_int m, true).
  cbn [andb negb orb]. rewrite Heq, Hlt, Hgt. cbn [negb].
  destruct (DeepEqual h (VInt64 n) (VInt64 m)); repeat split; reflexivity.
Qed.

Lemma integers_compare_as_floats_witness :
  9007199254740992 <> 9007199254740993
  /\ Eval Fixture.host (mkContext VNil ∅)
       (InfixExpr (LiteralExpr (VInt64 9007199254740992)) "=="
                  (LiteralExpr (VInt64 9007199254740993)))
     = Done (VBool true, None).
Proof.
  split; [discriminate |].
  apply (proj1 (integers_compare_as_floats Fixture.host (mkContext VNil ∅)
                  (LiteralExpr (VInt64 9007199254740992))
                  (LiteralExpr (VInt64 9007199254740993))
                  9007199254740992 9007199254740993 eq_refl eq_refl
                  ltac:(vm_compute; reflexivity))).
Defined.

(* ================================================================== *)
(** ** Logical operators and errors *)
(* ================================================================== *)

(** [&&] and [||] give a boolean, never one of their operands: when
    both operands evaluate, the result is the conjunction, or the
    disjunction, of their truth values. *)
Theorem logical_operators_return_booleans (h : Host) (ctx : Context)
    (l r : Expr) (lv rv : value) :
  Eval h ctx l = Done (lv, None) -> Eval h ctx r = Done (rv, None) ->
  Eval h ctx (InfixExpr l "&&" r) = Done (VBool (toBool lv && toBool rv), None)
  /\ Eval h ctx (InfixExpr l "||" r) = Done (VBool (toBool lv || toBool rv), None).
Proof.
  intros Hl Hr. rewrite !Eval_Infix, Hl, !try_done.
  cbn [String.eqb Ascii.eqb Bool.eqb]. rewrite Hr, !try_done.
  destruct (toBool lv); split; reflexivity.
Qed.

Lemma logical_operators_return_booleans_witness :
  Eval Fixture.host (mkContext VNil ∅)
       (InfixExpr (LiteralExpr (VInt64 5)) "&&" (LiteralExpr (VString "x")))
  = Done (VBool true, None).
Proof.
  apply (proj1 (logical_operators_return_booleans Fixture.host (mkContext VNil ∅)
                  (LiteralExpr (VInt64 5)) (LiteralExpr (VString "x"))
                  (VInt64 5) (VString "x") eq_refl eq_refl)).
Defined.

(** An error of a sub-expression is the error of the expression: the
    operand of a prefix operator, the left operand of every binary
    operator ([&&] and [||] included), the right operand of the others,
    the condition of a conditional, the receiver of a member access, an
    index or a method call, and the index.  The value returned with the
    error is nil, and what comes after the failing part is not
    evaluated. *)
Theorem errors_propagate (h : Host) (ctx : Context) (x : Expr) (v : value)
    (err : error) :
  Eval h ctx x = Done (v, Some err) ->
  (forall op, Eval h ctx (UnaryExpr op x) = Done (VNil, Some err))
  /\ (forall op r, Eval h ctx (InfixExpr x op r) = Done (VNil, Some err))
  /\ (forall t e, Eval h ctx (TernaryExpr x t e) = Done (VNil, Some err))
  /\ (forall key b, Eval h ctx (MemberAccessExpr x key b) = Done (VNil, Some err))
  /\ (forall i, Eval h ctx (IndexExpr x i) = Done (VNil, Some err))
  /\ (forall m args, Eval h ctx (MethodCallExpr x m args) = Done (VNil, Some err))
  /\ (forall l lv op,
        Eval h ctx l = Done (lv, None) ->
        String.eqb op "&&" = false -> String.eqb op "||" = false ->
        Eval h ctx (InfixExpr l op x) = Done (VNil, Some err))
  /\ (forall l obj,
        Eval h ctx l = Done (obj, None) -> isNil obj = false ->
        Eval h ctx (IndexExpr l x) = Done (VNil, Some err)).
Proof.
  intros Hx. repeat apply conj.
  - intros op. now rewrite Eval_Unary, Hx.
  - intros op r. now rewrite Eval_Infix, Hx.
  - intros t e. now rewrite Eval_Ternary, Hx.
  - intros key b. now rewrite Eval_MemberAccess, Hx.
  - intros i. now rewrite Eval_Index, Hx.
  - intros m args. now rewrite Eval_MethodCall, Hx.
  - intros l lv op Hl H1 H2. now rewrite Eval_Infix, Hl, try_done, H1, H2, Hx.
  - intros l obj Hl Hn. now rewrite Eval_Index, Hl, try_done, Hn, Hx.
Qed.

Lemma errors_propagate_witness :
  Eval Fixture.host (mkContext VNil ∅)
       (UnaryExpr "!" (InfixExpr (LiteralExpr (VInt64 1)) "/" (LiteralExpr (VInt64 0))))
  = Done (VNil, Some ErrDivByZero).
Proof.
  apply (proj1 (errors_propagate Fixture.host (mkContext VNil ∅)
                  (InfixExpr (LiteralExpr (VInt64 1)) "/" (LiteralExpr (VInt64 0)))
                  VNil ErrDivByZero eq_refl)).
Defined.

Lemma truthy_values_witness : toBool (VString "0") = true.
Proof.
  apply (proj2 (truthy_values (VString "0"))).
  right; left. exists "0". repeat split; discriminate.
Defined.

Lemma struct_member_resolves_to_a_field_witness :
  getMember Fixture.host
    (VStruct [(mkField "Name" "name" "" true, VString "Alice");
              (mkField "age" "" "" false, VInt Int 25)]) "name"
  = Done (VString "Alice", None).
Proof.
  pose proof (struct_member_resolves_to_a_field Fixture.host
                [(mkField "Name" "name" "" true, VString "Alice");
                 (mkField "age" "" "" false, VInt Int 25)] "name") as H.
  assert (E : metaFields [(mkField "Name" "name" "" true, VString "Alice");
                          (mkField "age" "" "" false, VInt Int 25)] 0 ∅ !! "name"
              = Some 0%nat) by (vm_compute; reflexivity).
  rewrite E in H. destruct H as (f & v & Hn & _ & Hg).
  cbn [nth_error] in Hn. inversion Hn; subst f v. exact Hg.
Defined.

(* ================================================================== *)
(** ** The parser sees tokens, not positions *)
(* ================================================================== *)

Lemma nextToken_eof_val l t l' :
  nextToken l = (inl t, l') -> typ t = tEOF -> val t = "".
Proof.
  unfold nextToken. destruct (span IsSpace (lexRest l)) as [a s0].
  destruct s0 as [| r s1]; [intros H _; now inversion H |].
  destruct (IsDigit r).
  { destruct (span _ s1). intros H Ht. inversion H; subst. discriminate Ht. }
  destruct (IsLetter r || Ascii.eqb r "_").
  { destruct (span _ s1). intros H Ht. inversion H; subst. discriminate Ht. }
  destruct (Ascii.eqb r dquote || Ascii.eqb r "'").
  { destruct (lexString _ _ _ _) as [[sb | e] s2]; intros H Ht;
      inversion H; subst; discriminate Ht. }
  repeat match goal with
         | |- context [if ?c then _ else _] => destruct c
         end;
    try (intros H Ht; inversion H; subst; discriminate Ht).
  destruct (find _ _); intros H Ht; inversion H; subst; discriminate Ht.
Qed.

Lemma advance_sim p p' : parSim p p' -> parSim (advance p) (advance p').
Proof.
  intros (He & He' & Hc & Hn & ts & Hl & Hl').
  unfold advance. rewrite He, He'.
  pose proof (nextToken_lexTok (lex p)) as H1.
  pose proof (nextToken_lexTok (lex p')) as H2.
  pose proof (nextToken_eof_val (lex p)) as V1.
  pose proof (nextToken_eof_val (lex p')) as V2.
  destruct (nextToken (lex p)) as [[t | e] l1], (nextToken (lex p')) as [[t' | e'] l1'].
  - destruct (tokType_eqb (typ t) tEOF) eqn:Et, (tokType_eqb (typ t') tEOF) eqn:Et'.
    + destruct H1 as [H1 R1], H2 as [H2 R2].
      assert (T1 : typ t = tEOF) by (destruct (typ t); try discriminate Et; reflexivity).
      assert (T2 : typ t' = tEOF) by (destruct (typ t'); try discriminate Et'; reflexivity).
      unfold parSim. cbn [lexErr curr next lex].
      split; [reflexivity |]. split; [reflexivity |]. split; [exact Hn |].
      split.
      * unfold tokOf. rewrite T1, T2.
        now rewrite (V1 t l1 eq_refl T1), (V2 t' l1' eq_refl T2).
      * exists []. rewrite R1, R2. split; apply Lexes_empty.
    + exfalso. destruct H1 as [H1 _].
      inversion Hl; subst; inversion Hl'; subst; congruence.
    + exfalso. destruct H2 as [H2 _].
      inversion Hl; subst; inversion Hl'; subst; congruence.
    + inversion Hl as [? E1 | ? a s1 ts1 E1 L1]; subst; [congruence |].
      inversion Hl' as [? E2 | ? a' s1' ts1' E2 L2]; subst.
      rewrite H1 in E1. rewrite H2 in E2. inversion E1; inversion E2; subst.
      unfold parSim. cbn [lexErr curr next lex].
      split; [reflexivity |]. split; [reflexivity |]. split; [exact Hn |].
      split; [congruence |]. exists ts1. split; assumption.
  - exfalso. inversion Hl; subst; inversion Hl'; subst; congruence.
  - exfalso. inversion Hl; subst; inversion Hl'; subst; congruence.
  - exfalso. inversion Hl; subst; congruence.
Qed.

Lemma parSim_lbp p p' : parSim p p' -> lbp (curr p) = lbp (curr p').
Proof. intros (_ & _ & Hc & _). now rewrite !lbp_tokOf, Hc. Qed.

Lemma parSim_typ p p' : parSim p p' -> typ (curr p) = typ (curr p').
Proof. intros (_ & _ & Hc & _). now inversion Hc. Qed.

Lemma parSim_val p p' : parSim p p' -> val (curr p) = val (curr p').
Proof. intros (_ & _ & Hc & _). now inversion Hc. Qed.

Lemma parSim_isOp p p' v : parSim p p' -> isOp (curr p) v = isOp (curr p') v.
Proof.
  intros H. unfold isOp. now rewrite (parSim_typ _ _ H), (parSim_val _ _ H).
Qed.

Lemma pbind_sim {A B : Type} (r r' : presult A) (f f' : A -> parser -> presult B) :
  resSim r r' ->
  (forall a q q', parSim q q' -> resSim (f a q) (f' a q')) ->
  resSim (pbind r f) (pbind r' f').
Proof.
  intros Hr Hf. destruct r as [a q | e |], r' as [a' q' | e' |];
    cbn in *; try contradiction; try assumption.
  destruct Hr as [-> Hq]. now apply Hf.
Qed.

Section StepsSim.

Context (parse_rec : Z -> Z -> parser -> presult Expr).
Context (args_rec : Z -> parser -> presult (list Expr)).
Hypothesis parse_sim :
  forall rbp d p p', parSim p p' -> resSim (parse_rec rbp d p) (parse_rec rbp d p').
Hypothesis args_sim :
  forall d p p', parSim p p' -> resSim (args_rec d p) (args_rec d p').

Lemma nud_sim t t' d p p' :
  tokOf t = tokOf t' -> parSim p p' ->
  resSim (nud parse_rec args_rec t d p) (nud parse_rec args_rec t' d p').
Proof.
  intros Ht Hp. inversion Ht as [[Hty Hv]]. unfold nud. rewrite Hty, Hv.
  destruct (typ t'); try reflexivity.
  - destruct (contains_byte "." (val t')); split; auto.
  - split; auto.
  - destruct (String.eqb (val t') "true"); [split; auto |].
    destruct (String.eqb (val t') "false"); [split; auto |].
    rewrite (parSim_typ _ _ Hp).
    destruct (tokType_eqb (typ (curr p')) tLParen); [| split; auto].
    apply pbind_sim; [apply args_sim; now apply advance_sim |].
    intros a q q' Hq. split; auto.
  - apply pbind_sim; [now apply parse_sim |].
    intros a q q' Hq. rewrite (parSim_typ _ _ Hq).
    destruct (negb (tokType_eqb (typ (curr q')) tRParen)); [reflexivity |].
    split; [reflexivity | now apply advance_sim].
  - destruct (existsb _ _); [| reflexivity].
    apply pbind_sim; [now apply parse_sim |].
    intros a q q' Hq. split; auto.
Qed.

Lemma ledIndex_sim left d p p' :
  parSim p p' ->
  resSim (ledIndex parse_rec left d p) (ledIndex parse_rec left d p').
Proof.
  intros Hp. unfold ledIndex. apply pbind_sim; [now apply parse_sim |].
  intros a q q' Hq. rewrite (parSim_isOp _ _ _ Hq).
  destruct (negb (isOp (curr q') "]")); [reflexivity |].
  split; [reflexivity | now apply advance_sim].
Qed.

Lemma led_sim t t' left d p p' :
  tokOf t = tokOf t' -> parSim p p' ->
  resSim (led parse_rec args_rec t left d p) (led parse_rec args_rec t' left d p').
Proof.
  intros Ht Hp. inversion Ht as [[Hty Hv]]. unfold led.
  rewrite (lbp_tokOf t), Ht, <- (lbp_tokOf t'), Hv.
  destruct (String.eqb (val t') "?").
  { apply pbind_sim; [now apply parse_sim |]. intros a q q' Hq.
    rewrite (parSim_isOp _ _ _ Hq).
    destruct (negb (isOp (curr q') ":")); [reflexivity |].
    apply pbind_sim; [apply parse_sim; now apply advance_sim |].
    intros a2 q2 q2' Hq2. split; auto. }
  destruct (String.eqb (val t') "["); [now apply ledIndex_sim |].
  destruct (String.eqb (val t') ".").
  { rewrite (parSim_isOp _ _ _ Hp).
    destruct (isOp (curr p') "[");
      [apply ledIndex_sim; now apply advance_sim |].
    pose proof (advance_sim _ _ Hp) as Hp1.
    rewrite (parSim_typ _ _ Hp1), (parSim_val _ _ Hp).
    destruct (tokType_eqb (typ (curr (advance p'))) tLParen);
      [| split; auto].
    apply pbind_sim; [apply args_sim; now apply advance_sim |].
    intros a q q' Hq. split; auto. }
  apply pbind_sim; [now apply parse_sim |].
  intros a q q' Hq. split; auto.
Qed.

End StepsSim.

Lemma resSim_fuel {A : Type} : resSim (@PFuel A) (@PFuel A).
Proof. exact I. Qed.

Lemma parse_sim_all (n : nat) :
  (forall rbp d p p', parSim p p' ->
     resSim (parse n rbp d p) (parse n rbp d p'))
  /\ (forall rbp d left p p', parSim p p' ->
        resSim (parseLoop n rbp d left p) (parseLoop n rbp d left p'))
  /\ (forall d args p p', parSim p p' ->
        resSim (parseArgs n d args p) (parseArgs n d args p')).
Proof.
  induction n as [| n (IHp & IHl & IHa)].
  { repeat split; intros; exact I. }
  repeat apply conj.
  - intros rbp d p p' Hp. cbn [parse].
    destruct (MaxStackDepth <? d); [reflexivity |].
    pose proof (advance_sim _ _ Hp) as Hp1.
    destruct Hp as (He & He' & Hc & _). rewrite He, He'.
    destruct Hp1 as (He1 & He1' & Hrest). rewrite He1, He1'.
    apply pbind_sim.
    + apply nud_sim; [apply IHp | intros; now apply IHa | exact Hc |].
      split; [exact He1 | split; [exact He1' | exact Hrest]].
    + intros a q q' Hq. now apply IHl.
  - intros rbp d left p p' Hp. cbn [parseLoop].
    rewrite (parSim_lbp _ _ Hp).
    destruct (rbp <? lbp (curr p')); [| split; [reflexivity | exact Hp]].
    pose proof (advance_sim _ _ Hp) as Hp1.
    destruct Hp as (He & He' & Hc & _).
    destruct Hp1 as (He1 & He1' & Hrest). rewrite He1, He1'.
    apply pbind_sim.
    + apply led_sim; [apply IHp | intros; now apply IHa | exact Hc |].
      split; [exact He1 | split; [exact He1' | exact Hrest]].
    + intros a q q' Hq. now apply IHl.
  - intros d args p p' Hp. cbn [parseArgs].
    rewrite (parSim_typ _ _ Hp).
    destruct (negb (tokType_eqb (typ (curr p')) tRParen)
              && negb (tokType_eqb (typ (curr p')) tEOF)).
    + apply pbind_sim; [now apply IHp |].
      intros a q q' Hq. rewrite (parSim_typ _ _ Hq).
      destruct (tokType_eqb (typ (curr q')) tComma);
        [apply IHa; now apply advance_sim | now apply IHa].
    + destruct (negb (tokType_eqb (typ (curr p')) tRParen)); [reflexivity |].
      split; [reflexivity | now apply advance_sim].
Qed.

Lemma parSim_newParser w w' ts :
  Lexes w ts -> Lexes w' ts -> parSim (newParser w) (newParser w').
Proof.
  intros H H'. repeat split; try reflexivity. exists ts. split; assumption.
Qed.

(** Two texts that the lexer reads as the same tokens parse alike: to
    the same tree, or to the same error up to the position it reports.
    White space between tokens and the positions of the tokens have no
    influence on the tree. *)
Theorem parse_depends_on_tokens_only (w w' : string) (ts : list Tok) :
  Lexes w ts -> Lexes w' ts -> sameParse (ParseExpr w) (ParseExpr w').
Proof.
  intros H H'.
  pose proof (advance_sim _ _ (advance_sim _ _ (parSim_newParser w w' ts H H')))
    as Hp.
  set (n := Nat.max (parseFuel w) (parseFuel w')).
  pose proof (proj1 (parse_sim_all n) 0 0 _ _ Hp) as Hs.
  pose proof (parse_fuel_mono (parseFuel w) n 0 0
                (advance (advance (newParser w))) ltac:(lia)
                (parse_parseFuel_terminated w)) as E1.
  pose proof (parse_fuel_mono (parseFuel w') n 0 0
                (advance (advance (newParser w'))) ltac:(lia)
                (parse_parseFuel_terminated w')) as E2.
  rewrite E1, E2 in Hs. unfold ParseExpr.
  pose proof (parse_parseFuel_terminated w) as Ht.
  destruct (parse (parseFuel w) 0 0 _) as [e q | x |],
           (parse (parseFuel w') 0 0 _) as [e' q' | x' |];
    cbn in Hs; try contradiction.
  - destruct Hs as [-> Hq]. rewrite (parSim_typ _ _ Hq), (parSim_val _ _ Hq).
    destruct (negb (tokType_eqb (typ (curr q')) tEOF)); reflexivity.
  - exact Hs.
Qed.

Lemma parse_depends_on_tokens_only_witness :
  sameParse (ParseExpr "a+b*2") (ParseExpr " a +  b * 2 ").
Proof.
  apply (parse_depends_on_tokens_only "a+b*2" " a +  b * 2 "
           [(tIdent, "a"); (tOp, "+"); (tIdent, "b"); (tOp, "*"); (tNumber, "2")]).
  - repeat (eapply Lexes_cons; [vm_compute; reflexivity |]).
    apply Lexes_nil. vm_compute. reflexivity.
  - repeat (eapply Lexes_cons; [vm_compute; reflexivity |]).
    apply Lexes_nil. vm_compute. reflexivity.
Defined.

(* ================================================================== *)
(** ** A lexical error behind closing parentheses *)
(* ================================================================== *)

Lemma advance_at_err p :
  lexErr p = None -> lexTok (lexRest (lex p)) = LexErr ->
  exists l' e, advance p = mkParser l' (next p) (mkToken tEOF "" (lexPos l')) (Some e).
Proof.
  intros He Hl. pose proof (nextToken_lexTok (lex p)) as H.
  unfold advance. rewrite He.
  destruct (nextToken (lex p)) as [[t | e] l'].
  - destruct (tokType_eqb (typ t) tEOF); [destruct H as [H _] |]; congruence.
  - eexists _, _. reflexivity.
Qed.

Lemma advance_after_err p e :
  lexErr p = Some e ->
  advance p = mkParser (lex p) (next p) (mkToken tEOF "" (lexPos (lex p))) (Some e).
Proof. intros He. unfold advance. now rewrite He. Qed.

Lemma lexTok_unterminated body :
  contains_byte "'" body = false -> contains_byte "\" body = false ->
  lexTok (String "'" body) = LexErr.
Proof.
  intros Hq Hb.
  destruct (lexString_unterminated "'" body Hq Hb (String.length body) "")
    as (rest & Hl).
  unfold lexTok, nextToken. cbn [lexRest span].
  change (IsSpace "'") with false. cbv iota.
  change (IsDigit "'") with false. change (IsLetter "'") with false.
  cbn [orb Ascii.eqb Bool.eqb andb dquote]. cbv iota.
  rewrite Hl. reflexivity.
Qed.

(** The parser looks at the lexer's error only where an operand starts.
    An error of the lexer that arises while the parser steps over a
    closing parenthesis is lost when nothing but closing parentheses
    follow: [((1)) '...], whose tail is an unterminated string that
    [ParseExpr] rejects on its own, is accepted and means [1]. *)
Theorem lexical_error_behind_parentheses_is_lost (body : string) :
  contains_byte "'" body = false -> contains_byte "\" body = false ->
  ParseExpr (String "'" body) = PErr ErrUnterminatedString
  /\ (exists p, ParseExpr ("((1)) '" +:+ body) = POk (LiteralExpr (VInt64 1)) p)
  /\ forall h e d, EngineEval h e ("((1)) '" +:+ body) d = Some (VInt64 1, None).
Proof.
  intros Hq Hb.
  split.
  { unfold ParseExpr.
    now rewrite (parse_unterminated "'" body (or_intror eq_refl) Hq Hb). }
  set (w := "((1)) '" +:+ body).
  assert (Hw : exists p, parse (parseFuel w) 0 0 (advance (advance (newParser w)))
                         = POk (LiteralExpr (VInt64 1)) p
                         /\ typ (curr p) = tEOF).
  { destruct (advance_at_tok (newParser w) (tLParen, "(") ("(1)) '" +:+ body)
                eq_refl eq_refl) as (t1 & l1 & E1 & T1 & R1).
    set (Q1 := advance (newParser w)) in *.
    destruct (advance_at_tok Q1 (tLParen, "(") ("1)) '" +:+ body))
      as (t2 & l2 & E2 & T2 & R2);
      [now rewrite E1 | rewrite E1; cbn [lex]; now rewrite R1 |].
    set (P0 := advance Q1) in *.
    destruct (advance_at_tok P0 (tNumber, "1") (")) '" +:+ body))
      as (t3 & l3 & E3 & T3 & R3);
      [now rewrite E2 | rewrite E2; cbn [lex]; now rewrite R2 |].
    set (P1 := advance P0) in *.
    destruct (advance_at_tok P1 (tRParen, ")") (") '" +:+ body))
      as (t4 & l4 & E4 & T4 & R4);
      [now rewrite E3 | rewrite E3; cbn [lex]; now rewrite R3 |].
    set (P2 := advance P1) in *.
    destruct (advance_at_tok P2 (tRParen, ")") (" '" +:+ body))
      as (t5 & l5 & E5 & T5 & R5);
      [now rewrite E4 | rewrite E4; cbn [lex]; now rewrite R4 |].
    set (P3 := advance P2) in *.
    destruct (advance_at_err P3) as (l6 & err & E6);
      [now rewrite E5
       | rewrite E5; cbn [lex]; rewrite R5;
         change (" '" +:+ body) with (String " " (String "'" body));
         rewrite lexTok_space; now apply lexTok_unterminated |].
    set (P4 := advance P3) in *.
    pose proof (advance_after_err P4 err ltac:(now rewrite E6)) as E7.
    set (P5 := advance P4) in *.
    assert (C0 : tokOf (curr P0) = (tLParen, "(")) by (rewrite E2, E1; exact T1).
    assert (C1 : tokOf (curr P1) = (tLParen, "(")) by (rewrite E3, E2; exact T2).
    assert (C2 : tokOf (curr P2) = (tNumber, "1")) by (rewrite E4, E3; exact T3).
    assert (C3 : tokOf (curr P3) = (tRParen, ")")) by (rewrite E5, E4; exact T4).
    assert (C4 : tokOf (curr P4) = (tRParen, ")")) by (rewrite E6, E5; exact T5).
    assert (C5 : typ (curr P5) = tEOF) by (rewrite E7, E6; reflexivity).
    assert (L0 : lexErr P0 = None) by now rewrite E2.
    assert (L1 : lexErr P1 = None) by now rewrite E3.
    assert (L2 : lexErr P2 = None) by now rewrite E4.
    assert (L3 : lexErr P3 = None) by now rewrite E5.
    assert (X : forall q t, tokOf (curr q) = t -> typ (curr q) = fst t)
      by (intros q t <-; reflexivity).
    assert (Hexit : forall rbp d q, 0 <= rbp ->
                      typ (curr q) = tRParen \/ typ (curr q) = tEOF ->
                      loops rbp d (LiteralExpr (VInt64 1)) q
                            (POk (LiteralExpr (VInt64 1)) q)).
    { intros rbp d q Hr Hc. apply loops_exit. apply Z.ltb_ge.
      unfold lbp. destruct Hc as [-> | ->]; exact Hr. }
    assert (H2 : parses 0 2 P2 (POk (LiteralExpr (VInt64 1)) P3)).
    { apply (parses_step 0 2 P2 (LiteralExpr (VInt64 1)) P3);
        [reflexivity | exact L2 | exact L3 | |].
      - exists 0%nat.
        assert (Ht : typ (curr P2) = tNumber)
          by (change (typ (curr P2)) with (fst (tokOf (curr P2))); now rewrite C2).
        assert (Hv : val (curr P2) = "1")
          by (change (val (curr P2)) with (snd (tokOf (curr P2))); now rewrite C2).
        unfold nud. rewrite Ht, Hv. reflexivity.
      - apply Hexit; [lia |]. left. exact (X _ _ C3). }
    assert (H1 : parses 0 1 P1 (POk (LiteralExpr (VInt64 1)) P4)).
    { apply (parses_step 0 1 P1 (LiteralExpr (VInt64 1)) P4);
        [reflexivity | exact L1 | exact L2 | |].
      - apply (nud_paren (curr P1) 1 P2 _ P3);
          [exact (X _ _ C1) | exact H2 | exact (X _ _ C3)].
      - apply Hexit; [lia |]. left. exact (X _ _ C4). }
    assert (H0 : parses 0 0 P0 (POk (LiteralExpr (VInt64 1)) P5)).
    { apply (parses_step 0 0 P0 (LiteralExpr (VInt64 1)) P5);
        [reflexivity | exact L0 | exact L1 | |].
      - apply (nud_paren (curr P0) 0 P1 _ P4);
          [exact (X _ _ C0) | exact H1 | exact (X _ _ C4)].
      - apply Hexit; [lia |]. right. exact C5. }
    exists P5. split; [| exact C5].
    exact (parses_parseFuel w _ _ H0). }
  destruct Hw as (p & Hp & Heof). split.
  - exists p. unfold ParseExpr. fold w. rewrite Hp, Heof. reflexivity.
  - intros h e d. unfold EngineEval. fold w. rewrite Hp, Heof. reflexivity.
Qed.

Lemma lexical_error_behind_parentheses_is_lost_witness :
  exists p, ParseExpr "((1)) 'abc" = POk (LiteralExpr (VInt64 1)) p.
Proof.
  apply (proj1 (proj2 (lexical_error_behind_parentheses_is_lost "abc"
                         eq_refl eq_refl))).
Defined.

(* ================================================================== *)
(** ** The trees the parser builds *)
(* ================================================================== *)

Lemma parse_uint_loop_nonneg s : forall n, 0 <= n -> 0 <= fst (parse_uint_loop s n).
Proof.
  induction s as [| c s IH]; intros n Hn; cbn [parse_uint_loop]; [exact Hn |].
  destruct (is_digit c) eqn:Hd; [| cbn; lia].
  destruct (MaxUint64 / 10 + 1 <=? n); [cbn; unfold MaxUint64; lia |].
  destruct (MaxUint64 <? n * 10 + (byte_val c - 48)); [cbn; unfold MaxUint64; lia |].
  apply IH. unfold is_digit, byte_in in Hd. apply andb_prop in Hd as [Hd _].
  apply Z.leb_le in Hd. change (byte_val "0") with 48 in Hd. lia.
Qed.

Lemma ParseUint_nonneg s : 0 <= fst (ParseUint s).
Proof.
  destruct s; [cbn; lia |]. apply parse_uint_loop_nonneg. lia.
Qed.

Lemma ParseInt_range s : MinInt64 <= fst (ParseInt s) <= MaxInt64.
Proof.
  unfold ParseInt. destruct s as [| c s']; [cbn; unfold MinInt64, MaxInt64; lia |].
  destruct (if Ascii.eqb c "+" then (false, s')
            else if Ascii.eqb c "-" then (true, s') else (false, String c s'))
    as [neg digits].
  pose proof (ParseUint_nonneg digits) as Hu.
  destruct (ParseUint digits) as [un err]. cbn [fst] in Hu.
  destruct err; try (cbn; unfold MinInt64, MaxInt64; lia);
    destruct neg; cbn [negb andb];
    repeat match goal with
           | |- context [if ?c then _ else _] => destruct c eqn:?
           end;
    cbn [fst]; unfold MinInt64, MaxInt64;
    rewrite ?Z.leb_le, ?Z.leb_gt, ?Z.ltb_lt, ?Z.ltb_ge in *; lia.
Qed.

Lemma lbp_pos_infixOps t :
  0 < lbp t ->
  String.eqb (val t) "?" = false -> String.eqb (val t) "[" = false ->
  String.eqb (val t) "." = false ->
  existsb (String.eqb (val t)) infixOps = true.
Proof.
  unfold lbp. destruct (typ t); try lia.
  intros H Hq Hb Hd. rewrite Hd, Hb in H.
  cbn [existsb infixOps] in *.
  repeat match type of H with
         | context [String.eqb (val t) ?s] =>
             let E := fresh "E" in
             destruct (String.eqb (val t) s) eqn:E;
             cbn [orb] in H
         end;
    rewrite ?orb_true_r; try reflexivity; try lia; try discriminate.
Qed.

Lemma pbind_wf {A : Type} (r : presult A) (f : A -> parser -> presult Expr) :
  (forall a q, r = POk a q -> wfRes (f a q)) -> wfRes (pbind r f).
Proof. intros H. destruct r; cbn; auto. Qed.

Lemma pbind_wfArgs {A : Type} (r : presult A) (f : A -> parser -> presult (list Expr)) :
  (forall a q, r = POk a q -> wfArgs (f a q)) -> wfArgs (pbind r f).
Proof. intros H. destruct r; cbn; auto. Qed.

Section StepsWellFormed.

Context (parse_rec : Z -> Z -> parser -> presult Expr).
Context (args_rec : Z -> parser -> presult (list Expr)).
Hypothesis parse_wf : forall rbp d p, 0 <= rbp -> wfRes (parse_rec rbp d p).
Hypothesis args_wf : forall d p, wfArgs (args_rec d p).

Lemma nud_wf t d p : wfRes (nud parse_rec args_rec t d p).
Proof.
  unfold nud. destruct (typ t); try exact I.
  - destruct (contains_byte "." (val t)); cbn; [reflexivity |].
    pose proof (ParseInt_range (val t)) as [H1 H2].
    apply andb_true_intro. split; now apply Z.leb_le.
  - reflexivity.
  - destruct (String.eqb (val t) "true"); [reflexivity |].
    destruct (String.eqb (val t) "false"); [reflexivity |].
    destruct (tokType_eqb (typ (curr p)) tLParen); [| reflexivity].
    apply pbind_wf. intros a q Ha. pose proof (args_wf d (advance p)) as H.
    rewrite Ha in H. exact H.
  - apply pbind_wf. intros a q Ha. pose proof (parse_wf 0 (d + 1) p ltac:(lia)) as H.
    rewrite Ha in H. destruct (negb _); [exact I | exact H].
  - destruct (existsb (String.eqb (val t)) ["!"; "-"; "~"]) eqn:Hop; [| exact I].
    apply pbind_wf. intros a q Ha.
    pose proof (parse_wf 60 (d + 1) p ltac:(lia)) as H. rewrite Ha in H.
    cbn [wfRes wellFormed]. unfold unaryOps. now rewrite Hop, H.
Qed.

Lemma ledIndex_wf left d p :
  wellFormed left = true -> wfRes (ledIndex parse_rec left d p).
Proof.
  intros Hl. unfold ledIndex. apply pbind_wf. intros a q Ha.
  pose proof (parse_wf 0 (d + 1) p ltac:(lia)) as H. rewrite Ha in H.
  destruct (negb _); [exact I |]. cbn [wfRes wellFormed]. now rewrite Hl, H.
Qed.

Lemma led_wf t left d p :
  0 < lbp t -> wellFormed left = true -> wfRes (led parse_rec args_rec t left d p).
Proof.
  intros Hlbp Hl. unfold led.
  destruct (String.eqb (val t) "?") eqn:Hq.
  { apply pbind_wf. intros a q Ha.
    pose proof (parse_wf 0 (d + 1) p ltac:(lia)) as H. rewrite Ha in H.
    destruct (negb _); [exact I |].
    apply pbind_wf. intros a2 q2 Ha2.
    pose proof (parse_wf (lbp t - 1) (d + 1) (advance q) ltac:(lia)) as H2.
    rewrite Ha2 in H2. cbn [wfRes wellFormed]. now rewrite Hl, H, H2. }
  destruct (String.eqb (val t) "[") eqn:Hb; [now apply ledIndex_wf |].
  destruct (String.eqb (val t) ".") eqn:Hd.
  { destruct (isOp (curr p) "["); [now apply ledIndex_wf |].
    destruct (tokType_eqb (typ (curr (advance p))) tLParen).
    - apply pbind_wf. intros a q Ha.
      pose proof (args_wf d (advance (advance p))) as H. rewrite Ha in H.
      cbn [wfRes wellFormed wfArgs] in *. now rewrite Hl, H.
    - cbn [wfRes wellFormed]. now rewrite Hl. }
  apply pbind_wf. intros a q Ha.
  pose proof (parse_wf (lbp t) (d + 1) p ltac:(lia)) as H. rewrite Ha in H.
  cbn [wfRes wellFormed]. now rewrite (lbp_pos_infixOps t Hlbp Hq Hb Hd), Hl, H.
Qed.

End StepsWellFormed.

Lemma parse_wf_all (n : nat) :
  (forall rbp d p, 0 <= rbp -> wfRes (parse n rbp d p))
  /\ (forall rbp d left p, 0 <= rbp -> wellFormed left = true ->
        wfRes (parseLoop n rbp d left p))
  /\ (forall d args p, forallb wellFormed args = true ->
        wfArgs (parseArgs n d args p)).
Proof.
  induction n as [| n (IHp & IHl & IHa)].
  { repeat split; intros; exact I. }
  repeat apply conj.
  - intros rbp d p Hr. cbn [parse].
    destruct (MaxStackDepth <? d); [exact I |].
    destruct (lexErr p); [exact I |].
    destruct (lexErr (advance p)); [exact I |].
    apply pbind_wf. intros a q Ha. apply IHl; [exact Hr |].
    pose proof (nud_wf (parse n) (fun d q => parseArgs n d [] q) IHp
                  (fun d q => IHa d [] q eq_refl) (curr p) d (advance p)) as H.
    rewrite Ha in H. exact H.
  - intros rbp d left p Hr Hl. cbn [parseLoop].
    destruct (rbp <? lbp (curr p)) eqn:Hlt; [| exact Hl].
    apply Z.ltb_lt in Hlt.
    destruct (lexErr (advance p)); [exact I |].
    apply pbind_wf. intros a q Ha. apply IHl; [exact Hr |].
    pose proof (led_wf (parse n) (fun d q => parseArgs n d [] q) IHp
                  (fun d q => IHa d [] q eq_refl) (curr p) left d (advance p)
                  ltac:(lia) Hl) as H.
    rewrite Ha in H. exact H.
  - intros d args p Hargs. cbn [parseArgs].
    destruct (negb (tokType_eqb (typ (curr p)) tRParen)
              && negb (tokType_eqb (typ (curr p)) tEOF)).
    + apply pbind_wfArgs. intros a q Ha.
      pose proof (IHp 0 (d + 1) p ltac:(lia)) as H. rewrite Ha in H.
      apply IHa. rewrite forallb_app. cbn [forallb]. cbn [wfRes] in H.
      now rewrite Hargs, H.
    + destruct (negb (tokType_eqb (typ (curr p)) tRParen)); [exact I | exact Hargs].
Qed.

(** Every tree [ParseExpr] returns is well formed: its literals are
    booleans, strings, [int64] values within range and [float64] values,
    its member accesses are never of the index form, and its prefix and
    binary operators are among those the evaluator knows, so that the
    evaluator's branches for an unknown operator are never reached from a
    parsed expression. *)
Theorem parsed_trees_are_well_formed (s : string) (e : Expr) (p : parser) :
  ParseExpr s = POk e p -> wellFormed e = true.
Proof.
  unfold ParseExpr. intros H.
  pose proof (proj1 (parse_wf_all (parseFuel s)) 0 0
                (advance (advance (newParser s))) ltac:(lia)) as Hw.
  destruct (parse (parseFuel s) 0 0 (advance (advance (newParser s))))
    as [ast q | err |]; try discriminate H.
  destruct (negb (tokType_eqb (typ (curr q)) tEOF)); [discriminate H |].
  inversion H; subst. exact Hw.
Qed.

Lemma parsed_trees_are_well_formed_witness :
  wellFormed (InfixExpr (VariableExpr "a") "+" (LiteralExpr (VInt64 1))) = true.
Proof.
  assert (H : exists p, ParseExpr "a + 1"
                        = POk (InfixExpr (VariableExpr "a") "+" (LiteralExpr (VInt64 1))) p)
    by (eexists; vm_compute; reflexivity).
  destruct H as (p & H).
  exact (parsed_trees_are_well_formed "a + 1" _ p H).
Defined.

(* ================================================================== *)
(** ** Maps with integer keys *)
(* ================================================================== *)

(** On a map whose key type is a signed integer type other than
    [int64] and [string], the three ways to name the key [i] agree: the
    member access [m.i], the index by the string ['i'] and the index by
    the integer [i] all look up the integer [i] converted to the key
    type. *)
Theorem integer_key_three_ways (h : Host) (ctx : Context) (lhs : Expr)
    (kt : rtype) (m : list (value * value)) (i : Z) (b : bool) :
  Eval h ctx lhs = Done (VMap kt m, None) ->
  0 <= i <= MaxInt64 ->
  In (tKind kt) [Int; Int8; Int16; Int32; Int64] ->
  hAssignableTo h (VString (FormatInt i)) kt = false ->
  hConvertibleTo h (VString (FormatInt i)) kt = false ->
  hAssignableTo h (VInt64 i) kt = false ->
  hConvertibleTo h (VInt64 i) kt = true ->
  Eval h ctx (MemberAccessExpr lhs (FormatInt i) b)
  = Eval h ctx (IndexExpr lhs (LiteralExpr (VInt64 i)))
  /\ Eval h ctx (IndexExpr lhs (LiteralExpr (VString (FormatInt i))))
     = Eval h ctx (IndexExpr lhs (LiteralExpr (VInt64 i))).
Proof.
  intros Hl Hi Hk Has Hcs Hai Hci.
  destruct (FormatInt_reads_back i Hi) as (_ & _ & Hp).
  assert (Hidx : forall idx,
            Eval h ctx (IndexExpr lhs (LiteralExpr idx))
            = indexValue h (VMap kt m) idx).
  { intros idx. rewrite Eval_Index, Hl, try_done. cbn [isNil].
    change (Eval h ctx (LiteralExpr idx)) with (Done (idx, @None error)).
    now rewrite try_done. }
  rewrite !Hidx. rewrite Eval_MemberAccess, Hl, try_done. cbn [isNil].
  unfold getMember, indexValue.
  cbn [isNil deref derefFrom kindOf mapKeyType unname mapEntries].
  unfold memberKey, indexKey. cbn [isNil asString VInt64].
  rewrite Has, Hcs, Hp. fold (VInt64 i). rewrite Hai, Hci.
  simpl in Hk.
  destruct Hk as [<- | [<- | [<- | [<- | [<- | []]]]]]; rewrite ?Hp; split; reflexivity.
Qed.

Lemma integer_key_three_ways_witness :
  Eval Fixture.host (mkContext Fixture.data ∅)
       (MemberAccessExpr (VariableExpr "scores") (FormatInt 1) false)
  = Eval Fixture.host (mkContext Fixture.data ∅)
       (IndexExpr (VariableExpr "scores") (LiteralExpr (VInt64 1))).
Proof.
  apply (proj1 (integer_key_three_ways Fixture.host (mkContext Fixture.data ∅)
                  (VariableExpr "scores") Fixture.tInt
                  [(VInt Int 1, VString "Gold"); (VInt Int 2, VString "Silver")]
                  1 false eq_refl ltac:(vm_compute; split; discriminate)
                  ltac:(simpl; auto) eq_refl eq_refl eq_refl eq_refl)).
Defined.

(* ================================================================== *)
(** ** Bitwise operators *)
(* ================================================================== *)








(* ================================================================== *)
(** ** Literals *)
(* ================================================================== *)

Lemma EngineEval_of_ParseExpr h e s d ast p :
  ParseExpr s = POk ast p ->
  EngineEval h e s d = Some (recovered (Eval h (mkContext d (loadFuncs h e)) ast)).
Proof.
  unfold ParseExpr, EngineEval.
  destruct (parse (parseFuel s) 0 0 (advance (advance (newParser s))))
    as [a q | err |]; try discriminate.
  destruct (negb (tokType_eqb (typ (curr q)) tEOF)); [discriminate |].
  intros H. inversion H; subst. reflexivity.
Qed.

Lemma lexString_plain q s :
  contains_byte q s = false -> contains_byte "\" s = false ->
  forall fuel sb rest,
    (String.length s < fuel)%nat ->
    lexString fuel q (s +:+ String q rest) sb = (inl (sb +:+ s), rest).
Proof.
  induction s as [| c t IH]; intros Hq Hb fuel sb rest Hf.
  - destruct fuel as [| fuel]; [simpl in Hf; lia |].
    rewrite append_nil_l, append_nil_r. cbn [lexString].
    now rewrite Ascii.eqb_refl.
  - cbn [contains_byte] in Hq, Hb.
    apply orb_false_elim in Hq as [Hq1 Hq2].
    apply orb_false_elim in Hb as [Hb1 Hb2].
    cbn [String.length] in Hf. destruct fuel as [| fuel]; [lia |].
    rewrite append_cons. cbn [lexString].
    rewrite Ascii.eqb_sym, Hq1. rewrite Ascii.eqb_sym, Hb1.
    rewrite (IH Hq2 Hb2 fuel _ rest ltac:(lia)).
    now rewrite append_assoc.
Qed.

Lemma lexTok_plain_string q s rest :
  q = dquote \/ q = "'"%char ->
  contains_byte q s = false -> contains_byte "\" s = false ->
  lexTok (String q (s +:+ String q rest)) = LexTok (tString, s) rest.
Proof.
  intros Hquote Hq Hb.
  assert (Hl : lexString (String.length (s +:+ String q rest)) q
                 (s +:+ String q rest) "" = (inl s, rest)).
  { rewrite (lexString_plain q s Hq Hb _ "" rest); [reflexivity |].
    rewrite length_append. cbn [String.length]. lia. }
  unfold lexTok, nextToken. cbn [lexRest span].
  destruct Hquote as [-> | ->].
  - change (IsSpace dquote) with false. cbv iota.
    change (IsDigit dquote) with false. change (IsLetter dquote) with false.
    cbn [orb Ascii.eqb Bool.eqb andb dquote]. cbv iota.
    change (Ascii false true false false false true false false) with dquote.
    rewrite Hl. reflexivity.
  - change (IsSpace "'") with false. cbv iota.
    change (IsDigit "'") with false. change (IsLetter "'") with false.
    cbn [orb Ascii.eqb Bool.eqb andb dquote]. cbv iota.
    rewrite Hl. reflexivity.
Qed.

(** A string literal without escapes denotes its content, byte for
    byte: the text between two quotes of the same kind (single or double),
    when it holds no such quote and no backslash, parses to the literal of
    that text and evaluates to it. *)
Theorem plain_string_literal (q : ascii) (s : string) :
  q = dquote \/ q = "'"%char ->
  contains_byte q s = false -> contains_byte "\" s = false ->
  (exists p, ParseExpr (String q (s +:+ String q "")) = POk (LiteralExpr (VString s)) p)
  /\ forall h e d,
       EngineEval h e (String q (s +:+ String q "")) d = Some (VString s, None).
Proof.
  intros Hquote Hq Hb.
  assert (Hp : exists p, ParseExpr (String q (s +:+ String q ""))
                         = POk (LiteralExpr (VString s)) p).
  { apply (ParseExpr_from_tokens _ [(tString, s)]).
    - eapply Lexes_cons;
        [now apply lexTok_plain_string | apply Lexes_empty].
    - intros p Hs. pose proof (stream_advance _ _ _ Hs) as Hs'.
      exists (advance p). split; [| exact (stream_nil_typ _ Hs')].
      apply (parses_step 0 0 p (LiteralExpr (VString s)) (advance p)).
      + reflexivity.
      + exact (stream_lexErr _ _ Hs).
      + exact (stream_lexErr _ _ Hs').
      + exists 0%nat. unfold nud.
        rewrite (stream_curr_typ _ _ _ Hs), (stream_curr_val _ _ _ Hs).
        reflexivity.
      + apply loops_exit. exact (stops_curr 0 [] _ Hs' I ltac:(lia)). }
  split; [exact Hp |]. intros h e d. destruct Hp as (p & Hp).
  now rewrite (EngineEval_of_ParseExpr h e _ d _ p Hp).
Qed.

Lemma plain_string_literal_witness :
  exists p, ParseExpr "'it is'" = POk (LiteralExpr (VString "it is")) p.
Proof.
  apply (proj1 (plain_string_literal "'" "it is" (or_intror eq_refl)
                  eq_refl eq_refl)).
Defined.

(** Integer literals: the decimal text of an integer from 0 to the
    greatest [int64] evaluates to that integer, and the text with a minus
    sign in front evaluates to its negation. *)
Theorem integer_literals_evaluate_to_themselves (n : Z) :
  0 <= n <= MaxInt64 ->
  forall h e d,
    EngineEval h e (FormatInt n) d = Some (VInt64 n, None)
    /\ EngineEval h e ("-" +:+ FormatInt n) d = Some (VInt64 (- n), None).
Proof.
  intros Hn h e d.
  assert (Hr : reparsable h (LiteralExpr (VInt64 n)) = true).
  { cbn. apply andb_true_intro. split; apply Z.leb_le; lia. }
  split.
  - destruct (ParseExpr_ExprString h (LiteralExpr (VInt64 n)) Hr)
      as (p & Hp); [cbn; unfold MaxStackDepth; lia |].
    change (ExprString h (LiteralExpr (VInt64 n))) with (FormatInt n) in Hp.
    now rewrite (EngineEval_of_ParseExpr h e _ d _ p Hp).
  - assert (Hp : exists p, ParseExpr ("-" +:+ FormatInt n)
                           = POk (UnaryExpr "-" (LiteralExpr (VInt64 n))) p).
    { apply (ParseExpr_from_tokens _ [(tOp, "-"); (tNumber, FormatInt n)]).
      - pose proof (Lexes_ExprString h (LiteralExpr (VInt64 n)) Hr) as Hin.
        change (ExprString h (LiteralExpr (VInt64 n))) with (FormatInt n) in Hin.
        change (etoks h (LiteralExpr (VInt64 n))) with [(tNumber, FormatInt n)] in Hin.
        destruct (ExprString_head h (LiteralExpr (VInt64 n)) Hr) as (c & s & Hs & Hc).
        change (ExprString h (LiteralExpr (VInt64 n))) with (FormatInt n) in Hs.
        rewrite Hs in *.
        eapply Lexes_cons; [| exact Hin].
        now apply (lexTok_unary "-" c s).
      - intros p Hs.
        pose proof (stream_advance _ _ _ Hs) as Hs1.
        pose proof (stream_advance _ _ _ Hs1) as Hs2.
        exists (advance (advance p)). split; [| exact (stream_nil_typ _ Hs2)].
        apply (parses_step 0 0 p (UnaryExpr "-" (LiteralExpr (VInt64 n)))
                 (advance (advance p))).
        + reflexivity.
        + exact (stream_lexErr _ _ Hs).
        + exact (stream_lexErr _ _ Hs1).
        + apply nud_unary; [exact (stream_curr _ _ _ Hs) | reflexivity |].
          apply (chain_complete h (LiteralExpr (VInt64 n))
                   (chain_all h _) 60 (0 + 1) (advance p) []);
            try exact I; try exact Hr; try exact Hs1; try lia.
          cbn. unfold MaxStackDepth. lia.
        + apply loops_exit. exact (stops_curr 0 [] _ Hs2 I ltac:(lia)). }
    destruct Hp as (p & Hp).
    rewrite (EngineEval_of_ParseExpr h e _ d _ p Hp).
    rewrite Eval_Unary.
    change (Eval h (mkContext d (loadFuncs h e)) (LiteralExpr (VInt64 n)))
      with (Done (VInt64 n, @None error)).
    rewrite try_done. unfold evalUnary. cbn [String.eqb Ascii.eqb Bool.eqb].
    rewrite toInt64_VInt64. cbn [recovered ok].
    rewrite wrap64_id; [reflexivity |]. unfold MinInt64, MaxInt64 in *. lia.
Qed.

Lemma integer_literals_evaluate_to_themselves_witness :
  EngineEval Fixture.host (NewEngine Fixture.host) (FormatInt 42) VNil
  = Some (VInt64 42, None).
Proof.
  apply (integer_literals_evaluate_to_themselves 42
           ltac:(vm_compute; split; discriminate)).
Defined.
